(** * Degeneracy ordering of exact-near-clique-counting

    A shallow embedding of [src/degeneracy_helper.c] (the three peeling
    routines [computeDegeneracy], [computeDegeneracyOrderArray] and
    [computeDegeneracyOrderArrayVerticesSorted]) and of the argument
    handling of [main] in [src/degeneracy_cliques.c].

    Conventions of the embedding.
    - A C array is a [list]; reading slot [i] is [l !! i] and yields [None]
      when [i] is out of range.  Every function of the embedding lives in
      the [option] monad: [None] stands for an access outside an array, a
      dereference of a pointer that holds no link, or a read of a field
      that [Malloc] left indeterminate.
    - Vertex ids and array indices are [nat]; the entries of the [degree]
      array are [Z], because the code uses the value [-1] as the mark of a
      removed vertex.
    - The loop counters ([currentDegree], [numVerticesRemoved]) are [nat]:
      both are bounded by [size] as long as no access has gone out of
      range, and [size] is itself an [int]. *)

From Stdlib Require Import ZArith Lia Ascii String Sorted.
From stdpp Require Import base option list numbers sets strings.

Local Open Scope nat_scope.
#[local] Set Warnings "-clear-no-such-hyp".

(** ** Linked lists *)

(** Modelled from the spec: [LinkedList.h] / [LinkedList.c] are not part of
    the sources at hand.  The spec describes the buckets as linked lists
    with O(1) removal through a back-pointer; the operations below are the
    ones the peeling code calls, on a list of [int] payloads. *)
Abbreviation LinkedList := (list nat).

Definition createLinkedList : LinkedList := [].
Definition addFirst (l : LinkedList) (x : nat) : LinkedList := x :: l.
Definition addLast (l : LinkedList) (x : nat) : LinkedList := l ++ [x].
Definition getFirst (l : LinkedList) : option nat := head l.
Definition isEmpty (l : LinkedList) : bool :=
  match l with [] => true | _ => false end.

(** [deleteLink] removes one link.  A [Link*] kept in [vertexLocator] is
    modelled by the index of the bucket that holds the link; the link
    itself is the first cell of that bucket carrying the vertex. *)
Fixpoint unlink (v : nat) (l : LinkedList) : LinkedList :=
  match l with
  | [] => []
  | x :: r => if decide (x = v) then r else x :: unlink v r
  end.

(** ** Loops *)

(** A C [while (cond) body] loop run for at most [fuel] iterations; [None]
    when the body fails or the iterations are used up. *)
Fixpoint while {S : Type} (fuel : nat) (cond : S → bool)
         (body : S → option S) (s : S) : option S :=
  if cond s then
    match fuel with
    | 0 => None
    | S fuel' => s' ← body s; while fuel' cond body s'
    end
  else Some s.

(** ** Records of [degeneracy_helper.h] *)

(** [NeighborList]: [Malloc] leaves [vertex] and [orderNumber]
    indeterminate, which is [None] here. *)
Record NeighborList := mkNeighborList {
  nl_vertex : option nat;
  nl_orderNumber : option nat;
  nl_earlier : LinkedList;
  nl_later : LinkedList
}.

Record NeighborListArray := mkNeighborListArray {
  vertex : nat;
  orderNumber : nat;
  laterDegree : nat;
  later : list nat;
  earlierDegree : nat;
  earlier : list nat
}.

(** ** The state of the peeling loop *)

Record PeelState := mkPeel {
  verticesByDegree : list LinkedList;
  vertexLocator : list (option nat);
  degree : list Z;
  degeneracy : nat;
  currentDegree : nat;
  numVerticesRemoved : nat
}.

Definition set_buckets (b : list LinkedList) (s : PeelState) : PeelState :=
  mkPeel b (vertexLocator s) (degree s) (degeneracy s) (currentDegree s)
         (numVerticesRemoved s).
Definition set_locator (l : list (option nat)) (s : PeelState) : PeelState :=
  mkPeel (verticesByDegree s) l (degree s) (degeneracy s) (currentDegree s)
         (numVerticesRemoved s).
Definition set_degree (d : list Z) (s : PeelState) : PeelState :=
  mkPeel (verticesByDegree s) (vertexLocator s) d (degeneracy s)
         (currentDegree s) (numVerticesRemoved s).
Definition set_degeneracy (d : nat) (s : PeelState) : PeelState :=
  mkPeel (verticesByDegree s) (vertexLocator s) (degree s) d
         (currentDegree s) (numVerticesRemoved s).
Definition set_cursor (c r : nat) (s : PeelState) : PeelState :=
  mkPeel (verticesByDegree s) (vertexLocator s) (degree s) (degeneracy s) c r.

(** [a[i] = x] on an array: out of range is an error. *)
Definition store {A} (l : list A) (i : nat) (x : A) : option (list A) :=
  if decide (i < length l) then Some (<[i:=x]> l) else None.

(** An [int] used as an index. *)
Definition index_of (d : Z) : option nat :=
  if decide (0 <= d)%Z then Some (Z.to_nat d) else None.

(** [deleteLink(vertexLocator[v])]. *)
Definition deleteLink (v : nat) (s : PeelState) : option PeelState :=
  d ← mjoin (vertexLocator s !! v);
  b ← verticesByDegree s !! d;
  if decide (v ∈ b)
  then Some (set_buckets (<[d := unlink v b]> (verticesByDegree s)) s)
  else None.

(** [vertexLocator[v] = addFirst(verticesByDegree[d], v)]. *)
Definition relink (d : Z) (v : nat) (s : PeelState) : option PeelState :=
  i ← index_of d;
  b ← verticesByDegree s !! i;
  loc ← store (vertexLocator s) v (Some i);
  Some (set_locator loc (set_buckets (<[i := addFirst b v]> (verticesByDegree s)) s)).

(** [degree[v] = d]. *)
Definition write_degree (v : nat) (d : Z) (s : PeelState) : option PeelState :=
  deg ← store (degree s) v d;
  Some (set_degree deg s).

(** The first two loops of each routine: empty buckets, then
    [degree[i] = length(list[i])] and the vertex pushed on the front of its
    bucket, for [i = 0 .. size-1]. *)
Fixpoint fill (graph : list LinkedList) (ids : list nat) (s : PeelState)
  : option PeelState :=
  match ids with
  | [] => Some s
  | i :: rest =>
      li ← graph !! i;
      s1 ← write_degree i (Z.of_nat (length li)) s;
      s2 ← relink (Z.of_nat (length li)) i s1;
      fill graph rest s2
  end.

Definition allocate (size : nat) : PeelState :=
  mkPeel (replicate size createLinkedList) (replicate size None)
         (replicate size 0%Z) 0 0 0.

Definition initialise (graph : list LinkedList) (size : nat) : option PeelState :=
  fill graph (seq 0 size) (allocate size).

(** ** [computeDegeneracy] *)

(** Body of the inner [while(!isTail(neighborLink))] loop. *)
Definition visit (neighbor : nat) (s : PeelState) : option PeelState :=
  dn ← degree s !! neighbor;
  if decide (dn ≠ (-1)%Z) then
    s1 ← deleteLink neighbor s;
    s2 ← write_degree neighbor (dn - 1)%Z s1;
    if decide ((dn - 1)%Z ≠ (-1)%Z) then relink (dn - 1)%Z neighbor s2
    else Some s2
  else Some s.

Fixpoint scan (nbrs : list nat) (s : PeelState) : option PeelState :=
  match nbrs with
  | [] => Some s
  | neighbor :: rest => s' ← visit neighbor s; scan rest s'
  end.

(** The part of the removal branch that precedes the inner loop:
    [degeneracy = max(degeneracy,currentDegree)], [getFirst],
    [deleteLink(vertexLocator[vertex])]. *)
Definition pick (b : LinkedList) (s : PeelState) : option (nat * PeelState) :=
  let s0 := set_degeneracy (Nat.max (degeneracy s) (currentDegree s)) s in
  v ← getFirst b;
  s1 ← deleteLink v s0;
  Some (v, s1).

(** One iteration of [while(numVerticesRemoved < size)]. *)
Definition step (graph : list LinkedList) (s : PeelState) : option PeelState :=
  b ← verticesByDegree s !! currentDegree s;
  if isEmpty b then
    Some (set_cursor (currentDegree s + 1) (numVerticesRemoved s) s)
  else
    '(v, s1) ← pick b s;
    s2 ← write_degree v (-1)%Z s1;
    neighborList ← graph !! v;
    s3 ← scan neighborList s2;
    Some (set_cursor 0 (numVerticesRemoved s3 + 1) s3).

(** The loop condition [numVerticesRemoved < size]. *)
Definition running (size : nat) (s : PeelState) : bool :=
  bool_decide (numVerticesRemoved s < size).

Definition loop (fuel : nat) (graph : list LinkedList) (size : nat)
  : PeelState → option PeelState :=
  while fuel (running size) (step graph).

(** The number of iterations the loops are given.  An iteration either
    advances the cursor, which an access in range keeps below [size], or
    removes a vertex and resets the cursor, so at most [size] advances
    precede each of the [size] removals: these iterations are never used
    up, whatever the graph ([iterations_suffice] below), and [None] always
    stands for a fault of the C code. *)
Definition iterations (size : nat) : nat := size * (size + 2).

Definition computeDegeneracy (graph : list LinkedList) (size : nat) : option nat :=
  s0 ← initialise graph size;
  s ← loop (iterations size) graph size s0;
  Some (degeneracy s).

(** ** [computeDegeneracyOrderArray] *)

Definition allocateOrdering (size : nat) : list NeighborList :=
  replicate size (mkNeighborList None None createLinkedList createLinkedList).

(** [ordering[v]->vertex = v; ordering[v]->orderNumber = k]. *)
Definition set_rank (v k : nat) (o : list NeighborList)
  : option (list NeighborList) :=
  r ← o !! v;
  Some (<[v := mkNeighborList (Some v) (Some k) (nl_earlier r) (nl_later r)]> o).

(** [addLast(ordering[v]->later, u)]. *)
Definition push_later (v u : nat) (o : list NeighborList)
  : option (list NeighborList) :=
  r ← o !! v;
  Some (<[v := mkNeighborList (nl_vertex r) (nl_orderNumber r) (nl_earlier r)
                              (addLast (nl_later r) u)]> o).

(** [addLast(ordering[v]->earlier, u)]. *)
Definition push_earlier (v u : nat) (o : list NeighborList)
  : option (list NeighborList) :=
  r ← o !! v;
  Some (<[v := mkNeighborList (nl_vertex r) (nl_orderNumber r)
                              (addLast (nl_earlier r) u) (nl_later r)]> o).

Abbreviation OrderState := (PeelState * list NeighborList)%type.

Definition visitOrder (vertex neighbor : nat) (st : OrderState)
  : option OrderState :=
  let '(s, o) := st in
  dn ← degree s !! neighbor;
  if decide (dn ≠ (-1)%Z) then
    s1 ← deleteLink neighbor s;
    o1 ← push_later vertex neighbor o;
    s2 ← write_degree neighbor (dn - 1)%Z s1;
    s3 ← (if decide ((dn - 1)%Z ≠ (-1)%Z) then relink (dn - 1)%Z neighbor s2
          else Some s2);
    Some (s3, o1)
  else
    o1 ← push_earlier vertex neighbor o;
    Some (s, o1).

Fixpoint scanOrder (vertex : nat) (nbrs : list nat) (st : OrderState)
  : option OrderState :=
  match nbrs with
  | [] => Some st
  | neighbor :: rest =>
      st' ← visitOrder vertex neighbor st; scanOrder vertex rest st'
  end.

Definition stepOrder (graph : list LinkedList) (st : OrderState)
  : option OrderState :=
  let '(s, o) := st in
  b ← verticesByDegree s !! currentDegree s;
  if isEmpty b then
    Some (set_cursor (currentDegree s + 1) (numVerticesRemoved s) s, o)
  else
    '(v, s1) ← pick b s;
    o1 ← set_rank v (numVerticesRemoved s1) o;
    s2 ← write_degree v (-1)%Z s1;
    neighborList ← graph !! v;
    '(s3, o3) ← scanOrder v neighborList (s2, o1);
    Some (set_cursor 0 (numVerticesRemoved s3 + 1) s3, o3).

Definition loopOrder (fuel : nat) (graph : list LinkedList) (size : nat)
  : OrderState → option OrderState :=
  while fuel (λ st, running size st.1) (stepOrder graph).

(** The copy of one [NeighborList] into a [NeighborListArray]. *)
Definition toArray (r : NeighborList) : option NeighborListArray :=
  v ← nl_vertex r;
  k ← nl_orderNumber r;
  Some (mkNeighborListArray v k (length (nl_later r)) (nl_later r)
                            (length (nl_earlier r)) (nl_earlier r)).

Definition computeDegeneracyOrderArray (graph : list LinkedList) (size : nat)
  : option (list NeighborListArray) :=
  s0 ← initialise graph size;
  '(_, ordering) ← loopOrder (iterations size) graph size
                             (s0, allocateOrdering size);
  mapM (λ i, r ← ordering !! i; toArray r) (seq 0 size).

(** ** [computeDegeneracyOrderList] *)

(** The routine has the initialisation and the loop of
    [computeDegeneracyOrderArray] word for word, and returns [ordering]
    itself, the array of [NeighborList] records (its [DEBUG] print is not
    compiled). *)
Definition computeDegeneracyOrderList (graph : list LinkedList) (size : nat)
  : option (list NeighborList) :=
  s0 ← initialise graph size;
  '(_, ordering) ← loopOrder (iterations size) graph size
                             (s0, allocateOrdering size);
  Some ordering.

(** ** [computeDegeneracyOrderArrayVerticesSorted] *)

(** [int] arithmetic wraps around at 32 bits. *)
Definition wrap32 (z : Z) : Z := ((z + 2 ^ 31) mod 2 ^ 32 - 2 ^ 31)%Z.

Definition qsortComparator (node1 node2 : Z) : Z := wrap32 (node1 - node2).

(** [qsort] of the C library, on an [int] array: an insertion sort driven
    by the comparator ([x] goes before [y] when [cmp x y <= 0]). *)
Fixpoint qsort_insert (cmp : Z → Z → Z) (x : nat) (l : list nat) : list nat :=
  match l with
  | [] => [x]
  | y :: r =>
      if decide (cmp (Z.of_nat x) (Z.of_nat y) <= 0)%Z then x :: y :: r
      else y :: qsort_insert cmp x r
  end.

Definition qsort (cmp : Z → Z → Z) (l : list nat) : list nat :=
  foldr (qsort_insert cmp) [] l.

Abbreviation SortedState :=
  (PeelState * list NeighborList * list nat)%type.

Definition visitSorted (vertex neighbor : nat) (st : SortedState)
  : option SortedState :=
  let '(s, o, vertexMapping) := st in
  dn ← degree s !! neighbor;
  if decide (dn ≠ (-1)%Z) then
    s1 ← deleteLink neighbor s;
    o1 ← push_later vertex neighbor o;
    s2 ← write_degree neighbor (dn - 1)%Z s1;
    s3 ← (if decide ((dn - 1)%Z ≠ (-1)%Z) then relink (dn - 1)%Z neighbor s2
          else Some s2);
    Some (s3, o1, vertexMapping)
  else
    o1 ← push_earlier vertex neighbor o;
    Some (s, o1, vertexMapping).

Fixpoint scanSorted (vertex : nat) (nbrs : list nat) (st : SortedState)
  : option SortedState :=
  match nbrs with
  | [] => Some st
  | neighbor :: rest =>
      st' ← visitSorted vertex neighbor st; scanSorted vertex rest st'
  end.

Definition stepSorted (graph : list LinkedList) (st : SortedState)
  : option SortedState :=
  let '(s, o, vertexMapping) := st in
  b ← verticesByDegree s !! currentDegree s;
  if isEmpty b then
    Some (set_cursor (currentDegree s + 1) (numVerticesRemoved s) s, o,
          vertexMapping)
  else
    '(v, s1) ← pick b s;
    o1 ← set_rank v (numVerticesRemoved s1) o;
    vm ← store vertexMapping v (numVerticesRemoved s1);
    s2 ← write_degree v (-1)%Z s1;
    neighborList ← graph !! v;
    '(s3, o3, vm3) ← scanSorted v neighborList (s2, o1, vm);
    Some (set_cursor 0 (numVerticesRemoved s3 + 1) s3, o3, vm3).

Definition loopSorted (fuel : nat) (graph : list LinkedList) (size : nat)
  : SortedState → option SortedState :=
  while fuel (λ st, running size st.1.1) (stepSorted graph).

(** The renaming of one neighbour list:
    [a[j++] = vertexMapping[curr->data]] along the list. *)
Definition rename (vertexMapping : list nat) (l : LinkedList)
  : option (list nat) :=
  mapM (λ u, vertexMapping !! u) l.

(** Body of the final [for (v = 0; v < size; v++)] loop.  [orderingArray]
    comes from [Calloc]: a slot is [None] until it is assigned. *)
Definition emitSorted (ordering : list NeighborList) (vertexMapping : list nat)
           (v : nat) (orderingArray : list (option NeighborListArray))
  : option (list (option NeighborListArray)) :=
  i ← vertexMapping !! v;
  r ← ordering !! v;
  lat ← rename vertexMapping (nl_later r);
  ear ← rename vertexMapping (nl_earlier r);
  store orderingArray i
        (Some (mkNeighborListArray i i
                 (length (nl_later r)) (qsort qsortComparator lat)
                 (length (nl_earlier r)) (qsort qsortComparator ear))).

Fixpoint emitAll (ordering : list NeighborList) (vertexMapping : list nat)
         (vs : list nat) (orderingArray : list (option NeighborListArray))
  : option (list (option NeighborListArray)) :=
  match vs with
  | [] => Some orderingArray
  | v :: rest =>
      a ← emitSorted ordering vertexMapping v orderingArray;
      emitAll ordering vertexMapping rest a
  end.

Definition computeDegeneracyOrderArrayVerticesSorted
           (graph : list LinkedList) (size : nat)
  : option (list (option NeighborListArray)) :=
  s0 ← initialise graph size;
  '(_, ordering, vertexMapping) ←
     loopSorted (iterations size) graph size
                (s0, allocateOrdering size, replicate size 0);
  emitAll ordering vertexMapping (seq 0 size) (replicate size None).

(** * [main] of [degeneracy_cliques.c] *)

(** ** The C library calls of [main] *)

(** Modelled from the C library: [atoi] skips white space, reads an
    optional sign and the decimal digits that follow, and stops at the
    first other character; the value wraps to an [int]. *)
Definition is_space (c : ascii) : bool :=
  let n := nat_of_ascii c in
  (n =? 32)%nat || ((9 <=? n)%nat && (n <=? 13)%nat).

Definition is_digit (c : ascii) : bool :=
  let n := nat_of_ascii c in (48 <=? n)%nat && (n <=? 57)%nat.

Fixpoint skip_space (s : string) : string :=
  match s with
  | String c r => if is_space c then skip_space r else s
  | EmptyString => EmptyString
  end.

Fixpoint digits (s : string) (acc : Z) : Z :=
  match s with
  | String c r =>
      if is_digit c
      then digits r (acc * 10 + (Z.of_nat (nat_of_ascii c) - 48))%Z
      else acc
  | EmptyString => acc
  end.

Definition atoi (s : string) : Z :=
  match skip_space s with
  | String c r =>
      if Ascii.eqb c "-" then wrap32 (- digits r 0)
      else if Ascii.eqb c "+" then wrap32 (digits r 0)
      else wrap32 (digits (String c r) 0)
  | EmptyString => 0%Z
  end.

(** What one call of [getopt(argc, argv, ":i:t:k:d:o:")] returns before the
    final [-1]: an option letter with its [optarg], or ['?'] for a letter
    that is not in the option string, or [':'] for an option without its
    argument. *)
Inductive getopt_result :=
| opt_arg (opt : ascii) (optarg : string)
| opt_unknown
| opt_missing.

(** [strrchr(s, c)]: the index of the last [c] in [s] ([c] is not NUL). *)
Fixpoint strrchr (s : string) (c : ascii) : option nat :=
  match s with
  | EmptyString => None
  | String a r =>
      match strrchr r c with
      | Some i => Some (S i)
      | None => if Ascii.eqb a c then Some 0 else None
      end
  end.

(** [s[i] = '\0']: the string now ends before index [i]. *)
Fixpoint terminate_at (i : nat) (s : string) : string :=
  match i, s with
  | S i', String a r => String a (terminate_at i' r)
  | _, _ => EmptyString
  end.

(** Modelled from the C library: [basename] of [libgen.h].  The last
    component of the path, trailing slashes ignored; ["."] for the empty
    path and ["/"] for a path of slashes only.  [cur] is the component
    being read and [found] the last complete one. *)
Fixpoint last_component (s cur : string) (found : option string)
  : option string :=
  let found' := match cur with EmptyString => found | _ => Some cur end in
  match s with
  | EmptyString => found'
  | String a r =>
      if Ascii.eqb a "/" then last_component r EmptyString found'
      else last_component r (String.append cur (String a EmptyString)) found
  end.

Definition basename (path : string) : string :=
  match path with
  | EmptyString => "."%string
  | _ => default "/"%string (last_component path EmptyString None)
  end.

(** ** The argument handling *)

Record Config := mkConfig {
  fpath : string;
  t : option ascii;
  max_k : Z;
  flag_d : option Z;
  flag_o : option Z
}.

(** The variables as declared: [fpath] is a zeroed buffer, [max_k] is 0,
    the others are not initialised. *)
Definition declared : Config := mkConfig EmptyString None 0 None None.

(** How [main] leaves its argument handling: it returns a status, or
    [abort()] ends the process, or it goes on to
    [readInGraphAdjListToDoubleEdges]; [printed] is what went to the
    standard output, one string per line. *)
Inductive outcome :=
| Return (status : Z) (printed : list string)
| Abort (printed : list string)
| Load (printed : list string) (c : Config).

Definition usage : list string :=
  [ "Incorrect number of arguments.";
    "./degeneracy_cliques -i <file_path> -t <type> -k <max_clique_size> -d <data_flag> -o <optimize>";
    "file_path: path to file";
    "type: A/V/E. A for just k-clique information, V for per-vertex k-cliques, E for per-edge k-cliques";
    "max_clique_size: max_clique_size. If 0, calculate for all k.";
    "data_flag: 1 if information is to be output to a file, 0 otherwise.";
    "optimize: 1 if you want to use near clique new code or 0 for old method."
  ]%string.

(** [*optarg]. *)
Definition first_char (s : string) : ascii :=
  match s with String a _ => a | EmptyString => zero end.

(** [(t != 'A') && (t != 'V') && (t != 'E')]. *)
Definition wrong_type (t : ascii) : bool :=
  negb (Ascii.eqb t "A") && negb (Ascii.eqb t "V") && negb (Ascii.eqb t "E").

(** [(flag < 0) || (flag > hi)]. *)
Definition out_of_range (hi flag : Z) : bool :=
  (flag <? 0)%Z || (hi <? flag)%Z.

(** One case of the [switch (opt)]: the configuration to go on with, or
    how [main] ends. *)
Definition option_case (o : getopt_result) (c : Config) : Config + outcome :=
  match o with
  | opt_arg opt optarg =>
      if Ascii.eqb opt "i" then
        inl (mkConfig optarg (t c) (max_k c) (flag_d c) (flag_o c))
      else if Ascii.eqb opt "t" then
        if wrong_type (first_char optarg)
        then inr (Return 0 ["Incorrect type. Type should be A, V or E."%string])
        else inl (mkConfig (fpath c) (Some (first_char optarg)) (max_k c)
                           (flag_d c) (flag_o c))
      else if Ascii.eqb opt "k" then
        inl (mkConfig (fpath c) (t c) (atoi optarg) (flag_d c) (flag_o c))
      else if Ascii.eqb opt "d" then
        if out_of_range 2 (atoi optarg)
        then inr (Return 0
                    ["Incorrect flag for data. Shoudld be 0, 1 or 2."%string])
        else inl (mkConfig (fpath c) (t c) (max_k c) (Some (atoi optarg))
                           (flag_o c))
      else if Ascii.eqb opt "o" then
        if out_of_range 1 (atoi optarg)
        then inr (Return 0
                    ["Incorrect flag for data. Shoudld be 0 or 1"%string])
        else inl (mkConfig (fpath c) (t c) (max_k c) (flag_d c)
                           (Some (atoi optarg)))
      else inr (Abort ["In default case."%string])
  | opt_unknown | opt_missing => inr (Abort ["In default case."%string])
  end.

(** The [while ((opt = getopt(...)) != -1)] loop, then [printf("New
    code.\n")] and the call of the loader. *)
Fixpoint options (opts : list getopt_result) (c : Config) : outcome :=
  match opts with
  | [] => Load ["New code."%string] c
  | o :: rest =>
      match option_case o c with
      | inl c' => options rest c'
      | inr r => r
      end
  end.

Definition main (argc : Z) (opts : list getopt_result) : outcome :=
  if decide (argc ≠ 11%Z) then Return 0 usage
  else options opts declared.



(** [gname]: [basename(fpath)] cut at its last dot, as [main] passes it to
    [runAndPrintStatsCliques]. *)
Definition gname (path : string) : string :=
  let g := basename path in
  match strrchr g "." with
  | Some lastdot => terminate_at lastdot g
  | None => g
  end.

(** The argument of the last [-opt] among the results of [getopt]. *)
Fixpoint last_arg (opt : ascii) (opts : list getopt_result) : option string :=
  match opts with
  | [] => None
  | o :: rest =>
      match last_arg opt rest with
      | Some a => Some a
      | None =>
          match o with
          | opt_arg opt' a => if Ascii.eqb opt' opt then Some a else None
          | _ => None
          end
      end
  end.

(** The line that the case of [-t], [-d] or [-o] prints when it refuses
    the value. *)
Definition diagnostic (o : getopt_result) : string :=
  match o with
  | opt_arg opt _ =>
      if Ascii.eqb opt "t" then "Incorrect type. Type should be A, V or E."
      else if Ascii.eqb opt "d"
           then "Incorrect flag for data. Shoudld be 0, 1 or 2."
           else "Incorrect flag for data. Shoudld be 0 or 1"
  | _ => EmptyString
  end.

(** The values that the cases of [-t], [-d] and [-o] let through. *)
Definition validated (c : Config) : Prop :=
  (∀ x, t c = Some x → x = "A"%char ∨ x = "V"%char ∨ x = "E"%char) ∧
  (∀ z, flag_d c = Some z → (0 ≤ z ≤ 2)%Z) ∧
  (∀ z, flag_o c = Some z → (0 ≤ z ≤ 1)%Z).

(** An invocation with an argument error: a wrong
    number of arguments, or an option [-t], [-d] or [-o] with a value that
    [main] refuses. *)
Definition bad_option (o : getopt_result) : bool :=
  match o with
  | opt_arg opt optarg =>
      (Ascii.eqb opt "t" && wrong_type (first_char optarg)) ||
      (Ascii.eqb opt "d" && out_of_range 2 (atoi optarg)) ||
      (Ascii.eqb opt "o" && out_of_range 1 (atoi optarg))
  | _ => false
  end.

(** A result of [getopt] that falls to the [default] case. *)
Definition rejected (o : getopt_result) : bool :=
  match o with
  | opt_arg opt _ =>
      negb (Ascii.eqb opt "i" || Ascii.eqb opt "t" || Ascii.eqb opt "k" ||
            Ascii.eqb opt "d" || Ascii.eqb opt "o")
  | _ => true
  end.



(** [c] occurs in [s]. *)
Fixpoint occurs (c : ascii) (s : string) : Prop :=
  match s with
  | EmptyString => False
  | String a r => a = c ∨ occurs c r
  end.

(** * Specification vocabulary *)

(** ** Input graphs *)

(** [list[v]], empty outside the array. *)
Definition neighbours (graph : list LinkedList) (v : nat) : LinkedList :=
  default [] (graph !! v).

(** A simple symmetric graph on [size] vertices given by adjacency lists:
    ids in range, no duplicate, no self-loop, and [u] listed at [v] exactly
    when [v] is listed at [u]. *)
Definition simple_symmetric (graph : list LinkedList) (size : nat) : Prop :=
  length graph = size ∧
  Forall (λ v, NoDup (neighbours graph v) ∧ (v ∉ neighbours graph v) ∧
               Forall (λ u, u < size ∧ v ∈ neighbours graph u)
                      (neighbours graph v))
         (seq 0 size).

#[global] Instance simple_symmetric_dec graph size :
  Decision (simple_symmetric graph size).
Proof. unfold simple_symmetric. apply _. Defined.

(** Number of neighbours of [u] outside [dead]: the current degree of [u]
    once the vertices of [dead] have been removed. *)
Definition live_count (graph : list LinkedList) (dead : list nat) (u : nat)
  : nat :=
  length (filter (λ w, w ∉ dead) (neighbours graph u)).

(** Number of undirected edges: half the total adjacency-list length. *)
Definition total_adjacency (graph : list LinkedList) : nat :=
  sum_list (length <$> graph).

(** ** The state as the specification reads it *)

(** [u] has not been removed: [degree[u] != -1]. *)
Definition is_live (s : PeelState) (u : nat) : Prop :=
  from_option (λ d, d ≠ (-1)%Z) False (degree s !! u).

#[global] Instance is_live_dec s u : Decision (is_live s u).
Proof. unfold is_live. destruct (degree s !! u); apply _. Defined.

(** The current degree of [u]: its neighbours that are still live. *)
Definition current_degree (graph : list LinkedList) (s : PeelState) (u : nat)
  : nat :=
  length (filter (is_live s) (neighbours graph u)).

(** The vertices removed so far. *)
Definition removed_count (size : nat) (s : PeelState) : nat :=
  length (filter (λ u, ¬ is_live s u) (seq 0 size)).

(** The state at the head of an iteration of the peeling loop: the counter
    is the number of removed vertices, every live vertex is filed in the
    bucket of its current degree, the cursor has only passed empty buckets,
    and a vertex at the head of the cursor's bucket is live with the
    smallest current degree. *)
Definition minimum_removal (graph : list LinkedList) (size : nat)
           (s : PeelState) : Prop :=
  numVerticesRemoved s = removed_count size s ∧
  (∀ u, is_live s u →
        degree s !! u = Some (Z.of_nat (current_degree graph s u)) ∧
        ∃ b, verticesByDegree s !! current_degree graph s u = Some b ∧ u ∈ b) ∧
  (∀ d, d < currentDegree s → verticesByDegree s !! d = Some []) ∧
  ∃ b, verticesByDegree s !! currentDegree s = Some b ∧
       ∀ v, head b = Some v →
            is_live s v ∧ current_degree graph s v = currentDegree s ∧
            ∀ u, is_live s u →
                 current_degree graph s v ≤ current_degree graph s u.

(** The rank that the returned array gives to vertex [u]. *)
Definition rank_in (arr : list NeighborListArray) (u : nat) : nat :=
  from_option orderNumber 0 (arr !! u).

(** One iteration that removes [v]: the rank written into [ordering[v]] is
    the value of the counter, the counter goes up by one, the cursor goes
    back to 0 and [v] is marked. *)
Definition removal_step (graph : list LinkedList) (st st' : OrderState)
           (v : nat) : Prop :=
  stepOrder graph st = Some st' ∧
  (∃ r, st'.2 !! v = Some r ∧ nl_vertex r = Some v ∧
        nl_orderNumber r = Some (numVerticesRemoved st.1)) ∧
  numVerticesRemoved st'.1 = S (numVerticesRemoved st.1) ∧
  currentDegree st'.1 = 0 ∧
  ¬ is_live st'.1 v.

(** ** Degeneracy *)

(** The neighbours of [v] inside the vertex set [H]. *)
Definition induced_degree (graph : list LinkedList) (H : list nat) (v : nat)
  : nat :=
  length (filter (λ u, u ∈ H) (neighbours graph v)).

(** [d] is the degeneracy of the graph: every non-empty set of vertices has
    a vertex with at most [d] neighbours inside the set, and, unless [d] is
    0, some non-empty set has no vertex with fewer than [d] neighbours
    inside it. *)
Definition is_degeneracy (graph : list LinkedList) (size d : nat) : Prop :=
  (∀ H, H ≠ [] → (∀ v, v ∈ H → v < size) →
        ∃ v, v ∈ H ∧ induced_degree graph H v ≤ d) ∧
  (d = 0 ∨
   ∃ H, H ≠ [] ∧ (∀ v, v ∈ H → v < size) ∧
        ∀ v, v ∈ H → d ≤ induced_degree graph H v).

(** The adjacency lists that an array of
    [computeDegeneracyOrderArrayVerticesSorted] describes: at every slot
    the [earlier] entries followed by the [later] entries. *)
Definition adjacency (a : list (option NeighborListArray))
  : list LinkedList :=
  from_option (λ r, earlier r ++ later r) [] <$> a.

(** Two graphs of the specification's scenarios: the triangle, and the
    bowtie (triangles 0-1-2 and 2-3-4 sharing vertex 2). *)
Definition K3 : list LinkedList := [[1;2];[0;2];[0;1]].
Definition bowtie : list LinkedList := [[1;2];[0;2];[0;1;3;4];[2;4];[2;3]].

(** States the loop [while (cond) body] passes through, from [s0]. *)
Inductive reaches {S : Type} (cond : S → bool) (body : S → option S) (s0 : S)
  : S → Prop :=
| reaches_start : reaches cond body s0 s0
| reaches_next s s' :
    reaches cond body s0 s → cond s = true → body s = Some s' →
    reaches cond body s0 s'.

(** [reaches_in cond body n s s']: from [s] the loop makes [n] iterations,
    each entered with its condition true and completed by its body, and
    stands at [s']. *)
Inductive reaches_in {State : Type} (cond : State → bool)
          (body : State → option State) : nat → State → State → Prop :=
| reaches_in_start s : reaches_in cond body 0 s s
| reaches_in_next n s s' s'' :
    cond s = true → body s = Some s' → reaches_in cond body n s' s'' →
    reaches_in cond body (S n) s s''.

(** A loop started at [s] ends within [bound] iterations: after at most
    [bound] iterations it stands at a state where its condition is false,
    and [while] returns that state when it is given [bound] iterations or
    more; or it stands at a state where its condition is true and its body
    fails at an access out of range, and [while] returns [None] whatever
    it is given. *)
Definition ends_within {State : Type} (cond : State → bool)
           (body : State → option State) (bound : nat) (s : State) : Prop :=
  ∃ n s',
    n ≤ bound ∧ reaches_in cond body n s s' ∧
    ((cond s' = false ∧
      ∀ fuel, bound ≤ fuel → while fuel cond body s = Some s') ∨
     (cond s' = true ∧ body s' = None ∧
      ∀ fuel, while fuel cond body s = None)).

(** * Invariants *)

(** Reduction of the [option] monad only. *)
Ltac osimpl :=
  cbn [mbind option_bind mjoin option_join mret option_ret fmap option_fmap
       option_map].

Section Graph.
Variables (graph : list LinkedList) (size : nat).

(** [dead] lists the removed vertices; [rest] is the part of the removed
    vertex's neighbour list that the inner loop has not visited yet.  A
    live vertex [u] is filed in the bucket of [degree[u]], which counts
    its live neighbours, plus one while [u] is still in [rest]. *)
Record ScanInv (dead rest : list nat) (s : PeelState) : Prop := {
  si_buckets : length (verticesByDegree s) = size;
  si_locator : length (vertexLocator s) = size;
  si_degree : length (degree s) = size;
  si_dead : ∀ u, u ∈ dead → degree s !! u = Some (-1)%Z;
  si_live : ∀ u, u < size → (u ∉ dead) →
    ∃ b, let d := live_count graph dead u +
                  (if decide (u ∈ rest) then 1 else 0) in
         degree s !! u = Some (Z.of_nat d) ∧
         vertexLocator s !! u = Some (Some d) ∧
         verticesByDegree s !! d = Some b ∧ u ∈ b;
  si_bucket : ∀ d b u, verticesByDegree s !! d = Some b → u ∈ b →
    u < size ∧ (u ∉ dead) ∧ degree s !! u = Some (Z.of_nat d);
  si_nodup : ∀ d b, verticesByDegree s !! d = Some b → NoDup b
}.

(** The record of [v] after the inner loop has filed [nbrs]. *)
Definition filed (dead nbrs : list nat) (r : NeighborList) : NeighborList :=
  mkNeighborList (nl_vertex r) (nl_orderNumber r)
                 (nl_earlier r ++ filter (λ u, u ∈ dead) nbrs)
                 (nl_later r ++ filter (λ u, u ∉ dead) nbrs).

(** [order] is the sequence of the vertices removed so far. *)
Record Inv (order : list nat) (s : PeelState) : Prop := {
  inv_scan : ScanInv order [] s;
  inv_nodup : NoDup order;
  inv_removed : numVerticesRemoved s = length order;
  inv_cursor : ∀ d b, d < currentDegree s →
                      verticesByDegree s !! d = Some b → b = []
}.

(** After the vertices below [i] have been filed. *)
Record FillInv (i : nat) (s : PeelState) : Prop := {
  fi_buckets : length (verticesByDegree s) = size;
  fi_locator : length (vertexLocator s) = size;
  fi_degree : length (degree s) = size;
  fi_filed : ∀ u, u < i →
    ∃ b, let d := length (neighbours graph u) in
         degree s !! u = Some (Z.of_nat d) ∧
         vertexLocator s !! u = Some (Some d) ∧
         verticesByDegree s !! d = Some b ∧ u ∈ b;
  fi_bucket : ∀ d b u, verticesByDegree s !! d = Some b → u ∈ b →
    u < i ∧ degree s !! u = Some (Z.of_nat d);
  fi_nodup : ∀ d b, verticesByDegree s !! d = Some b → NoDup b;
  fi_counters : degeneracy s = 0 ∧ currentDegree s = 0 ∧
                numVerticesRemoved s = 0
}.

(** What bounds the iterations still to come in any state: the length
    of the bucket array and the two loop counters. *)
Definition shape (s : PeelState) : nat * nat * nat :=
  (length (verticesByDegree s), numVerticesRemoved s, currentDegree s).

Definition budget (s : PeelState) : nat :=
  (size - numVerticesRemoved s) * (length (verticesByDegree s) + 1) +
  (length (verticesByDegree s) - currentDegree s).

(** The cell that [stepSorted] writes into [vertexMapping]. *)
Definition mapped (s : PeelState) (vm : list nat) : option (list nat) :=
  b ← verticesByDegree s !! currentDegree s;
  match b with
  | [] => Some vm
  | v :: _ => store vm v (numVerticesRemoved s)
  end.

(** What the loop leaves in [ordering[v]] once [v] has been removed as
    the [k]-th vertex of [order]. *)
Definition record_of (order : list nat) (k v : nat) : NeighborList :=
  mkNeighborList (Some v) (Some k)
    (filter (λ u, u ∈ take (S k) order) (neighbours graph v))
    (filter (λ u, u ∉ take (S k) order) (neighbours graph v)).

Definition blank : NeighborList := mkNeighborList None None [] [].

Record SInv (order : list nat) (st : SortedState) : Prop := {
  sv_peel : Inv order st.1.1;
  sv_length : length st.1.2 = size;
  sv_live : ∀ v, v < size → v ∉ order → st.1.2 !! v = Some blank;
  sv_dead : ∀ k v, order !! k = Some v →
                   st.1.2 !! v = Some (record_of order k v);
  sv_vm_length : length st.2 = size;
  sv_vm : ∀ k v, order !! k = Some v → st.2 !! v = Some k;
  sv_deg_le : ∀ k v, order !! k = Some v →
    live_count graph (take (S k) order) v ≤ degeneracy st.1.1;
  sv_deg_max : degeneracy st.1.1 = 0 ∨
    ∃ k v, order !! k = Some v ∧
           live_count graph (take (S k) order) v = degeneracy st.1.1
}.

(** Iterations still to go, at most. *)
Definition remaining (s : PeelState) : nat :=
  (size - numVerticesRemoved s) * (size + 1) + (size - currentDegree s).

Definition array_of (order : list nat) (k v : nat) : NeighborListArray :=
  let r := record_of order k v in
  mkNeighborListArray v k (length (nl_later r)) (nl_later r)
                      (length (nl_earlier r)) (nl_earlier r).

(** [order] is a removal sequence of all the vertices. *)
Definition removal_order (order : list nat) : Prop :=
  NoDup order ∧ length order = size ∧ ∀ v, v < size ↔ v ∈ order.

(** A value that fits a non-negative [int]. *)
Definition int_range (x : nat) : Prop := (Z.of_nat x < 2 ^ 31)%Z.

(** [vertexMapping[u]] as a function. *)
Definition translate (vertexMapping : list nat) (u : nat) : nat :=
  default 0 (vertexMapping !! u).

Definition emitted (order vm : list nat) (k v : nat) : NeighborListArray :=
  let r := record_of order k v in
  mkNeighborListArray k k
    (length (nl_later r)) (qsort qsortComparator (translate vm <$> nl_later r))
    (length (nl_earlier r))
    (qsort qsortComparator (translate vm <$> nl_earlier r)).

(** Twice the number of edges between vertices outside [dead]. *)
Definition potential (dead : list nat) : nat :=
  sum_list ((λ u, if decide (u ∈ dead) then 0 else live_count graph dead u)
              <$> seq 0 size).

(** The history of the removals: the [k]-th removed vertex had the least
    current degree of the vertices left, and [degeneracy] is the largest
    of these degrees. *)
Record HInv (order : list nat) (s : PeelState) : Prop := {
  hi_inv : Inv order s;
  hi_min : ∀ k v, order !! k = Some v →
    ∀ u, u < size → (u ∉ take k order) →
         live_count graph (take k order) v ≤ live_count graph (take k order) u;
  hi_le : ∀ k v, order !! k = Some v →
    live_count graph (take k order) v ≤ degeneracy s;
  hi_max : degeneracy s = 0 ∨
    ∃ k v, order !! k = Some v ∧
           live_count graph (take k order) v = degeneracy s
}.

(** * Proofs *)

(** ** Generic facts *)

Section Generic.
Context {A : Type}.

Lemma store_Some (l : list A) i x l' :
  store l i x = Some l' ↔ i < length l ∧ l' = <[i:=x]> l.
Proof.
  unfold store. case_decide; split.
  - intros [= <-]. done.
  - intros [_ ->]. done.
  - done.
  - intros [? _]. lia.
Qed.

Lemma store_is_Some (l : list A) i x :
  i < length l → store l i x = Some (<[i:=x]> l).
Proof. intros. apply store_Some; auto. Qed.
End Generic.

Lemma filter_all {A} (P : A → Prop) `{∀ x, Decision (P x)} (l : list A) :
  (∀ x, x ∈ l → P x) → filter P l = l.
Proof.
  induction l as [|x l IH]; intros Hall; [done|].
  rewrite filter_cons_True by (apply Hall; left).
  f_equal. apply IH. intros y Hy. apply Hall. by right.
Qed.

Lemma filter_ext_in {A} (P Q : A → Prop) `{∀ x, Decision (P x)}
      `{∀ x, Decision (Q x)} (l : list A) :
  (∀ x, x ∈ l → P x ↔ Q x) → filter P l = filter Q l.
Proof.
  induction l as [|x l IH]; intros Hpq; [done|].
  rewrite !filter_cons, IH by (intros y Hy; apply Hpq; by right).
  pose proof (Hpq x (list_elem_of_here x l)).
  repeat case_decide; tauto.
Qed.

Lemma unlink_subseteq v l x : x ∈ unlink v l → x ∈ l.
Proof.
  induction l as [|y l IH]; simpl; [done|].
  case_decide; set_solver.
Qed.

Lemma unlink_elem_of v l x : NoDup l → x ∈ unlink v l ↔ x ∈ l ∧ x ≠ v.
Proof.
  induction l as [|y l IH]; simpl; intros Hnd; [set_solver|].
  apply NoDup_cons in Hnd as [Hy Hnd]. case_decide; subst.
  - split; [intros Hx|set_solver]. split; [set_solver|]. intros ->; done.
  - rewrite !elem_of_cons, IH by done. naive_solver.
Qed.

Lemma NoDup_unlink v l : NoDup l → NoDup (unlink v l).
Proof.
  induction l as [|y l IH]; simpl; intros Hnd; [done|].
  apply NoDup_cons in Hnd as [Hy Hnd]. case_decide; [done|].
  apply NoDup_cons. split; [|auto]. intros Hin. by apply unlink_subseteq in Hin.
Qed.

Lemma index_of_nat (d : nat) : index_of (Z.of_nat d) = Some d.
Proof. unfold index_of. case_decide; [|lia]. by rewrite Nat2Z.id. Qed.

Section While.
Context {S : Type} (cond : S → bool) (body : S → option S).

(** An invariant with a decreasing measure: enough iterations end the
    loop in a state of the invariant where the condition is false. *)
Lemma while_invariant (P : S → Prop) (μ : S → nat) :
  (∀ s, P s → cond s = true → ∃ s', body s = Some s' ∧ P s' ∧ μ s' < μ s) →
  ∀ fuel s, P s → μ s ≤ fuel →
    ∃ s', while fuel cond body s = Some s' ∧ P s' ∧ cond s' = false ∧
          reaches cond body s s'.
Proof.
  intros Hstep fuel. induction fuel as [|fuel IH]; intros s HP Hμ.
  - destruct (cond s) eqn:Hc.
    + destruct (Hstep s HP Hc) as (s' & _ & _ & ?). lia.
    + exists s. simpl. rewrite Hc. eauto using reaches.
  - simpl. destruct (cond s) eqn:Hc.
    + destruct (Hstep s HP Hc) as (s' & Hb & HP' & Hlt).
      destruct (IH s' HP') as (s'' & Hw & ? & ? & Hr); [lia|].
      exists s''. rewrite Hb. simpl. split_and!; try done.
      clear -Hr Hc Hb. induction Hr; eauto using reaches.
    + exists s. eauto using reaches.
Qed.

(** With a measure that every iteration lowers, fuel above the measure
    is never used up: the result does not depend on it. *)
Lemma while_fuel_irrelevant (μ : S → nat) :
  (∀ s s', cond s = true → body s = Some s' → μ s' < μ s) →
  ∀ fuel fuel' s, μ s ≤ fuel → μ s ≤ fuel' →
    while fuel cond body s = while fuel' cond body s.
Proof.
  intros Hstep fuel. induction fuel as [|fuel IH]; intros fuel' s Hf Hf'.
  - destruct fuel' as [|fuel']; [done|]. simpl.
    destruct (cond s) eqn:Hc; [|done].
    destruct (body s) as [s'|] eqn:Hb; [|done].
    pose proof (Hstep s s' Hc Hb). lia.
  - destruct fuel' as [|fuel']; simpl; destruct (cond s) eqn:Hc; try done.
    + destruct (body s) as [s'|] eqn:Hb; [|done].
      pose proof (Hstep s s' Hc Hb). lia.
    + destruct (body s) as [s'|] eqn:Hb; [|done]. simpl.
      pose proof (Hstep s s' Hc Hb). apply IH; lia.
Qed.

Lemma reaches_invariant (P : S → Prop) s0 :
  (∀ s s', P s → cond s = true → body s = Some s' → P s') →
  P s0 → ∀ s, reaches cond body s0 s → P s.
Proof. intros Hstep H0 s Hr. induction Hr; eauto. Qed.
End While.

(** Two loops in lock step through a projection [π]. *)
Lemma while_project {S T : Type} (π : S → T) cond1 body1 cond2 body2 :
  (∀ s, cond1 s = cond2 (π s)) →
  (∀ s s', body1 s = Some s' → body2 (π s) = Some (π s')) →
  ∀ fuel s s', while fuel cond1 body1 s = Some s' →
               while fuel cond2 body2 (π s) = Some (π s').
Proof.
  intros Hc Hb fuel. induction fuel as [|fuel IH]; intros s s'; simpl;
    rewrite <- Hc; destruct (cond1 s); try congruence.
  destruct (body1 s) as [s1|] eqn:H1; simpl; [|done].
  rewrite (Hb _ _ H1). simpl. apply IH.
Qed.

(** ** The primitive steps, when they succeed *)

Lemma deleteLink_spec v s d b :
  vertexLocator s !! v = Some (Some d) →
  verticesByDegree s !! d = Some b → v ∈ b →
  deleteLink v s =
  Some (mkPeel (<[d := unlink v b]> (verticesByDegree s)) (vertexLocator s)
               (degree s) (degeneracy s) (currentDegree s)
               (numVerticesRemoved s)).
Proof.
  intros Hl Hb Hin. unfold deleteLink. rewrite Hl. osimpl. rewrite Hb. osimpl.
  by rewrite decide_True.
Qed.

Lemma write_degree_spec v d s :
  v < length (degree s) →
  write_degree v d s =
  Some (mkPeel (verticesByDegree s) (vertexLocator s) (<[v := d]> (degree s))
               (degeneracy s) (currentDegree s) (numVerticesRemoved s)).
Proof. intros Hv. unfold write_degree. by rewrite store_is_Some. Qed.

Lemma relink_spec (d : nat) v s b :
  verticesByDegree s !! d = Some b → v < length (vertexLocator s) →
  relink (Z.of_nat d) v s =
  Some (mkPeel (<[d := v :: b]> (verticesByDegree s))
               (<[v := Some d]> (vertexLocator s))
               (degree s) (degeneracy s) (currentDegree s)
               (numVerticesRemoved s)).
Proof.
  intros Hb Hv. unfold relink. rewrite index_of_nat. osimpl. rewrite Hb. osimpl.
  by rewrite store_is_Some.
Qed.

Lemma pick_spec v b' s :
  vertexLocator s !! v = Some (Some (currentDegree s)) →
  verticesByDegree s !! currentDegree s = Some (v :: b') →
  pick (v :: b') s =
  Some (v, mkPeel (<[currentDegree s := b']> (verticesByDegree s))
                  (vertexLocator s) (degree s)
                  (Nat.max (degeneracy s) (currentDegree s))
                  (currentDegree s) (numVerticesRemoved s)).
Proof.
  intros Hl Hb. unfold pick. change (getFirst (v :: b')) with (Some v). osimpl.
  erewrite deleteLink_spec; [|exact Hl|exact Hb|set_solver].
  osimpl. cbn [unlink]. by rewrite decide_True.
Qed.



(** ** Facts about a simple symmetric graph *)

Hypothesis Hgraph : simple_symmetric graph size.

Lemma graph_length : length graph = size.
Proof. apply Hgraph. Qed.

Lemma neighbours_outside v : size ≤ v → neighbours graph v = [].
Proof.
  intros Hv. unfold neighbours. rewrite lookup_ge_None_2; [done|].
  by rewrite graph_length.
Qed.

Lemma neighbours_facts v :
  NoDup (neighbours graph v) ∧ (v ∉ neighbours graph v) ∧
  ∀ u, u ∈ neighbours graph v →
       u < size ∧ v < size ∧ v ∈ neighbours graph u.
Proof.
  destruct (decide (v < size)) as [Hv|Hv].
  - destruct Hgraph as [_ Hall]. rewrite Forall_forall in Hall.
    destruct (Hall v) as (Hnd & Hirr & Hsym); [apply elem_of_seq; lia|].
    rewrite Forall_forall in Hsym. split_and!; try done.
    intros u Hu. destruct (Hsym u Hu). done.
  - rewrite neighbours_outside by lia. split_and!; [constructor|set_solver..].
Qed.

Lemma neighbours_NoDup v : NoDup (neighbours graph v).
Proof. apply neighbours_facts. Qed.

Lemma neighbours_irrefl v : v ∉ neighbours graph v.
Proof. apply neighbours_facts. Qed.

Lemma neighbours_lt u v : u ∈ neighbours graph v → u < size.
Proof.
  intros H. destruct (neighbours_facts v) as (_ & _ & Hs).
  by destruct (Hs u H).
Qed.

Lemma neighbours_sym u v :
  u ∈ neighbours graph v ↔ v ∈ neighbours graph u.
Proof.
  split; intros H.
  - destruct (neighbours_facts v) as (_ & _ & Hs). by destruct (Hs u H) as (_ & _ & ?).
  - destruct (neighbours_facts u) as (_ & _ & Hs). by destruct (Hs v H) as (_ & _ & ?).
Qed.

Lemma neighbours_lookup v : v < size → graph !! v = Some (neighbours graph v).
Proof.
  intros Hv. unfold neighbours.
  destruct (lookup_lt_is_Some_2 graph v) as [l Hl]; [by rewrite graph_length|].
  by rewrite Hl.
Qed.

(** A vertex has fewer than [size] neighbours. *)
Lemma neighbours_length v : v < size → length (neighbours graph v) < size.
Proof.
  intros Hv.
  assert (Hnd : NoDup (v :: neighbours graph v)).
  { apply NoDup_cons. split; [apply neighbours_irrefl|apply neighbours_NoDup]. }
  assert (Hsub : v :: neighbours graph v ⊆ seq 0 size).
  { intros x Hx. apply elem_of_seq. apply elem_of_cons in Hx as [->|Hx]; [lia|].
    apply neighbours_lt in Hx. lia. }
  pose proof (submseteq_length _ _ (NoDup_submseteq _ _ Hnd Hsub)) as Hlen.
  rewrite length_seq in Hlen. simpl in Hlen. lia.
Qed.

Lemma length_filter_split (P : nat → Prop) `{∀ x, Decision (P x)} v l :
  NoDup l →
  length (filter P l) =
  length (filter (λ w, P w ∧ w ≠ v) l) +
  (if decide (v ∈ l ∧ P v) then 1 else 0).
Proof.
  induction l as [|x l IH]; intros Hnd.
  - case_decide; [set_solver|done].
  - apply NoDup_cons in Hnd as [Hx Hnd]. rewrite !filter_cons.
    specialize (IH Hnd).
    destruct (decide (x = v)) as [->|Hne].
    + repeat case_decide; simpl; rewrite ?IH; try lia; set_solver.
    + repeat case_decide; simpl; rewrite ?IH; try lia; set_solver.
Qed.

(** Removing [v] lowers the current degree of exactly its neighbours. *)
Lemma live_count_snoc dead v u :
  v ∉ dead →
  live_count graph dead u =
  live_count graph (dead ++ [v]) u +
  (if decide (u ∈ neighbours graph v) then 1 else 0).
Proof.
  intros Hv. unfold live_count.
  rewrite (length_filter_split (λ w, w ∉ dead) v) by apply neighbours_NoDup.
  f_equal.
  - f_equal. apply list_filter_iff. intros w. rewrite not_elem_of_app.
    set_solver.
  - pose proof (neighbours_sym u v). repeat case_decide; naive_solver.
Qed.

(** ** The invariant of the inner loop *)

Lemma visit_dead dead u rest s :
  ScanInv dead (u :: rest) s → u ∈ dead →
  visit u s = Some s ∧ ScanInv dead rest s.
Proof.
  intros Hinv Hu. split.
  - unfold visit. by rewrite (si_dead _ _ _ Hinv u Hu).
  - destruct Hinv as [? ? ? Hd Hl Hb Hn]. split; try done.
    intros w Hw Hwd. destruct (Hl w Hw Hwd) as (b & H). exists b.
    assert (w ≠ u) by (intros ->; done).
    repeat case_decide; set_solver.
Qed.

Lemma visit_live dead u rest s :
  ScanInv dead (u :: rest) s → u < size → u ∉ dead → u ∉ rest →
  ∃ s', visit u s = Some s' ∧ ScanInv dead rest s' ∧
        degree s !! u = Some (Z.of_nat (S (live_count graph dead u))) ∧
        degeneracy s' = degeneracy s ∧
        currentDegree s' = currentDegree s ∧
        numVerticesRemoved s' = numVerticesRemoved s.
Proof.
  intros [Hlb Hll Hld Hd Hl Hb Hn] Hu Hud Hur.
  destruct (Hl u Hu Hud) as (b & Hdeg & Hloc & Hbk & Hin).
  rewrite decide_True in Hdeg, Hloc, Hbk by set_solver.
  set (c := live_count graph dead u) in *.
  replace (c + 1) with (S c) in * by lia.
  pose proof (lookup_lt_Some _ _ _ Hbk) as HSc.
  destruct (lookup_lt_is_Some_2 (verticesByDegree s) c) as [bc Hbc]; [lia|].
  assert (Hubc : u ∉ bc).
  { intros Hin'. destruct (Hb _ _ _ Hbc Hin') as (_ & _ & Hdu).
    rewrite Hdeg in Hdu. injection Hdu. lia. }
  set (bk1 := <[S c := unlink u b]> (verticesByDegree s)).
  set (s' := mkPeel (<[c := addFirst bc u]> bk1)
                    (<[u := Some c]> (vertexLocator s))
                    (<[u := Z.of_nat c]> (degree s))
                    (degeneracy s) (currentDegree s) (numVerticesRemoved s)).
  exists s'. split_and!; try done.
  - unfold visit. rewrite Hdeg. osimpl. rewrite decide_True by lia.
    rewrite (deleteLink_spec _ _ _ _ Hloc Hbk Hin). osimpl.
    rewrite write_degree_spec by (cbn; lia). osimpl.
    replace (Z.of_nat (S c) - 1)%Z with (Z.of_nat c) by lia.
    rewrite decide_True by lia.
    erewrite relink_spec; [done| |cbn; lia].
    cbn. by rewrite list_lookup_insert_ne.
  - assert (Hbk1 : ∀ d, bk1 !! d =
              if decide (d = S c) then Some (unlink u b)
              else verticesByDegree s !! d).
    { intros d. unfold bk1. case_decide; subst.
      - apply list_lookup_insert_eq. lia.
      - by apply list_lookup_insert_ne. }
    assert (Hbk' : ∀ d, verticesByDegree s' !! d =
              if decide (d = c) then Some (u :: bc)
              else if decide (d = S c) then Some (unlink u b)
              else verticesByDegree s !! d).
    { intros d. simpl. case_decide; subst.
      - apply list_lookup_insert_eq. unfold bk1. rewrite length_insert. lia.
      - rewrite list_lookup_insert_ne by done. apply Hbk1. }
    assert (Hdeg' : ∀ w, w ≠ u → degree s' !! w = degree s !! w).
    { intros w Hw. simpl. by apply list_lookup_insert_ne. }
    assert (Hdegu : degree s' !! u = Some (Z.of_nat c)).
    { simpl. apply list_lookup_insert_eq. lia. }
    split; simpl.
    + unfold bk1. by rewrite !length_insert.
    + by rewrite length_insert.
    + by rewrite length_insert.
    + intros w Hw. change (degree s' !! w = Some (-1)%Z).
      rewrite Hdeg' by (intros ->; done). auto.
    + intros w Hw Hwd. destruct (decide (w = u)) as [->|Hne].
      * exists (u :: bc). rewrite decide_False by done.
        rewrite Nat.add_0_r. fold c. split_and!.
        -- apply Hdegu.
        -- apply list_lookup_insert_eq. lia.
        -- change (verticesByDegree s' !! c = Some (u :: bc)).
           rewrite Hbk'. by rewrite decide_True.
        -- set_solver.
      * destruct (Hl w Hw Hwd) as (bw & Hdw & Hlw & Hbw & Hinw).
        assert (Heq : (if decide (w ∈ u :: rest) then 1 else 0) =
                      (if decide (w ∈ rest) then 1 else 0)).
        { repeat case_decide; set_solver. }
        rewrite Heq in Hdw, Hlw, Hbw.
        set (d := live_count graph dead w +
                  (if decide (w ∈ rest) then 1 else 0)) in *.
        pose proof (Hbk' d) as Hd'.
        destruct (decide (d = c)) as [Hdc|Hdc];
          [|destruct (decide (d = S c)) as [Hds|Hds]].
        -- exists (u :: bc). split_and!.
           ++ by rewrite <- Hdw; apply Hdeg'.
           ++ rewrite <- Hlw. by apply list_lookup_insert_ne.
           ++ apply Hd'.
           ++ rewrite Hdc, Hbc in Hbw. set_solver.
        -- exists (unlink u b). split_and!.
           ++ by rewrite <- Hdw; apply Hdeg'.
           ++ rewrite <- Hlw. by apply list_lookup_insert_ne.
           ++ apply Hd'.
           ++ rewrite Hds, Hbk in Hbw. apply unlink_elem_of; [by eapply Hn|].
              set_solver.
        -- exists bw. split_and!.
           ++ by rewrite <- Hdw; apply Hdeg'.
           ++ rewrite <- Hlw. by apply list_lookup_insert_ne.
           ++ by rewrite <- Hbw.
           ++ done.
    + intros d bd w Hbd Hw. change (verticesByDegree s' !! d = Some bd) in Hbd.
      change (w < size ∧ (w ∉ dead) ∧ degree s' !! w = Some (Z.of_nat d)).
      rewrite Hbk' in Hbd.
      destruct (decide (d = c)) as [->|Hdc];
        [|destruct (decide (d = S c)) as [->|Hds]].
      * injection Hbd as <-. apply elem_of_cons in Hw as [->|Hw]; [done|].
        destruct (Hb _ _ _ Hbc Hw) as (? & ? & ?).
        rewrite Hdeg'; [done|]. intros ->. done.
      * injection Hbd as <-.
        apply unlink_elem_of in Hw as [Hw Hne]; [|by eapply Hn].
        destruct (Hb _ _ _ Hbk Hw) as (? & ? & ?). by rewrite Hdeg'.
      * destruct (Hb _ _ _ Hbd Hw) as (? & ? & Hdw).
        rewrite Hdeg'; [done|]. intros ->. rewrite Hdeg in Hdw.
        injection Hdw. lia.
    + intros d bd Hbd. change (verticesByDegree s' !! d = Some bd) in Hbd.
      rewrite Hbk' in Hbd. repeat case_decide; simplify_eq.
      * apply NoDup_cons. split; [done|]. by eapply Hn.
      * apply NoDup_unlink. by eapply Hn.
      * by eapply Hn.
Qed.

(** The inner loop of the ordering routines runs the inner loop of
    [computeDegeneracy] and files each neighbour under [later] or
    [earlier] by the mark it finds. *)
Lemma visitOrder_unfold v u s o :
  visitOrder v u (s, o) =
  dn ← degree s !! u;
  s' ← visit u s;
  o' ← (if decide (dn ≠ (-1)%Z) then push_later v u o
        else push_earlier v u o);
  Some (s', o').
Proof.
  unfold visitOrder, visit. destruct (degree s !! u) as [dn|]; [|done].
  osimpl. case_decide; [|done].
  destruct (deleteLink u s) as [s1|]; [|done]. osimpl.
  destruct (push_later v u o) as [o1|]; osimpl;
    destruct (write_degree u (dn - 1) s1) as [s2|]; osimpl; try done;
    case_decide; try done; by destruct (relink (dn - 1) u s2).
Qed.

Lemma filed_nil dead r : filed dead [] r = r.
Proof. destruct r. unfold filed. simpl. by rewrite !app_nil_r. Qed.

Lemma scanOrder_spec dead v rest : ∀ s o r,
  ScanInv dead rest s → NoDup rest → (∀ u, u ∈ rest → u < size) →
  o !! v = Some r →
  ∃ s', scan rest s = Some s' ∧
        scanOrder v rest (s, o) = Some (s', <[v := filed dead rest r]> o) ∧
        ScanInv dead [] s' ∧
        degeneracy s' = degeneracy s ∧
        currentDegree s' = currentDegree s ∧
        numVerticesRemoved s' = numVerticesRemoved s.
Proof.
  induction rest as [|u rest IH]; intros s o r Hinv Hnd Hlt Hr.
  - exists s. rewrite filed_nil, list_insert_id by done. done.
  - apply NoDup_cons in Hnd as [Hu Hnd].
    assert (Hv : v < length o) by by eapply lookup_lt_Some.
    assert (Hlt' : ∀ w, w ∈ rest → w < size) by set_solver.
    cbn [scan scanOrder]. rewrite visitOrder_unfold.
    destruct (decide (u ∈ dead)) as [Hd|Hd].
    + destruct (visit_dead _ _ _ _ Hinv Hd) as [Hvis Hinv'].
      rewrite (si_dead _ _ _ Hinv u Hd), Hvis. osimpl.
      rewrite decide_False by (intros H; by apply H).
      unfold push_earlier. rewrite Hr. osimpl.
      match goal with
      | |- context [scanOrder v rest (_, <[v := ?x]> o)] =>
          destruct (IH s _ _ Hinv' Hnd Hlt' (list_lookup_insert_eq o v x Hv))
            as (s' & Hs & Hso & ?)
      end.
      exists s'. split; [done|]. split; [|done].
      rewrite Hso, list_insert_insert_eq. do 2 f_equal.
      unfold filed, addLast. cbn [nl_vertex nl_orderNumber nl_earlier nl_later].
      rewrite !filter_cons, decide_True, decide_False by tauto.
      by rewrite <- app_assoc.
    + destruct (visit_live _ _ _ _ Hinv) as (s1 & Hvis & Hinv' & Hdeg & E1 & E2 & E3);
        [set_solver..|].
      rewrite Hdeg, Hvis. osimpl. rewrite decide_True by lia.
      unfold push_later. rewrite Hr. osimpl.
      match goal with
      | |- context [scanOrder v rest (_, <[v := ?x]> o)] =>
          destruct (IH s1 _ _ Hinv' Hnd Hlt' (list_lookup_insert_eq o v x Hv))
            as (s' & Hs & Hso & ? & ? & ? & ?)
      end.
      exists s'. split; [done|]. split; [|split_and!; congruence].
      rewrite Hso, list_insert_insert_eq. do 2 f_equal.
      unfold filed, addLast. cbn [nl_vertex nl_orderNumber nl_earlier nl_later].
      rewrite !filter_cons, decide_False, decide_True by tauto.
      by rewrite <- app_assoc.
Qed.

(** ** The invariant of the peeling loop *)

Lemma Inv_order_lt order s : Inv order s → ∀ v, v ∈ order → v < size.
Proof.
  intros [Hs _ _ _] v Hv. rewrite <- (si_degree _ _ _ Hs).
  eapply lookup_lt_Some, (si_dead _ _ _ Hs), Hv.
Qed.

Lemma exists_live (order : list nat) :
  NoDup order → length order < size → ∃ u, u < size ∧ u ∉ order.
Proof.
  intros Hnd Hlen.
  destruct (decide (Forall (λ u, u ∈ order) (seq 0 size))) as [Hall|Hex].
  - rewrite Forall_forall in Hall.
    pose proof (submseteq_length _ _
                  (NoDup_submseteq _ _ (NoDup_seq 0 size) Hall)) as Hle.
    rewrite length_seq in Hle. lia.
  - apply not_Forall_Exists in Hex; [|apply _].
    apply Exists_exists in Hex as (u & Hu & Hnot).
    apply elem_of_seq in Hu. exists u. split; [lia|done].
Qed.

(** A live vertex is filed at its current degree, at or above the
    cursor. *)
Lemma Inv_live order s u :
  Inv order s → u < size → u ∉ order →
  degree s !! u = Some (Z.of_nat (live_count graph order u)) ∧
  currentDegree s ≤ live_count graph order u < size.
Proof.
  intros [Hs _ _ Hcur] Hu Hlive.
  destruct (si_live _ _ _ Hs u Hu Hlive) as (b & Hd & _ & Hb & Hin).
  rewrite decide_False, Nat.add_0_r in Hd, Hb by set_solver.
  split; [done|]. split.
  - destruct (decide (currentDegree s ≤ live_count graph order u)); [done|].
    rewrite (Hcur (live_count graph order u) b) in Hin by (done || lia).
    set_solver.
  - rewrite <- (si_buckets _ _ _ Hs). by eapply lookup_lt_Some.
Qed.

Lemma Inv_cursor_lt order s :
  Inv order s → numVerticesRemoved s < size → currentDegree s < size.
Proof.
  intros Hinv Hlt. destruct (exists_live order) as (u & Hu & Hlive).
  { apply Hinv. } { rewrite <- (inv_removed _ _ Hinv). done. }
  destruct (Inv_live _ _ _ Hinv Hu Hlive). lia.
Qed.

(** An empty bucket under the cursor: the cursor moves up. *)
Lemma stepOrder_advance order s o :
  Inv order s →
  verticesByDegree s !! currentDegree s = Some [] →
  let s' := set_cursor (currentDegree s + 1) (numVerticesRemoved s) s in
  stepOrder graph (s, o) = Some (s', o) ∧ Inv order s'.
Proof.
  intros Hinv Hb. split.
  - unfold stepOrder. rewrite Hb. done.
  - destruct Hinv as [[] ? ? Hcur]. split; [split|..]; try done.
    intros d b Hd Hdb. cbn in Hd, Hdb.
    destruct (decide (d = currentDegree s)) as [->|]; [congruence|].
    apply (Hcur d); [lia|done].
Qed.

(** A vertex under the cursor: it is removed. *)
Lemma stepOrder_remove order s o v b' :
  Inv order s → length o = size →
  verticesByDegree s !! currentDegree s = Some (v :: b') →
  ∃ s' r,
    o !! v = Some r ∧
    stepOrder graph (s, o) =
      Some (s', <[v := filed (order ++ [v]) (neighbours graph v)
                         (mkNeighborList (Some v) (Some (length order))
                                         (nl_earlier r) (nl_later r))]> o) ∧
    Inv (order ++ [v]) s' ∧
    v < size ∧ (v ∉ order) ∧
    live_count graph order v = currentDegree s ∧
    degeneracy s' = Nat.max (degeneracy s) (currentDegree s) ∧
    currentDegree s' = 0.
Proof.
  intros Hinv Hlen Hb. pose proof Hinv as [Hs Hnd Hrem Hcur].
  pose proof Hs as [Hlb Hll Hld Hd Hl Hbk Hn].
  destruct (Hbk _ _ v Hb) as (Hv & Hlive & Hdeg); [set_solver|].
  destruct (Hl v Hv Hlive) as (b & Hdeg' & Hloc & _).
  rewrite decide_False, Nat.add_0_r in Hdeg', Hloc by set_solver.
  assert (Hlc : live_count graph order v = currentDegree s).
  { rewrite Hdeg in Hdeg'. injection Hdeg'. lia. }
  rewrite Hlc in Hloc. clear b Hdeg'.
  destruct (lookup_lt_is_Some_2 o v) as [r Hr]; [lia|].
  pose proof (lookup_lt_Some _ _ _ Hb) as Hc.
  pose proof (Hn _ _ Hb) as Hndb. apply NoDup_cons in Hndb as [Hvb Hndb].
  set (r1 := mkNeighborList (Some v) (Some (length order))
                            (nl_earlier r) (nl_later r)).
  set (s2 := mkPeel (<[currentDegree s := b']> (verticesByDegree s))
                    (vertexLocator s) (<[v := (-1)%Z]> (degree s))
                    (Nat.max (degeneracy s) (currentDegree s))
                    (currentDegree s) (numVerticesRemoved s)).
  assert (Hbk2 : ∀ d, verticesByDegree s2 !! d =
            if decide (d = currentDegree s) then Some b'
            else verticesByDegree s !! d).
  { intros d. simpl. case_decide; subst.
    - by apply list_lookup_insert_eq.
    - by apply list_lookup_insert_ne. }
  assert (Hdeg2 : ∀ w, w ≠ v → degree s2 !! w = degree s !! w).
  { intros w Hw. simpl. by apply list_lookup_insert_ne. }
  assert (Hs2 : ScanInv (order ++ [v]) (neighbours graph v) s2).
  { split.
    - simpl. by rewrite length_insert.
    - done.
    - simpl. by rewrite length_insert.
    - intros u Hu. apply elem_of_app in Hu as [Hu|Hu].
      + rewrite Hdeg2 by (intros ->; done). auto.
      + apply list_elem_of_singleton in Hu as ->. simpl.
        apply list_lookup_insert_eq. lia.
    - intros u Hu Hul. apply not_elem_of_app in Hul as [Hul Huv].
      rewrite list_elem_of_singleton in Huv.
      destruct (Hl u Hu Hul) as (b & Hdu & Hlu & Hbu & Hin).
      rewrite decide_False, Nat.add_0_r in Hdu, Hlu, Hbu by set_solver.
      rewrite (live_count_snoc order v u Hlive) in Hdu, Hlu, Hbu.
      set (d := live_count graph (order ++ [v]) u +
                (if decide (u ∈ neighbours graph v) then 1 else 0)) in *.
      pose proof (Hbk2 d) as Hd2.
      destruct (decide (d = currentDegree s)) as [Hcase|Hcase].
      + exists b'. rewrite Hdeg2 by done. split_and!; try done.
        rewrite Hcase, Hb in Hbu. set_solver.
      + exists b. rewrite Hdeg2 by done. split_and!; try done. congruence.
    - intros d bd u Hbd Hu. rewrite Hbk2 in Hbd. case_decide as Hcase.
      + injection Hbd as <-. subst d.
        destruct (Hbk _ _ u Hb) as (? & ? & ?); [set_solver|].
        assert (u ≠ v) by (intros ->; done).
        rewrite Hdeg2 by done. split_and!; try done.
        rewrite not_elem_of_app, list_elem_of_singleton. done.
      + destruct (Hbk _ _ u Hbd Hu) as (? & ? & Hdu).
        assert (u ≠ v).
        { intros ->. rewrite Hdeg in Hdu. injection Hdu. lia. }
        rewrite Hdeg2 by done. split_and!; try done.
        rewrite not_elem_of_app, list_elem_of_singleton. done.
    - intros d bd Hbd. rewrite Hbk2 in Hbd. case_decide.
      + by injection Hbd as <-.
      + by eapply Hn. }
  destruct (scanOrder_spec (order ++ [v]) v (neighbours graph v) s2
              (<[v := r1]> o) r1 Hs2)
    as (s3 & _ & Hso & Hs3 & E1 & E2 & E3).
  { apply neighbours_NoDup. }
  { intros u. apply neighbours_lt. }
  { apply list_lookup_insert_eq. lia. }
  exists (set_cursor 0 (numVerticesRemoved s3 + 1) s3), r.
  split_and!; try done.
  - unfold stepOrder. rewrite Hb. osimpl.
    change (isEmpty (v :: b')) with false. cbv iota.
    rewrite (pick_spec _ _ _ Hloc Hb). osimpl.
    unfold set_rank. rewrite Hr. osimpl.
    rewrite write_degree_spec by (cbn; lia). osimpl.
    rewrite neighbours_lookup by done. osimpl.
    cbn [verticesByDegree vertexLocator degree degeneracy currentDegree
         numVerticesRemoved].
    replace (Some (numVerticesRemoved s)) with (Some (length order))
      by (by rewrite Hrem).
    fold r1. fold s2. rewrite Hso. osimpl.
    by rewrite list_insert_insert_eq.
  - split.
    + destruct Hs3. split; done.
    + apply NoDup_app. split_and!; [done| |apply NoDup_singleton].
      intros x Hx. rewrite list_elem_of_singleton. intros ->. done.
    + simpl. rewrite E3, length_app. simpl. rewrite Hrem. lia.
    + simpl. intros; lia.
Qed.

(** ** The initial state *)

Lemma fill_spec k : ∀ i s,
  i + k = size → FillInv i s →
  ∃ s', fill graph (seq i k) s = Some s' ∧ FillInv size s'.
Proof.
  induction k as [|k IH]; intros i s Hik Hinv.
  - exists s. replace size with i by lia. done.
  - destruct Hinv as [Hlb Hll Hld Hf Hb Hn Hc].
    cbn [seq fill]. rewrite neighbours_lookup by lia. osimpl.
    set (d := length (neighbours graph i)).
    assert (Hd : d < size) by (apply neighbours_length; lia).
    destruct (lookup_lt_is_Some_2 (verticesByDegree s) d) as [bd Hbd]; [lia|].
    rewrite write_degree_spec by lia. osimpl.
    erewrite relink_spec; [|exact Hbd|cbn; lia]. osimpl.
    cbn [verticesByDegree vertexLocator degree degeneracy currentDegree
         numVerticesRemoved].
    apply IH; [lia|].
    assert (Hid : i ∉ bd).
    { intros Hin. destruct (Hb _ _ _ Hbd Hin). lia. }
    split; cbn [verticesByDegree vertexLocator degree degeneracy
                currentDegree numVerticesRemoved];
      rewrite ?length_insert; try done.
    + intros u Hu. destruct (decide (u = i)) as [->|Hne].
      * exists (i :: bd). fold d. cbv zeta.
        rewrite !list_lookup_insert_eq by lia. split_and!; try done.
        set_solver.
      * destruct (Hf u) as (b & H1 & H2 & H3 & H4); [lia|].
        cbv zeta in *. rewrite !(list_lookup_insert_ne _ i u) by done.
        destruct (decide (length (neighbours graph u) = d)) as [Heq|Hneq].
        -- exists (i :: bd). rewrite Heq in *.
           rewrite list_lookup_insert_eq by lia. split_and!; try done.
           rewrite Hbd in H3. set_solver.
        -- exists b. rewrite list_lookup_insert_ne by done. done.
    + intros d' b u Hb' Hu.
      destruct (decide (d' = d)) as [->|Hneq].
      * rewrite list_lookup_insert_eq in Hb' by lia. injection Hb' as <-.
        apply elem_of_cons in Hu as [->|Hu].
        -- split; [lia|]. apply list_lookup_insert_eq. lia.
        -- destruct (Hb _ _ _ Hbd Hu). split; [lia|].
           rewrite list_lookup_insert_ne by lia. done.
      * rewrite list_lookup_insert_ne in Hb' by done.
        destruct (Hb _ _ _ Hb' Hu). split; [lia|].
        rewrite list_lookup_insert_ne by lia. done.
    + intros d' b Hb'.
      destruct (decide (d' = d)) as [->|Hneq].
      * rewrite list_lookup_insert_eq in Hb' by lia. injection Hb' as <-.
        apply NoDup_cons. split; [done|]. by eapply Hn.
      * rewrite list_lookup_insert_ne in Hb' by done. by eapply Hn.
Qed.

Lemma initialise_spec :
  ∃ s0, initialise graph size = Some s0 ∧ Inv [] s0 ∧
        degeneracy s0 = 0 ∧ currentDegree s0 = 0.
Proof.
  destruct (fill_spec size 0 (allocate size)) as (s0 & Hfill & Hinv);
    [done| |].
  { split; cbn; rewrite ?length_replicate; try done.
    - intros; lia.
    - intros d b u Hb Hu. apply lookup_replicate in Hb as [-> _].
      set_solver.
    - intros d b Hb. apply lookup_replicate in Hb as [-> _]. constructor. }
  exists s0. destruct Hinv as [Hlb Hll Hld Hf Hb Hn (Hc1 & Hc2 & Hc3)].
  split_and!; try done. split; [split|..]; try done.
  - set_solver.
  - intros u Hu _. destruct (Hf u Hu) as (b & H). exists b.
    unfold live_count. rewrite decide_False, Nat.add_0_r by set_solver.
    replace (filter (λ w, w ∉ []) (neighbours graph u))
      with (neighbours graph u); [done|].
    symmetry. apply filter_all. set_solver.
  - intros d b u Hdb Hu. destruct (Hb _ _ _ Hdb Hu). split_and!; try done.
    set_solver.
  - constructor.
  - intros d b Hd. lia.
Qed.

(** ** The three copies of the loop run in lock step *)

Lemma visitOrder_visit v u s o s' o' :
  visitOrder v u (s, o) = Some (s', o') → visit u s = Some s'.
Proof.
  rewrite visitOrder_unfold. intros H.
  apply bind_Some in H as (dn & _ & H).
  apply bind_Some in H as (s1 & Hs1 & H).
  apply bind_Some in H as (o1 & _ & H). congruence.
Qed.

Lemma scanOrder_scan v nbrs : ∀ s o s' o',
  scanOrder v nbrs (s, o) = Some (s', o') → scan nbrs s = Some s'.
Proof.
  induction nbrs as [|u nbrs IH]; intros s o s' o'; cbn [scan scanOrder].
  - congruence.
  - intros H. apply bind_Some in H as ([s1 o1] & Hv & H).
    rewrite (visitOrder_visit _ _ _ _ _ _ Hv). osimpl. eauto.
Qed.

Lemma stepOrder_step s o s' o' :
  stepOrder graph (s, o) = Some (s', o') → step graph s = Some s'.
Proof.
  unfold stepOrder, step. intros H.
  apply bind_Some in H as (b & Hb & H). rewrite Hb. osimpl.
  destruct (isEmpty b); [congruence|].
  apply bind_Some in H as ([v s1] & Hp & H). rewrite Hp. osimpl.
  apply bind_Some in H as (o1 & _ & H).
  apply bind_Some in H as (s2 & Hw & H). rewrite Hw. osimpl.
  apply bind_Some in H as (nl & Hnl & H). rewrite Hnl. osimpl.
  apply bind_Some in H as ([s3 o3] & Hsc & H).
  rewrite (scanOrder_scan _ _ _ _ _ _ Hsc). osimpl. congruence.
Qed.

Lemma visitSorted_unfold v u (st : OrderState) vm :
  visitSorted v u (st, vm) = (λ st', (st', vm)) <$> visitOrder v u st.
Proof.
  destruct st as [s o]. unfold visitSorted, visitOrder.
  destruct (degree s !! u) as [dn|]; [|done]. osimpl.
  case_decide.
  - destruct (deleteLink u s) as [s1|]; [|done]. osimpl.
    destruct (push_later v u o) as [o1|]; [|done]. osimpl.
    destruct (write_degree u (dn - 1) s1) as [s2|]; [|done]. osimpl.
    case_decide; [|done]. by destruct (relink (dn - 1) u s2).
  - by destruct (push_earlier v u o).
Qed.

Lemma scanSorted_unfold v nbrs : ∀ (st : OrderState) vm,
  scanSorted v nbrs (st, vm) = (λ st', (st', vm)) <$> scanOrder v nbrs st.
Proof.
  induction nbrs as [|u nbrs IH]; intros st vm; cbn [scanSorted scanOrder].
  - done.
  - rewrite visitSorted_unfold.
    destruct (visitOrder v u st) as [st1|]; [|done]. osimpl. apply IH.
Qed.

Lemma pick_inv b s v s1 :
  pick b s = Some (v, s1) →
  head b = Some v ∧ numVerticesRemoved s1 = numVerticesRemoved s.
Proof.
  unfold pick, getFirst. intros H.
  apply bind_Some in H as (v' & Hh & H).
  apply bind_Some in H as (s' & Hd & H). injection H as -> ->.
  split; [done|]. unfold deleteLink in Hd.
  apply bind_Some in Hd as (d & _ & Hd).
  apply bind_Some in Hd as (bd & _ & Hd).
  case_decide; [|done]. by injection Hd as <-.
Qed.

Lemma stepSorted_unfold (st : OrderState) vm :
  stepSorted graph (st, vm) =
  vm' ← mapped st.1 vm; st' ← stepOrder graph st; Some (st', vm').
Proof.
  destruct st as [s o]. unfold stepSorted, stepOrder, mapped. cbn [fst].
  destruct (verticesByDegree s !! currentDegree s) as [b|]; [|done]. osimpl.
  destruct b as [|v0 b]; [done|].
  change (isEmpty (v0 :: b)) with false. cbv iota.
  destruct (pick (v0 :: b) s) as [[v s1]|] eqn:Hp.
  - destruct (pick_inv _ _ _ _ Hp) as [[= ->] Hrem]. osimpl. rewrite Hrem.
    destruct (store vm v (numVerticesRemoved s)) as [vm1|]; osimpl.
    + destruct (set_rank v (numVerticesRemoved s) o) as [o1|]; [|done]. osimpl.
      destruct (write_degree v (-1) s1) as [s2|]; [|done]. osimpl.
      destruct (graph !! v) as [nl|]; [|done]. osimpl.
      rewrite (scanSorted_unfold v nl (s2, o1) vm1).
      by destruct (scanOrder v nl (s2, o1)) as [[s3 o3]|].
    + by destruct (set_rank v (numVerticesRemoved s) o).
  - osimpl. by destruct (store vm v0 (numVerticesRemoved s)).
Qed.

Lemma stepSorted_stepOrder (st st' : SortedState) :
  stepSorted graph st = Some st' → stepOrder graph st.1 = Some st'.1.
Proof.
  destruct st as [st vm]. rewrite stepSorted_unfold. intros H.
  apply bind_Some in H as (vm' & _ & H).
  apply bind_Some in H as (st1 & Hst & H). injection H as <-. done.
Qed.

(** ** The invariant of the whole state *)

Lemma live_count_self order v :
  v ∉ order → live_count graph (order ++ [v]) v = live_count graph order v.
Proof.
  intros Hv. rewrite (live_count_snoc order v v Hv).
  rewrite decide_False by apply neighbours_irrefl. lia.
Qed.

Lemma stepSorted_extends order (st : SortedState) :
  SInv order st → numVerticesRemoved st.1.1 < size →
  ∃ st' b,
    verticesByDegree st.1.1 !! currentDegree st.1.1 = Some b ∧
    stepSorted graph st = Some st' ∧
    SInv (order ++ match b with [] => [] | v :: _ => [v] end) st' ∧
    remaining st'.1.1 < remaining st.1.1.
Proof.
  destruct st as [[s o] vm]. cbn [fst snd].
  intros [Hinv Hlen Hlive Hdead Hvl Hvm Hle Hmax] Hlt. cbn [fst snd] in *.
  pose proof (Inv_cursor_lt _ _ Hinv Hlt) as Hcur.
  destruct (lookup_lt_is_Some_2 (verticesByDegree s) (currentDegree s))
    as [b Hb].
  { by rewrite (si_buckets _ _ _ (inv_scan _ _ Hinv)). }
  rewrite (stepSorted_unfold (s, o) vm). unfold mapped. cbn [fst].
  rewrite Hb. osimpl. destruct b as [|v b'].
  - destruct (stepOrder_advance order s o Hinv Hb) as [Hstep Hinv'].
    rewrite Hstep. osimpl. eexists _, []. split; [done|]. split; [done|].
    rewrite app_nil_r. split.
    + split; done.
    + unfold remaining. cbn. lia.
  - destruct (stepOrder_remove order s o v b' Hinv Hlen Hb)
      as (s' & r & Hr & Hstep & Hinv' & Hv & Hvo & Hlc & Hdeg & Hc0).
    rewrite store_is_Some by lia. osimpl. rewrite Hstep. osimpl.
    eexists _, (v :: b'). split; [done|]. split; [done|].
    rewrite (Hlive v Hv Hvo) in Hr. injection Hr as <-.
    assert (Hsnoc : ∀ k w, (order ++ [v]) !! k = Some w →
              (k < length order ∧ order !! k = Some w ∧ w ≠ v ∧
               take (S k) (order ++ [v]) = take (S k) order) ∨
              (k = length order ∧ w = v ∧
               take (S k) (order ++ [v]) = order ++ [v])).
    { intros k w Hk. apply lookup_snoc_Some in Hk as [[Hk Hw]|[-> <-]].
      - left. split_and!; try done.
        + intros ->. apply Hvo. by eapply list_elem_of_lookup_2.
        + apply take_app_le. lia.
      - right. split_and!; try done. apply take_ge.
        rewrite length_app. simpl. lia. }
    split; [split|]; cbn [fst snd]; rewrite ?length_insert; try done.
    + intros w Hw Hwo. apply not_elem_of_app in Hwo as [Hwo Hwv].
      rewrite list_elem_of_singleton in Hwv.
      rewrite list_lookup_insert_ne by done. auto.
    + intros k w Hk.
      destruct (Hsnoc k w Hk) as [(? & Hk' & ? & Ht)|(-> & -> & Ht)].
      * rewrite list_lookup_insert_ne by done. unfold record_of.
        rewrite Ht. by apply Hdead.
      * rewrite list_lookup_insert_eq by lia. unfold record_of, filed.
        rewrite Ht. done.
    + intros k w Hk.
      destruct (Hsnoc k w Hk) as [(? & Hk' & ? & Ht)|(-> & -> & Ht)].
      * rewrite list_lookup_insert_ne by done. auto.
      * rewrite list_lookup_insert_eq by lia.
        by rewrite (inv_removed _ _ Hinv).
    + intros k w Hk. rewrite Hdeg.
      destruct (Hsnoc k w Hk) as [(? & Hk' & ? & Ht)|(-> & -> & Ht)];
        rewrite Ht.
      * specialize (Hle k w Hk'). lia.
      * rewrite live_count_self by done. lia.
    + rewrite Hdeg.
      destruct (decide (currentDegree s ≤ degeneracy s)) as [Hc|Hc].
      * rewrite Nat.max_l by done. destruct Hmax as [?|(k & w & Hk & Hw)];
          [by left|right].
        exists k, w. pose proof (lookup_lt_Some _ _ _ Hk).
        rewrite lookup_app_l, take_app_le by lia. done.
      * right. exists (length order), v. rewrite Nat.max_r by lia.
        rewrite list_lookup_middle by done. rewrite take_ge.
        -- rewrite live_count_self by done. done.
        -- rewrite length_app. simpl. lia.
    + pose proof (inv_removed _ _ Hinv') as Hr'.
      pose proof (inv_scan _ _ Hinv') as Hs'.
      unfold remaining.
      rewrite Hc0, Hr', length_app, <- (inv_removed _ _ Hinv). simpl.
      set (a := size - (numVerticesRemoved s + 1)).
      replace (size - numVerticesRemoved s) with (S a) by lia.
      simpl. lia.
Qed.

Lemma stepSorted_spec order (st : SortedState) :
  SInv order st → numVerticesRemoved st.1.1 < size →
  ∃ st' order', stepSorted graph st = Some st' ∧ SInv order' st' ∧
                remaining st'.1.1 < remaining st.1.1.
Proof.
  intros Hs Hlt.
  destruct (stepSorted_extends order st Hs Hlt)
    as (st' & b & _ & Hstep & Hinv & Hrem).
  eauto.
Qed.

(** ** The run of the loop *)

Lemma remaining_initial s0 :
  numVerticesRemoved s0 = 0 → currentDegree s0 = 0 →
  remaining s0 = iterations size.
Proof. intros H1 H2. unfold remaining, iterations. rewrite H1, H2. lia. Qed.

Lemma SInv_initial s0 :
  Inv [] s0 → degeneracy s0 = 0 →
  SInv [] (s0, allocateOrdering size, replicate size 0).
Proof.
  intros Hinv Hd. unfold allocateOrdering.
  split; cbn [fst snd]; rewrite ?length_replicate; try done.
  - intros v Hv _. by apply lookup_replicate_2.
  - by left.
Qed.

Lemma order_full (order : list nat) :
  NoDup order → (∀ v, v ∈ order → v < size) → length order = size →
  ∀ v, v < size → v ∈ order.
Proof.
  intros Hnd Hlt Hlen v Hv. destruct (decide (v ∈ order)) as [|Hn]; [done|].
  assert (Hnd' : NoDup (v :: order)) by by apply NoDup_cons.
  assert (Hsub : ∀ x, x ∈ v :: order → x ∈ seq 0 size).
  { intros x Hx. apply elem_of_seq. apply elem_of_cons in Hx as [->|Hx]; [lia|].
    apply Hlt in Hx. lia. }
  pose proof (submseteq_length _ _ (NoDup_submseteq _ _ Hnd' Hsub)) as Hle.
  rewrite length_seq in Hle. simpl in Hle. lia.
Qed.

Lemma order_length (order : list nat) :
  NoDup order → (∀ v, v ∈ order → v < size) → length order ≤ size.
Proof.
  intros Hnd Hlt.
  assert (Hsub : ∀ x, x ∈ order → x ∈ seq 0 size).
  { intros x Hx. apply elem_of_seq. apply Hlt in Hx. lia. }
  pose proof (submseteq_length _ _ (NoDup_submseteq _ _ Hnd Hsub)) as Hle.
  by rewrite length_seq in Hle.
Qed.

(** The sorted routine's loop ends, with every vertex removed. *)
Lemma loopSorted_spec fuel :
  iterations size ≤ fuel →
  ∃ s0 st order,
    initialise graph size = Some s0 ∧
    loopSorted fuel graph size (s0, allocateOrdering size, replicate size 0)
      = Some st ∧
    SInv order st ∧ length order = size ∧
    (∀ v, v < size ↔ v ∈ order).
Proof.
  intros Hfuel.
  destruct initialise_spec as (s0 & Hinit & Hinv0 & Hd0 & Hc0).
  destruct (while_invariant
              (λ st : SortedState, running size st.1.1) (stepSorted graph)
              (λ st, ∃ order, SInv order st) (λ st, remaining st.1.1))
    with (fuel := fuel) (s := (s0, allocateOrdering size, replicate size 0))
    as (st & Hloop & [order Hinv] & Hend & _).
  - intros st [order Hinv] Hc. apply bool_decide_eq_true in Hc.
    destruct (stepSorted_spec order st Hinv Hc) as (st' & order' & ? & ? & ?).
    eauto.
  - exists []. by apply SInv_initial.
  - cbn [fst]. rewrite remaining_initial; [done| |done].
    by rewrite (inv_removed _ _ Hinv0).
  - exists s0, st, order. split_and!; try done.
    + apply bool_decide_eq_false in Hend.
      pose proof (sv_peel _ _ Hinv) as Hp.
      pose proof (order_length order (inv_nodup _ _ Hp) (Inv_order_lt _ _ Hp)).
      rewrite (inv_removed _ _ Hp) in Hend. lia.
    + pose proof (sv_peel _ _ Hinv) as Hp. intros v. split.
      * apply order_full; [apply Hp|apply (Inv_order_lt _ _ Hp)|].
        apply bool_decide_eq_false in Hend.
        pose proof (order_length order (inv_nodup _ _ Hp)
                      (Inv_order_lt _ _ Hp)).
        rewrite (inv_removed _ _ Hp) in Hend. lia.
      * apply (Inv_order_lt _ _ Hp).
Qed.

Lemma loopSorted_loopOrder fuel (st st' : SortedState) :
  loopSorted fuel graph size st = Some st' →
  loopOrder fuel graph size st.1 = Some st'.1.
Proof.
  apply (while_project fst); [done|]. apply stepSorted_stepOrder.
Qed.

Lemma loopOrder_loop fuel (st st' : OrderState) :
  loopOrder fuel graph size st = Some st' →
  loop fuel graph size st.1 = Some st'.1.
Proof.
  apply (while_project fst); [done|].
  intros [s o] [s' o']. apply stepOrder_step.
Qed.

(** ** The returned arrays *)

Lemma removal_order_lookup order v :
  removal_order order → v < size → ∃ k, k < size ∧ order !! k = Some v.
Proof.
  intros (_ & Hlen & Hall) Hv. apply Hall, list_elem_of_lookup in Hv as [k Hk].
  exists k. split; [|done]. rewrite <- Hlen. by eapply lookup_lt_Some.
Qed.

Lemma removal_order_inj order k k' v :
  removal_order order → order !! k = Some v → order !! k' = Some v → k = k'.
Proof. intros (Hnd & _) Hk Hk'. by eapply (proj1 (NoDup_alt order)). Qed.

Lemma toArray_spec (o : list NeighborList) order :
  removal_order order →
  (∀ k v, order !! k = Some v → o !! v = Some (record_of order k v)) →
  ∃ arr, mapM (λ i, r ← o !! i; toArray r) (seq 0 size) = Some arr ∧
         length arr = size ∧
         ∀ k v, order !! k = Some v → arr !! v = Some (array_of order k v).
Proof.
  intros Hord Hdead.
  assert (Hf : ∀ k v, order !! k = Some v →
               (r ← o !! v; toArray r) = Some (array_of order k v)).
  { intros k v Hk. by rewrite (Hdead k v Hk). }
  destruct (mapM (λ i, r ← o !! i; toArray r) (seq 0 size)) as [arr|] eqn:Hm.
  - exists arr. split; [done|]. apply mapM_Some in Hm.
    pose proof (Forall2_length _ _ _ Hm) as Hlen. rewrite length_seq in Hlen.
    split; [done|]. intros k v Hk.
    assert (Hv : v < size).
    { apply Hord. by eapply list_elem_of_lookup_2. }
    destruct (Forall2_lookup_l _ _ _ v v Hm) as (y & Hy & Hfy).
    { apply lookup_seq. done. }
    rewrite (Hf k v Hk) in Hfy. congruence.
  - exfalso. apply eq_None_not_Some in Hm. apply Hm, mapM_is_Some.
    apply Forall_forall. intros v Hv. apply elem_of_seq in Hv.
    destruct (removal_order_lookup order v Hord) as (k & _ & Hk); [lia|].
    cbn. rewrite (Hf k v Hk). done.
Qed.

(** What the three routines return, in terms of one removal sequence. *)
Lemma peeling_spec fuel :
  iterations size ≤ fuel →
  ∃ order s0 s o vm,
    removal_order order ∧
    initialise graph size = Some s0 ∧
    loopSorted fuel graph size (s0, allocateOrdering size, replicate size 0)
      = Some (s, o, vm) ∧
    loopOrder fuel graph size (s0, allocateOrdering size) = Some (s, o) ∧
    loop fuel graph size s0 = Some s ∧
    SInv order (s, o, vm) ∧ numVerticesRemoved s = size.
Proof.
  intros Hfuel.
  destruct (loopSorted_spec fuel Hfuel)
    as (s0 & [[s o] vm] & order & Hinit & Hloop & Hinv & Hlen & Hall).
  pose proof (loopSorted_loopOrder _ _ _ Hloop) as Hloop2.
  pose proof (loopOrder_loop _ _ _ Hloop2) as Hloop3.
  exists order, s0, s, o, vm. split_and!; try done.
  - split_and!; try done. apply (inv_nodup _ _ (sv_peel _ _ Hinv)).
  - pose proof (inv_removed _ _ (sv_peel _ _ Hinv)) as Hr.
    cbn [fst] in Hr. congruence.
Qed.

Lemma computeDegeneracyOrderArray_spec :
  ∃ order arr d,
    removal_order order ∧
    computeDegeneracy graph size = Some d ∧
    computeDegeneracyOrderArray graph size = Some arr ∧
    length arr = size ∧
    (∀ k v, order !! k = Some v → arr !! v = Some (array_of order k v)) ∧
    (∀ k v, order !! k = Some v →
            live_count graph (take (S k) order) v ≤ d) ∧
    (d = 0 ∨ ∃ k v, order !! k = Some v ∧
                    live_count graph (take (S k) order) v = d).
Proof.
  destruct (peeling_spec (iterations size))
    as (order & s0 & s & o & vm & Hord & Hinit & _ & Hlo & Hl & Hinv & _);
    [done|].
  destruct (toArray_spec o order Hord (sv_dead _ _ Hinv))
    as (arr & Harr & Hlen & Hlook).
  exists order, arr, (degeneracy s). split_and!; try done.
  - unfold computeDegeneracy. rewrite Hinit. osimpl. rewrite Hl. done.
  - unfold computeDegeneracyOrderArray. rewrite Hinit. osimpl.
    rewrite Hlo. done.
  - apply (sv_deg_le _ _ Hinv).
  - apply (sv_deg_max _ _ Hinv).
Qed.

(** ** [qsort] with [qsortComparator] *)

Lemma qsortComparator_le x y :
  int_range x → int_range y →
  (qsortComparator (Z.of_nat x) (Z.of_nat y) <= 0)%Z ↔ x ≤ y.
Proof.
  unfold int_range, qsortComparator, wrap32. intros Hx Hy.
  rewrite Z.mod_small by lia. lia.
Qed.

Lemma qsort_insert_perm cmp x l : qsort_insert cmp x l ≡ₚ x :: l.
Proof.
  induction l as [|y l IH]; cbn [qsort_insert]; [done|].
  case_decide; [done|]. rewrite IH. apply Permutation_swap.
Qed.

Lemma qsort_perm cmp l : qsort cmp l ≡ₚ l.
Proof.
  induction l as [|x l IH]; [done|].
  cbn [qsort foldr]. rewrite qsort_insert_perm. by f_equiv.
Qed.

Lemma qsort_insert_sorted x l :
  int_range x → Forall int_range l → Sorted le l →
  Sorted le (qsort_insert qsortComparator x l).
Proof.
  intros Hx Hl Hs. induction l as [|y l IH]; cbn [qsort_insert].
  - repeat constructor.
  - apply Forall_cons in Hl as [Hy Hl]. apply Sorted_inv in Hs as [Hs Hhd].
    case_decide as Hc.
    + apply qsortComparator_le in Hc; [|done..].
      repeat constructor; done.
    + rewrite qsortComparator_le in Hc by done.
      constructor; [by apply IH|].
      destruct l as [|z l]; cbn [qsort_insert].
      * constructor. lia.
      * case_decide; constructor; [lia|]. by inversion Hhd.
Qed.

Lemma qsort_sorted l :
  Forall int_range l → Sorted le (qsort qsortComparator l).
Proof.
  induction l as [|x l IH]; intros Hl; [constructor|].
  apply Forall_cons in Hl as [Hx Hl]. cbn [qsort foldr].
  apply qsort_insert_sorted; [done| |by apply IH].
  eapply Forall_forall. intros y Hy.
  rewrite (qsort_perm qsortComparator l) in Hy.
  by eapply Forall_forall in Hl.
Qed.

(** ** The renamed, sorted array *)

Lemma rename_spec vm (l : list nat) :
  (∀ u, u ∈ l → u < length vm) →
  rename vm l = Some (translate vm <$> l).
Proof.
  intros Hl. apply mapM_Some. apply Forall2_fmap_r, Forall_Forall2_diag.
  apply Forall_forall. intros u Hu. unfold translate.
  destruct (lookup_lt_is_Some_2 vm u (Hl u Hu)) as [k Hk].
  cbn. by rewrite Hk.
Qed.

Lemma emitAll_spec order o vm :
  removal_order order →
  (∀ k v, order !! k = Some v → o !! v = Some (record_of order k v)) →
  length vm = size →
  (∀ k v, order !! k = Some v → vm !! v = Some k) →
  ∀ vs a, NoDup vs → (∀ v, v ∈ vs → v < size) → length a = size →
  ∃ a', emitAll o vm vs a = Some a' ∧ length a' = size ∧
        (∀ k v, order !! k = Some v → v ∈ vs →
                a' !! k = Some (Some (emitted order vm k v))) ∧
        (∀ k v, order !! k = Some v → v ∉ vs → a' !! k = a !! k).
Proof.
  intros Hord Hdead Hvl Hvm vs.
  induction vs as [|v vs IH]; intros a Hnd Hlt Hlen.
  - exists a. split_and!; try done. set_solver.
  - apply NoDup_cons in Hnd as [Hv Hnd].
    destruct (removal_order_lookup order v Hord) as (k & Hk & Hkv);
      [set_solver|].
    cbn [emitAll]. unfold emitSorted.
    rewrite (Hvm k v Hkv). osimpl. rewrite (Hdead k v Hkv). osimpl.
    rewrite !rename_spec.
    2,3: intros u Hu; rewrite Hvl; apply list_elem_of_filter in Hu as [_ Hu];
         by eapply neighbours_lt.
    osimpl. rewrite store_is_Some by lia. osimpl.
    destruct (IH (<[k := Some (emitted order vm k v)]> a))
      as (a' & Hemit & Hlen' & Hin & Hout);
      [done|set_solver|by rewrite length_insert|].
    exists a'. split_and!; try done.
    + intros k' v' Hk' Hv'. apply elem_of_cons in Hv' as [->|Hv'].
      * assert (k' = k) as -> by by eapply removal_order_inj.
        rewrite (Hout k v) by done. apply list_lookup_insert_eq. lia.
      * by apply Hin.
    + intros k' v' Hk' Hv'. apply not_elem_of_cons in Hv' as [Hne Hv'].
      rewrite (Hout k' v') by done. apply list_lookup_insert_ne.
      intros ->. congruence.
Qed.

Lemma computeDegeneracyOrderArrayVerticesSorted_spec :
  ∃ order arr sorted vm,
    removal_order order ∧
    computeDegeneracyOrderArray graph size = Some arr ∧
    computeDegeneracyOrderArrayVerticesSorted graph size = Some sorted ∧
    length arr = size ∧ length sorted = size ∧ length vm = size ∧
    (∀ k v, order !! k = Some v →
            vm !! v = Some k ∧
            arr !! v = Some (array_of order k v) ∧
            sorted !! k = Some (Some (emitted order vm k v))).
Proof.
  destruct (peeling_spec (iterations size))
    as (order & s0 & s & o & vm & Hord & Hinit & Hls & Hlo & _ & Hinv & _);
    [done|].
  destruct (toArray_spec o order Hord (sv_dead _ _ Hinv))
    as (arr & Harr & Hlen & Hlook).
  destruct (emitAll_spec order o vm Hord (sv_dead _ _ Hinv)
              (sv_vm_length _ _ Hinv) (sv_vm _ _ Hinv)
              (seq 0 size) (replicate size None))
    as (sorted & Hemit & Hslen & Hin & _).
  { apply NoDup_seq. }
  { intros v Hv. apply elem_of_seq in Hv. lia. }
  { apply length_replicate. }
  exists order, arr, sorted, vm. split_and!; try done.
  - unfold computeDegeneracyOrderArray. rewrite Hinit. osimpl.
    rewrite Hlo. done.
  - unfold computeDegeneracyOrderArrayVerticesSorted. rewrite Hinit. osimpl.
    rewrite Hls. done.
  - apply (sv_vm_length _ _ Hinv).
  - intros k v Hk. split_and!.
    + by apply (sv_vm _ _ Hinv).
    + by apply Hlook.
    + apply Hin; [done|]. apply elem_of_seq.
      assert (v < size) by (apply Hord; by eapply list_elem_of_lookup_2).
      lia.
Qed.

(** ** Counting edges *)

Lemma sum_list_fmap_ext {A} (f g : A → nat) (l : list A) :
  (∀ x, x ∈ l → f x = g x) → sum_list (f <$> l) = sum_list (g <$> l).
Proof.
  induction l as [|x l IH]; intros Hfg; [done|].
  cbn. rewrite Hfg by left. rewrite IH; [done|].
  intros y Hy. apply Hfg. by right.
Qed.

Lemma sum_list_fmap_plus {A} (f g : A → nat) (l : list A) :
  sum_list ((λ x, f x + g x) <$> l) = sum_list (f <$> l) + sum_list (g <$> l).
Proof. induction l as [|x l IH]; [done|]. cbn. rewrite IH. lia. Qed.

Lemma sum_list_indicator {A} (P : A → Prop) `{∀ x, Decision (P x)}
      (c : nat) (l : list A) :
  sum_list ((λ x, if decide (P x) then c else 0) <$> l) =
  c * length (filter P l).
Proof.
  induction l as [|x l IH]; [cbn; lia|].
  rewrite fmap_cons, filter_cons. cbn [sum_list sum_list_with].
  rewrite IH. unfold id. case_decide; cbn [length]; lia.
Qed.

Lemma sum_list_snoc (l : list nat) x : sum_list (l ++ [x]) = sum_list l + x.
Proof. induction l as [|y l IH]; cbn in *; lia. Qed.

Lemma sum_list_perm (l k : list nat) : l ≡ₚ k → sum_list l = sum_list k.
Proof. induction 1; cbn in *; lia. Qed.

Lemma graph_as_neighbours : graph = neighbours graph <$> seq 0 size.
Proof.
  apply list_eq. intros i. rewrite list_lookup_fmap.
  destruct (decide (i < size)) as [Hi|Hi].
  - rewrite neighbours_lookup by done.
    by rewrite (proj2 (lookup_seq 0 size i i)).
  - rewrite !lookup_ge_None_2; [done|rewrite length_seq; lia|].
    rewrite graph_length. lia.
Qed.

Lemma potential_nil : potential [] = total_adjacency graph.
Proof.
  unfold potential, total_adjacency.
  transitivity (sum_list (length <$> (neighbours graph <$> seq 0 size)));
    [|by rewrite <- graph_as_neighbours].
  rewrite <- list_fmap_compose. apply sum_list_fmap_ext. intros u _.
  rewrite decide_False by set_solver. unfold live_count. cbn.
  f_equal. apply filter_all. set_solver.
Qed.

Lemma potential_full dead :
  (∀ v, v < size → v ∈ dead) → potential dead = 0.
Proof.
  intros Hall. unfold potential.
  rewrite (sum_list_fmap_ext _ (λ _, 0)).
  - rewrite sum_list_fmap_const. lia.
  - intros u Hu. apply elem_of_seq in Hu. rewrite decide_True; [done|].
    apply Hall. lia.
Qed.

Lemma length_filter_swap (P : nat → Prop) `{∀ x, Decision (P x)} v :
  length (filter (λ u, P u ∧ u ∈ neighbours graph v) (seq 0 size)) =
  length (filter P (neighbours graph v)).
Proof.
  apply Permutation_length, NoDup_Permutation.
  - apply NoDup_filter, NoDup_seq.
  - apply NoDup_filter, neighbours_NoDup.
  - intros u. rewrite !list_elem_of_filter, elem_of_seq. split.
    + tauto.
    + intros [? Hu]. pose proof (neighbours_lt _ _ Hu). split_and!; try done; lia.
Qed.

Lemma length_filter_point v :
  v < size → length (filter (λ u, u = v) (seq 0 size)) = 1.
Proof.
  intros Hv. change 1 with (length [v]).
  apply Permutation_length, NoDup_Permutation.
  - apply NoDup_filter, NoDup_seq.
  - apply NoDup_singleton.
  - intros u. rewrite list_elem_of_filter, elem_of_seq, list_elem_of_singleton.
    split; [tauto|]. intros ->. split; [done|lia].
Qed.

Lemma potential_snoc dead v :
  v ∉ dead → v < size →
  potential dead =
  potential (dead ++ [v]) + 2 * live_count graph (dead ++ [v]) v.
Proof.
  intros Hv Hlt. unfold potential at 1.
  rewrite (sum_list_fmap_ext _
    (λ u, (if decide (u ∈ dead ++ [v]) then 0
           else live_count graph (dead ++ [v]) u) +
          ((if decide (u = v) then live_count graph (dead ++ [v]) v else 0) +
           (if decide ((u ∉ dead) ∧ u ∈ neighbours graph v) then 1 else 0)))).
  - rewrite !sum_list_fmap_plus, !sum_list_indicator.
    rewrite length_filter_point by done.
    rewrite (length_filter_swap (λ u, u ∉ dead)).
    fold (live_count graph dead v). rewrite <- (live_count_self dead v Hv).
    unfold potential. lia.
  - intros u _. pose proof (live_count_snoc dead v u Hv) as Hlc.
    pose proof (live_count_self dead v Hv) as Hself.
    pose proof (neighbours_irrefl v).
    destruct (decide (u ∈ dead)) as [Hu|Hu].
    + assert (u ≠ v) by (intros ->; done).
      rewrite decide_True, decide_False, decide_False; [lia|tauto|done|].
      set_solver.
    + destruct (decide (u = v)) as [->|Hne].
      * rewrite decide_True, decide_False; [lia|tauto|set_solver].
      * rewrite decide_False by set_solver. rewrite Hlc.
        destruct (decide (u ∈ neighbours graph v)).
        -- rewrite (decide_True (P := _ ∧ _)) by done. lia.
        -- rewrite (decide_False (P := _ ∧ _)) by tauto. lia.
Qed.

Lemma potential_prefix order :
  removal_order order → ∀ k, k ≤ size →
  potential (take k order) +
  2 * sum_list ((λ j, live_count graph (take (S j) order)
                                 (default 0 (order !! j))) <$> seq 0 k) =
  total_adjacency graph.
Proof.
  intros Hord k. induction k as [|k IH]; intros Hk.
  - rewrite take_0, potential_nil. cbn. lia.
  - destruct Hord as (Hnd & Hlen & Hall).
    destruct (lookup_lt_is_Some_2 order k) as [v Hv]; [lia|].
    rewrite seq_S, fmap_app. cbn [fmap list_fmap]. rewrite sum_list_snoc.
    cbn [Nat.add]. rewrite Hv. cbn [default]. rewrite (take_S_r _ _ _ Hv).
    rewrite <- IH by lia.
    rewrite (potential_snoc (take k order) v).
    + unfold id. lia.
    + intros Hin. apply elem_of_take in Hin as (i & Hi & Hlt).
      pose proof (proj1 (NoDup_alt order) Hnd _ _ _ Hi Hv). lia.
    + apply Hall. by eapply list_elem_of_lookup_2.
Qed.

(** The later-degrees of the returned array add up to the edges. *)
Lemma laterDegree_sum order (arr : list NeighborListArray) :
  removal_order order → length arr = size →
  (∀ k v, order !! k = Some v → arr !! v = Some (array_of order k v)) →
  2 * sum_list (laterDegree <$> arr) = total_adjacency graph.
Proof.
  intros Hord Hlen Harr.
  rewrite <- (potential_prefix order Hord size) by done.
  pose proof Hord as (Hnd & Hol & Hall).
  rewrite take_ge, potential_full by (lia || (intros; by apply Hall)).
  cbn [Nat.add]. f_equal.
  set (ld := λ v, from_option laterDegree 0 (arr !! v)).
  transitivity (sum_list (ld <$> seq 0 size)).
  { f_equal. apply list_eq. intros i. rewrite !list_lookup_fmap.
    destruct (decide (i < size)) as [Hi|Hi].
    - rewrite (proj2 (lookup_seq 0 size i i)) by done.
      destruct (lookup_lt_is_Some_2 arr i) as [a Ha]; [lia|].
      unfold ld. cbn. by rewrite Ha.
    - rewrite !lookup_ge_None_2; [done|rewrite length_seq; lia|lia]. }
  transitivity (sum_list (ld <$> order)).
  { apply sum_list_perm, fmap_Permutation, NoDup_Permutation.
    - apply NoDup_seq.
    - done.
    - intros v. rewrite elem_of_seq, <- Hall. lia. }
  assert (Ho : order = (λ j, default 0 (order !! j)) <$> seq 0 size).
  { apply list_eq. intros i. rewrite list_lookup_fmap.
    destruct (decide (i < size)) as [Hi|Hi].
    - rewrite (proj2 (lookup_seq 0 size i i)) by done.
      destruct (lookup_lt_is_Some_2 order i) as [v Hv]; [lia|].
      cbn. by rewrite Hv.
    - rewrite !lookup_ge_None_2; [done|rewrite length_seq; lia|lia]. }
  rewrite Ho at 1. rewrite <- list_fmap_compose.
  apply sum_list_fmap_ext. intros j Hj. apply elem_of_seq in Hj.
  destruct (lookup_lt_is_Some_2 order j) as [v Hv]; [lia|].
  unfold compose, ld. rewrite Hv. cbn [default from_option]. unfold id.
  by rewrite (Harr j v Hv).
Qed.

(** ** The invariant, read off the state *)

Lemma is_live_iff order s u :
  Inv order s → is_live s u ↔ u < size ∧ u ∉ order.
Proof.
  intros Hinv. unfold is_live. split.
  - intros Hl. destruct (degree s !! u) as [d|] eqn:Hd; [|done].
    assert (Hu : u < size).
    { rewrite <- (si_degree _ _ _ (inv_scan _ _ Hinv)).
      by eapply lookup_lt_Some. }
    split; [done|]. intros Hin.
    rewrite (si_dead _ _ _ (inv_scan _ _ Hinv) u Hin) in Hd. congruence.
  - intros [Hu Hn]. destruct (Inv_live _ _ _ Hinv Hu Hn) as [-> _].
    cbn. lia.
Qed.

Lemma current_degree_eq order s u :
  Inv order s → current_degree graph s u = live_count graph order u.
Proof.
  intros Hinv. unfold current_degree, live_count. f_equal.
  apply filter_ext_in. intros w Hw. rewrite (is_live_iff order) by done.
  apply neighbours_lt in Hw. tauto.
Qed.

Lemma removed_count_eq order s :
  Inv order s → removed_count size s = length order.
Proof.
  intros Hinv. unfold removed_count.
  apply Permutation_length, NoDup_Permutation.
  - apply NoDup_filter, NoDup_seq.
  - apply Hinv.
  - intros u. rewrite list_elem_of_filter, elem_of_seq.
    rewrite (is_live_iff order) by done. split.
    + intros [Hn Hu]. destruct (decide (u ∈ order)); [done|].
      exfalso. apply Hn. split; [lia|done].
    + intros Hin. pose proof (Inv_order_lt _ _ Hinv u Hin).
      split; [tauto|lia].
Qed.

Lemma Inv_minimum_removal order s :
  Inv order s → numVerticesRemoved s < size →
  minimum_removal graph size s.
Proof.
  intros Hinv Hlt. pose proof (Inv_cursor_lt _ _ Hinv Hlt) as Hcur.
  pose proof (inv_scan _ _ Hinv) as Hs.
  split_and!.
  - rewrite (removed_count_eq order) by done. apply Hinv.
  - intros u Hu. apply (is_live_iff order) in Hu as [Hu Hn]; [|done].
    rewrite (current_degree_eq order) by done.
    destruct (Inv_live _ _ _ Hinv Hu Hn) as [Hd _]. split; [done|].
    destruct (si_live _ _ _ Hs u Hu Hn) as (b & _ & _ & Hb & Hin).
    rewrite decide_False, Nat.add_0_r in Hb by set_solver. eauto.
  - intros d Hd.
    destruct (lookup_lt_is_Some_2 (verticesByDegree s) d) as [b Hb].
    { rewrite (si_buckets _ _ _ Hs). lia. }
    by rewrite Hb, (inv_cursor _ _ Hinv d b Hd Hb).
  - destruct (lookup_lt_is_Some_2 (verticesByDegree s) (currentDegree s))
      as [b Hb].
    { by rewrite (si_buckets _ _ _ Hs). }
    exists b. split; [done|]. intros v Hv.
    apply head_Some_elem_of in Hv.
    destruct (si_bucket _ _ _ Hs _ _ _ Hb Hv) as (Hvs & Hvo & Hvd).
    destruct (Inv_live _ _ _ Hinv Hvs Hvo) as [Hvd' _].
    rewrite Hvd in Hvd'.
    assert (Hlc : live_count graph order v = currentDegree s).
    { injection Hvd'. lia. }
    split_and!.
    + by apply (is_live_iff order).
    + by rewrite (current_degree_eq order).
    + intros u Hu. apply (is_live_iff order) in Hu as [Hu Hn]; [|done].
      rewrite !(current_degree_eq order) by done.
      destruct (Inv_live _ _ _ Hinv Hu Hn) as [_ ?]. lia.
Qed.

Lemma stepOrder_outcome order s o :
  Inv order s → length o = size → numVerticesRemoved s < size →
  ∃ b, verticesByDegree s !! currentDegree s = Some b ∧
       match b with
       | [] => stepOrder graph (s, o) =
               Some (set_cursor (currentDegree s + 1)
                                (numVerticesRemoved s) s, o)
       | v :: _ => ∃ st', removal_step graph (s, o) st' v
       end.
Proof.
  intros Hinv Hlen Hlt. pose proof (Inv_cursor_lt _ _ Hinv Hlt) as Hcur.
  destruct (lookup_lt_is_Some_2 (verticesByDegree s) (currentDegree s))
    as [b Hb].
  { by rewrite (si_buckets _ _ _ (inv_scan _ _ Hinv)). }
  exists b. split; [done|]. destruct b as [|v b'].
  - apply (stepOrder_advance order s o Hinv Hb).
  - destruct (stepOrder_remove order s o v b' Hinv Hlen Hb)
      as (s' & r & Hr & Hstep & Hinv' & Hv & Hvo & _ & _ & Hc0).
    eexists (s', _). split; [exact Hstep|]. cbn [fst snd]. split_and!.
    + eexists. rewrite list_lookup_insert_eq by lia. split; [done|].
      cbn. by rewrite (inv_removed _ _ Hinv).
    + rewrite (inv_removed _ _ Hinv'), (inv_removed _ _ Hinv), length_app.
      cbn. lia.
    + done.
    + rewrite (is_live_iff _ _ _ Hinv'). set_solver.
Qed.

Lemma reaches_order_SInv s0 st :
  Inv [] s0 → degeneracy s0 = 0 →
  reaches (λ st : OrderState, running size st.1) (stepOrder graph)
          (s0, allocateOrdering size) st →
  ∃ order vm, SInv order (st, vm).
Proof.
  intros Hinv Hd Hr.
  eapply (reaches_invariant _ _ (λ st, ∃ order vm, SInv order (st, vm)));
    [| |exact Hr].
  - intros st1 st2 (order & vm & Hs) Hc Hstep.
    apply bool_decide_eq_true in Hc.
    destruct (stepSorted_spec order (st1, vm) Hs Hc)
      as ([st3 vm3] & order' & Hstep3 & Hs3 & _).
    apply stepSorted_stepOrder in Hstep3. cbn [fst] in Hstep3.
    assert (st3 = st2) as -> by congruence. eauto.
  - exists [], (replicate size 0). by apply SInv_initial.
Qed.

Lemma reaches_Inv s0 s :
  Inv [] s0 → degeneracy s0 = 0 →
  reaches (running size) (step graph) s0 s → ∃ order, Inv order s.
Proof.
  intros Hinv Hd Hr.
  enough (∃ order o vm, SInv order (s, o, vm)) as (order & o & vm & Hs).
  { exists order. apply (sv_peel _ _ Hs). }
  eapply (reaches_invariant _ _
            (λ s, ∃ order o vm, SInv order (s, o, vm))); [| |exact Hr].
  - intros s1 s2 (order & o & vm & Hs) Hc Hstep.
    apply bool_decide_eq_true in Hc.
    destruct (stepSorted_spec order (s1, o, vm) Hs Hc)
      as ([[s3 o3] vm3] & order' & Hstep3 & Hs3 & _).
    apply stepSorted_stepOrder, stepOrder_step in Hstep3.
    assert (s3 = s2) as -> by congruence. eauto.
  - exists [], (allocateOrdering size), (replicate size 0).
    by apply SInv_initial.
Qed.

(** ** The iterations given to the loops are never used up *)

Lemma deleteLink_shape v s s' : deleteLink v s = Some s' → shape s' = shape s.
Proof.
  unfold deleteLink. intros H.
  apply bind_Some in H as (d & _ & H). apply bind_Some in H as (b & _ & H).
  case_decide; [|done]. injection H as <-. unfold shape. cbn.
  by rewrite length_insert.
Qed.

Lemma write_degree_shape v d s s' :
  write_degree v d s = Some s' → shape s' = shape s.
Proof.
  unfold write_degree. intros H. apply bind_Some in H as (deg & _ & H).
  by injection H as <-.
Qed.

Lemma relink_shape d v s s' : relink d v s = Some s' → shape s' = shape s.
Proof.
  unfold relink. intros H.
  apply bind_Some in H as (i & _ & H). apply bind_Some in H as (b & _ & H).
  apply bind_Some in H as (loc & _ & H). injection H as <-.
  unfold shape. cbn. by rewrite length_insert.
Qed.

Lemma visit_shape u s s' : visit u s = Some s' → shape s' = shape s.
Proof.
  unfold visit. intros H. apply bind_Some in H as (dn & _ & H).
  case_decide; [|by injection H as <-].
  apply bind_Some in H as (s1 & H1 & H). apply bind_Some in H as (s2 & H2 & H).
  apply deleteLink_shape in H1. apply write_degree_shape in H2.
  case_decide.
  - apply relink_shape in H. congruence.
  - injection H as <-. congruence.
Qed.

Lemma scan_shape nbrs : ∀ s s', scan nbrs s = Some s' → shape s' = shape s.
Proof.
  induction nbrs as [|u nbrs IH]; intros s s'; cbn [scan].
  - by intros [= <-].
  - intros H. apply bind_Some in H as (s1 & H1 & H).
    apply visit_shape in H1. apply IH in H. congruence.
Qed.

Lemma fill_shape ids : ∀ s s', fill graph ids s = Some s' → shape s' = shape s.
Proof.
  induction ids as [|i ids IH]; intros s s'; cbn [fill].
  - by intros [= <-].
  - intros H. apply bind_Some in H as (li & _ & H).
    apply bind_Some in H as (s1 & H1 & H). apply bind_Some in H as (s2 & H2 & H).
    apply write_degree_shape in H1. apply relink_shape in H2.
    apply IH in H. congruence.
Qed.

Lemma initialise_shape s0 :
  initialise graph size = Some s0 → shape s0 = (size, 0, 0).
Proof.
  intros H. apply fill_shape in H. rewrite H. unfold shape, allocate. cbn.
  by rewrite length_replicate.
Qed.

Lemma step_budget s s' :
  running size s = true → step graph s = Some s' → budget s' < budget s.
Proof.
  intros Hc H. apply bool_decide_eq_true in Hc. unfold step in H.
  apply bind_Some in H as (b & Hb & H). apply lookup_lt_Some in Hb.
  destruct (isEmpty b).
  - injection H as <-. unfold budget. cbn. lia.
  - apply bind_Some in H as ([v s1] & Hp & H).
    apply bind_Some in H as (s2 & H2 & H).
    apply bind_Some in H as (nl & _ & H).
    apply bind_Some in H as (s3 & H3 & H). injection H as <-.
    assert (shape s3 = shape s) as [= Hl Hr _].
    { apply scan_shape in H3. apply write_degree_shape in H2.
      unfold pick in Hp. apply bind_Some in Hp as (v' & _ & Hp).
      apply bind_Some in Hp as (s0 & H0 & Hp). injection Hp as _ <-.
      apply deleteLink_shape in H0. rewrite H3, H2, H0. done. }
    unfold budget. cbn. rewrite Hl, Hr.
    set (L := length (verticesByDegree s)) in *.
    replace (size - numVerticesRemoved s)
      with (S (size - (numVerticesRemoved s + 1))) by lia.
    simpl. lia.
Qed.

(** Whatever the graph, the three loops give the same result with
    [iterations size] as with any larger number of iterations. *)
Lemma iterations_suffice s0 fuel :
  initialise graph size = Some s0 → iterations size ≤ fuel →
  loop fuel graph size s0 = loop (iterations size) graph size s0 ∧
  (∀ o, loopOrder fuel graph size (s0, o) =
        loopOrder (iterations size) graph size (s0, o)) ∧
  (∀ o vm, loopSorted fuel graph size (s0, o, vm) =
           loopSorted (iterations size) graph size (s0, o, vm)).
Proof.
  intros Hinit Hfuel. apply initialise_shape in Hinit as [= Hl Hr Hc].
  assert (Hb : budget s0 = iterations size).
  { unfold budget, iterations. rewrite Hl, Hr, Hc. lia. }
  split_and!.
  - apply (while_fuel_irrelevant _ _ budget); [|lia..].
    intros s s'. apply step_budget.
  - intros o.
    apply (while_fuel_irrelevant _ _ (λ st : OrderState, budget st.1));
      [|cbn; lia..].
    intros [s o1] [s' o'] Hcond Hstep. cbn [fst] in *.
    apply stepOrder_step in Hstep. by apply step_budget.
  - intros o vm.
    apply (while_fuel_irrelevant _ _ (λ st : SortedState, budget st.1.1));
      [|cbn; lia..].
    intros [[s o1] vm1] [[s' o'] vm'] Hcond Hstep. cbn [fst] in *.
    apply stepSorted_stepOrder, stepOrder_step in Hstep.
    by apply step_budget.
Qed.

(** ** The history of the removals *)

Lemma step_history order s :
  HInv order s → running size s = true →
  ∃ s' order', step graph s = Some s' ∧ HInv order' s'.
Proof.
  intros [Hinv Hmin Hle Hmax] Hc. apply bool_decide_eq_true in Hc.
  pose proof (Inv_cursor_lt _ _ Hinv Hc) as Hcur.
  destruct (lookup_lt_is_Some_2 (verticesByDegree s) (currentDegree s))
    as [b Hb].
  { by rewrite (si_buckets _ _ _ (inv_scan _ _ Hinv)). }
  destruct b as [|v b'].
  - destruct (stepOrder_advance order s (allocateOrdering size) Hinv Hb)
      as [Hstep Hinv'].
    apply stepOrder_step in Hstep. eexists _, order. split; [done|].
    split; done.
  - destruct (stepOrder_remove order s (allocateOrdering size) v b' Hinv
                (length_replicate _ _) Hb)
      as (s' & r & _ & Hstep & Hinv' & Hv & Hvo & Hlc & Hdeg & _).
    apply stepOrder_step in Hstep. exists s', (order ++ [v]).
    split; [done|].
    assert (Hsnoc : ∀ k w, (order ++ [v]) !! k = Some w →
              (order !! k = Some w ∧ take k (order ++ [v]) = take k order) ∨
              (k = length order ∧ w = v ∧ take k (order ++ [v]) = order)).
    { intros k w Hk. apply lookup_snoc_Some in Hk as [[Hk Hw]|[-> <-]].
      - left. split; [done|]. apply take_app_le. lia.
      - right. split_and!; try done. by rewrite take_app_length. }
    split; try done.
    + intros k w Hk u Hu Hul.
      destruct (Hsnoc k w Hk) as [[Hk' Ht]|(-> & -> & Ht)]; rewrite Ht in *.
      * by apply Hmin.
      * destruct (Inv_live _ _ _ Hinv Hu Hul) as [_ ?]. lia.
    + intros k w Hk. rewrite Hdeg.
      destruct (Hsnoc k w Hk) as [[Hk' Ht]|(-> & -> & Ht)]; rewrite Ht.
      * specialize (Hle k w Hk'). lia.
      * lia.
    + rewrite Hdeg.
      destruct (decide (currentDegree s ≤ degeneracy s)) as [Hle'|Hgt].
      * rewrite Nat.max_l by done.
        destruct Hmax as [?|(k & w & Hk & Hw)]; [by left|right].
        exists k, w. pose proof (lookup_lt_Some _ _ _ Hk).
        rewrite lookup_app_l, take_app_le by lia. done.
      * right. exists (length order), v. rewrite Nat.max_r by lia.
        rewrite list_lookup_middle by done. by rewrite take_app_length.
Qed.

Lemma loop_history :
  ∃ s0 s order,
    initialise graph size = Some s0 ∧
    loop (iterations size) graph size s0 = Some s ∧
    HInv order s ∧ removal_order order.
Proof.
  destruct initialise_spec as (s0 & Hinit & Hinv0 & Hd0 & Hc0).
  pose proof (initialise_shape s0 Hinit) as [= Hl Hr Hc].
  destruct (while_invariant (running size) (step graph)
              (λ s, ∃ order, HInv order s) budget)
    with (fuel := iterations size) (s := s0)
    as (s & Hloop & [order Hh] & Hend & _).
  - intros s [order Hh] Hcond.
    destruct (step_history order s Hh Hcond) as (s' & order' & Hstep & Hh').
    exists s'. split_and!; eauto. by apply step_budget.
  - exists []. split; try done. by left.
  - unfold budget, iterations. rewrite Hl, Hr, Hc. lia.
  - exists s0, s, order. split_and!; try done.
    apply bool_decide_eq_false in Hend.
    pose proof (hi_inv _ _ Hh) as Hp.
    pose proof (order_length order (inv_nodup _ _ Hp) (Inv_order_lt _ _ Hp)).
    rewrite (inv_removed _ _ Hp) in Hend.
    split_and!; [apply Hp|lia|]. intros v. split.
    + apply order_full; [apply Hp|apply (Inv_order_lt _ _ Hp)|lia].
    + apply (Inv_order_lt _ _ Hp).
Qed.

Lemma length_filter_le (P Q : nat → Prop) `{∀ x, Decision (P x)}
      `{∀ x, Decision (Q x)} (l : list nat) :
  (∀ x, x ∈ l → P x → Q x) → length (filter P l) ≤ length (filter Q l).
Proof.
  induction l as [|x l IH]; intros Hpq; [done|].
  rewrite !filter_cons.
  assert (length (filter P l) ≤ length (filter Q l)) as Hle.
  { apply IH. intros y Hy. apply Hpq. by right. }
  pose proof (Hpq x (list_elem_of_here x l)).
  repeat case_decide; cbn [length]; try lia. tauto.
Qed.

Lemma computeDegeneracy_spec :
  ∃ d, computeDegeneracy graph size = Some d ∧ is_degeneracy graph size d.
Proof.
  destruct loop_history as (s0 & s & order & Hinit & Hloop & Hh & Hord).
  exists (degeneracy s). split.
  { unfold computeDegeneracy. rewrite Hinit. osimpl. by rewrite Hloop. }
  destruct Hh as [Hinv Hmin Hle Hmax]. split.
  - intros H Hne Hlt.
    destruct (list_find (λ v, v ∈ H) order) as [[k v]|] eqn:Hfind.
    + apply list_find_Some in Hfind as (Hk & HvH & Hfirst).
      exists v. split; [done|]. etransitivity; [|apply (Hle k v Hk)].
      apply length_filter_le. intros u Hu HuH Hin.
      apply elem_of_take in Hin as (j & Hj & Hjk).
      by apply (Hfirst j u Hj Hjk).
    + exfalso. destruct H as [|v H]; [done|].
      apply list_find_None in Hfind. rewrite Forall_forall in Hfind.
      apply (Hfind v); [|left]. apply Hord, Hlt. left.
  - destruct Hmax as [?|(k & v & Hk & Hv)]; [by left|right].
    exists (filter (λ u, u ∉ take k order) (seq 0 size)).
    assert (Hin : ∀ u, u ∈ filter (λ u, u ∉ take k order) (seq 0 size)
                       ↔ u < size ∧ u ∉ take k order).
    { intros u. rewrite list_elem_of_filter, elem_of_seq. split.
      - intros [? ?]. split; [lia|done].
      - intros [? ?]. split; [done|lia]. }
    split_and!.
    + assert (v ∈ filter (λ u, u ∉ take k order) (seq 0 size)) as Hv'.
      { apply Hin. split.
        - apply Hord. by eapply list_elem_of_lookup_2.
        - intros Hvt. apply elem_of_take in Hvt as (j & Hj & Hjk).
          pose proof (removal_order_inj order j k v Hord Hj Hk). lia. }
      intros Hnil. rewrite Hnil in Hv'. by apply not_elem_of_nil in Hv'.
    + intros u Hu. by apply Hin in Hu as [? _].
    + intros u Hu. apply Hin in Hu as [Hu Hut]. rewrite <- Hv.
      etransitivity; [apply (Hmin k v Hk u Hu Hut)|].
      unfold live_count, induced_degree. apply length_filter_le.
      intros w Hw Hwt. apply Hin. split; [|done]. by eapply neighbours_lt.
Qed.

(** ** The four routines over one removal sequence *)

Lemma routines_spec :
  ∃ order d ordering arr sorted vm,
    removal_order order ∧
    computeDegeneracy graph size = Some d ∧
    computeDegeneracyOrderList graph size = Some ordering ∧
    computeDegeneracyOrderArray graph size = Some arr ∧
    computeDegeneracyOrderArrayVerticesSorted graph size = Some sorted ∧
    length ordering = size ∧ length arr = size ∧ length sorted = size ∧
    length vm = size ∧
    (∀ k v, order !! k = Some v →
       vm !! v = Some k ∧
       ordering !! v = Some (record_of order k v) ∧
       arr !! v = Some (array_of order k v) ∧
       sorted !! k = Some (Some (emitted order vm k v)) ∧
       live_count graph (take (S k) order) v ≤ d) ∧
    (d = 0 ∨ ∃ k v, order !! k = Some v ∧
                    live_count graph (take (S k) order) v = d).
Proof.
  destruct (peeling_spec (iterations size))
    as (order & s0 & s & o & vm & Hord & Hinit & Hls & Hlo & Hl & Hinv & _);
    [done|].
  destruct (toArray_spec o order Hord (sv_dead _ _ Hinv))
    as (arr & Harr & Hlen & Hlook).
  destruct (emitAll_spec order o vm Hord (sv_dead _ _ Hinv)
              (sv_vm_length _ _ Hinv) (sv_vm _ _ Hinv)
              (seq 0 size) (replicate size None))
    as (sorted & Hemit & Hslen & Hin & _).
  { apply NoDup_seq. }
  { intros v Hv. apply elem_of_seq in Hv. lia. }
  { apply length_replicate. }
  exists order, (degeneracy s), o, arr, sorted, vm. split_and!; try done.
  - unfold computeDegeneracy. rewrite Hinit. osimpl. by rewrite Hl.
  - unfold computeDegeneracyOrderList. rewrite Hinit. osimpl. by rewrite Hlo.
  - unfold computeDegeneracyOrderArray. rewrite Hinit. osimpl. by rewrite Hlo.
  - unfold computeDegeneracyOrderArrayVerticesSorted. rewrite Hinit. osimpl.
    by rewrite Hls.
  - apply (sv_length _ _ Hinv).
  - apply (sv_vm_length _ _ Hinv).
  - intros k v Hk. split_and!.
    + by apply (sv_vm _ _ Hinv).
    + by apply (sv_dead _ _ Hinv).
    + by apply Hlook.
    + apply Hin; [done|]. apply elem_of_seq.
      assert (v < size) by (apply Hord; by eapply list_elem_of_lookup_2).
      lia.
    + by apply (sv_deg_le _ _ Hinv).
  - apply (sv_deg_max _ _ Hinv).
Qed.

(** ** The entries of the renamed arrays *)

Lemma translate_rank (order vm : list nat) k u :
  (∀ k u, order !! k = Some u → vm !! u = Some k) →
  order !! k = Some u → translate vm u = k.
Proof. intros Hvm Hk. unfold translate. by rewrite (Hvm k u Hk). Qed.

Lemma emitted_later_elem (order vm : list nat) i v x :
  removal_order order →
  (∀ k u, order !! k = Some u → vm !! u = Some k) →
  x ∈ later (emitted order vm i v) ↔
  ∃ u, u ∈ neighbours graph v ∧ order !! x = Some u ∧ i < x.
Proof.
  intros Hord Hvm. cbn [later emitted record_of nl_later].
  rewrite qsort_perm, list_elem_of_fmap. split.
  - intros (u & -> & Hu). apply list_elem_of_filter in Hu as [Hnot Hu].
    destruct (removal_order_lookup order u Hord) as (k & _ & Hk).
    { by eapply neighbours_lt. }
    rewrite (translate_rank order vm k u Hvm Hk). exists u.
    split_and!; try done.
    destruct (decide (i < k)); [done|]. exfalso. apply Hnot.
    apply elem_of_take. exists k. split; [done|lia].
  - intros (u & Hu & Hx & Hlt). exists u. split.
    + by rewrite (translate_rank order vm x u Hvm Hx).
    + apply list_elem_of_filter. split; [|done]. intros Hin.
      apply elem_of_take in Hin as (j & Hj & Hjlt).
      pose proof (removal_order_inj order j x u Hord Hj Hx). lia.
Qed.

Lemma emitted_earlier_elem (order vm : list nat) i v x :
  removal_order order →
  (∀ k u, order !! k = Some u → vm !! u = Some k) →
  order !! i = Some v →
  x ∈ earlier (emitted order vm i v) ↔
  ∃ u, u ∈ neighbours graph v ∧ order !! x = Some u ∧ x < i.
Proof.
  intros Hord Hvm Hi. cbn [earlier emitted record_of nl_earlier].
  rewrite qsort_perm, list_elem_of_fmap. split.
  - intros (u & -> & Hu). apply list_elem_of_filter in Hu as [Hin Hu].
    destruct (removal_order_lookup order u Hord) as (k & _ & Hk).
    { by eapply neighbours_lt. }
    rewrite (translate_rank order vm k u Hvm Hk). exists u.
    split_and!; try done.
    apply elem_of_take in Hin as (j & Hj & Hjlt).
    pose proof (removal_order_inj order j k u Hord Hj Hk). subst j.
    assert (k ≠ i); [|lia]. intros ->.
    assert (u = v) as -> by congruence. by apply (neighbours_irrefl v).
  - intros (u & Hu & Hx & Hlt). exists u. split.
    + by rewrite (translate_rank order vm x u Hvm Hx).
    + apply list_elem_of_filter. split; [|done].
      apply elem_of_take. exists x. split; [done|lia].
Qed.

Lemma translate_NoDup (order vm l : list nat) :
  removal_order order →
  (∀ k u, order !! k = Some u → vm !! u = Some k) →
  NoDup l → (∀ u, u ∈ l → u < size) → NoDup (translate vm <$> l).
Proof.
  intros Hord Hvm Hnd Hl. apply NoDup_fmap_2_strong; [|done].
  intros u w Hu Hw Heq.
  destruct (removal_order_lookup order u Hord (Hl u Hu)) as (k & _ & Hk).
  destruct (removal_order_lookup order w Hord (Hl w Hw)) as (j & _ & Hj).
  rewrite (translate_rank order vm k u Hvm Hk) in Heq.
  rewrite (translate_rank order vm j w Hvm Hj) in Heq. congruence.
Qed.

Lemma emitted_NoDup (order vm : list nat) i v :
  removal_order order →
  (∀ k u, order !! k = Some u → vm !! u = Some k) →
  NoDup (later (emitted order vm i v)) ∧
  NoDup (earlier (emitted order vm i v)).
Proof.
  intros Hord Hvm. cbn [later earlier emitted record_of nl_later nl_earlier].
  rewrite !qsort_perm. split; apply (translate_NoDup order); try done.
  - apply NoDup_filter, neighbours_NoDup.
  - intros u Hu. apply list_elem_of_filter in Hu as [_ Hu].
    by eapply neighbours_lt.
  - apply NoDup_filter, neighbours_NoDup.
  - intros u Hu. apply list_elem_of_filter in Hu as [_ Hu].
    by eapply neighbours_lt.
Qed.

Lemma emitted_laterDegree_sum (order vm : list nat) (sorted : list (option NeighborListArray)) :
  removal_order order → length sorted = size →
  (∀ k v, order !! k = Some v →
          sorted !! k = Some (Some (emitted order vm k v))) →
  2 * sum_list (from_option laterDegree 0 <$> sorted) =
  total_adjacency graph.
Proof.
  intros Hord Hlen Hs.
  rewrite <- (potential_prefix order Hord size) by done.
  pose proof Hord as (Hnd & Hol & Hall).
  rewrite take_ge, potential_full by (lia || (intros; by apply Hall)).
  cbn [Nat.add]. do 2 f_equal.
  apply list_eq. intros k. rewrite !list_lookup_fmap.
  destruct (decide (k < size)) as [Hk|Hk].
  - rewrite (proj2 (lookup_seq 0 size k k)) by done.
    destruct (lookup_lt_is_Some_2 order k) as [v Hv]; [lia|].
    rewrite (Hs k v Hv). cbn. rewrite Hv. done.
  - rewrite !lookup_ge_None_2; [done|rewrite length_seq; lia|lia].
Qed.

(** ** The degeneracy as a number *)

Lemma elem_le_sum_list (l : list nat) x : x ∈ l → x ≤ sum_list l.
Proof.
  induction l as [|y l IH]; [by intros ?%elem_of_nil|].
  intros [->|Hx]%elem_of_cons; cbn; [lia|]. specialize (IH Hx). lia.
Qed.

Lemma is_degeneracy_le a b :
  is_degeneracy graph size a → is_degeneracy graph size b → a ≤ b.
Proof.
  intros [_ Ha] [Hb _]. destruct Ha as [->|(H & Hne & Hlt & Hmin)]; [lia|].
  destruct (Hb H Hne Hlt) as (v & Hv & Hle). specialize (Hmin v Hv). lia.
Qed.

Lemma ordering_lower_bound d (order' : list nat) m :
  is_degeneracy graph size d →
  (∀ v, v < size → v ∈ order') →
  (∀ k v, order' !! k = Some v →
          live_count graph (take (S k) order') v ≤ m) →
  d ≤ m.
Proof.
  intros [_ Hd] Hall Hm. destruct Hd as [->|(H & Hne & Hlt & Hmin)]; [lia|].
  destruct (list_find (λ x, x ∈ H) order') as [[k v]|] eqn:Hf.
  - apply list_find_Some in Hf as (Hk & HvH & Hfirst).
    etrans; [apply (Hmin v HvH)|]. etrans; [|apply (Hm k v Hk)].
    unfold induced_degree, live_count. apply length_filter_le.
    intros u Hu HuH Hin. rewrite (take_S_r _ _ _ Hk) in Hin.
    apply elem_of_app in Hin as [Hin|Hin].
    + apply elem_of_take in Hin as (j & Hj & Hjk).
      by apply (Hfirst j u Hj Hjk).
    + apply list_elem_of_singleton in Hin as ->.
      by apply (neighbours_irrefl v).
  - apply list_find_None in Hf. destruct H as [|h H]; [done|].
    exfalso. eapply (proj1 (Forall_forall _ _) Hf h).
    + apply Hall, Hlt. by left.
    + by left.
Qed.

Lemma degeneracy_bounds_spec :
  ∃ d, computeDegeneracy graph size = Some d ∧
       (d = 0 ↔ total_adjacency graph = 0) ∧
       (size ≠ 0 → d < size) ∧
       d ≤ max_list (length <$> graph).
Proof.
  destruct routines_spec
    as (order & d & ordering & arr & sorted & vm & Hord & Hd & _ & _ & _ &
        _ & _ & _ & _ & Hall & Hmax).
  exists d. split; [done|].
  assert (Hv : d = 0 ∨ ∃ v, v < size ∧ d ≤ length (neighbours graph v)).
  { destruct Hmax as [->|(k & v & Hk & <-)]; [by left|right]. exists v.
    split; [apply Hord; by eapply list_elem_of_lookup_2|].
    unfold live_count. apply length_filter. }
  split_and!.
  - split.
    + intros ->. rewrite <- (potential_prefix order Hord size) by done.
      pose proof Hord as (Hnd & Hol & Hin).
      rewrite take_ge, potential_full by (lia || (intros; by apply Hin)).
      rewrite (sum_list_fmap_ext _ (λ _, 0)).
      { rewrite sum_list_fmap_const. lia. }
      intros j Hj. apply elem_of_seq in Hj.
      destruct (lookup_lt_is_Some_2 order j) as [v Hv']; [lia|].
      rewrite Hv'. cbn [default]. unfold id.
      destruct (Hall j v Hv') as (_ & _ & _ & _ & ?). lia.
    + intros Htot. destruct Hv as [?|(v & Hv & Hle)]; [done|].
      assert (length (neighbours graph v) ≤ total_adjacency graph); [|lia].
      apply elem_le_sum_list, list_elem_of_fmap.
      exists (neighbours graph v). split; [done|].
      by eapply list_elem_of_lookup_2, neighbours_lookup.
  - intros Hs. destruct Hv as [->|(v & Hv & Hle)]; [lia|].
    pose proof (neighbours_length v Hv). lia.
  - destruct Hv as [->|(v & Hv & Hle)]; [lia|]. etrans; [exact Hle|].
    apply max_list_elem_of_le, list_elem_of_fmap.
    exists (neighbours graph v). split; [done|].
    by eapply list_elem_of_lookup_2, neighbours_lookup.
Qed.

(** ** The removal sequence along the run *)

Lemma SInv_unique order order' (st : SortedState) :
  SInv order st → SInv order' st → order = order'.
Proof.
  intros H1 H2.
  assert (Hlen : length order = length order').
  { rewrite <- (inv_removed _ _ (sv_peel _ _ H1)).
    by rewrite <- (inv_removed _ _ (sv_peel _ _ H2)). }
  apply list_eq. intros k. destruct (order !! k) as [v|] eqn:Hk.
  - pose proof (sv_dead _ _ H1 k v Hk) as Hrec.
    assert (Hv : v < size).
    { apply (Inv_order_lt _ _ (sv_peel _ _ H1)).
      by eapply list_elem_of_lookup_2. }
    destruct (decide (v ∈ order')) as [Hin|Hin].
    + apply list_elem_of_lookup in Hin as [k' Hk'].
      pose proof (sv_dead _ _ H2 k' v Hk') as Hrec'.
      rewrite Hrec in Hrec'. unfold record_of in Hrec'.
      injection Hrec' as Heq _ _. by subst k'.
    + rewrite (sv_live _ _ H2 v Hv Hin) in Hrec. done.
  - symmetry. apply lookup_ge_None. rewrite <- Hlen.
    by apply lookup_ge_None.
Qed.

Lemma loopSorted_prefix fuel : ∀ (st final : SortedState) order orderF,
  SInv order st → loopSorted fuel graph size st = Some final →
  SInv orderF final → order `prefix_of` orderF.
Proof.
  induction fuel as [|fuel IH]; intros st final order orderF Hs Hl HF;
    unfold loopSorted in Hl; cbn [while] in Hl;
    destruct (running size st.1.1) eqn:Hc.
  - done.
  - injection Hl as <-. by rewrite (SInv_unique _ _ _ Hs HF).
  - apply bool_decide_eq_true in Hc.
    destruct (stepSorted_extends order st Hs Hc)
      as (st' & b & _ & Hstep & Hs' & _).
    rewrite Hstep in Hl. cbn [mbind option_bind] in Hl.
    etrans; [|apply (IH st' final _ orderF Hs' Hl HF)].
    by apply prefix_app_r.
  - injection Hl as <-. by rewrite (SInv_unique _ _ _ Hs HF).
Qed.

Lemma trace_spec :
  ∃ order s0 arr,
    removal_order order ∧ initialise graph size = Some s0 ∧
    computeDegeneracyOrderArray graph size = Some arr ∧
    length arr = size ∧
    (∀ k v, order !! k = Some v → arr !! v = Some (array_of order k v)) ∧
    ∀ s o,
      reaches (λ st : OrderState, running size st.1) (stepOrder graph)
              (s0, allocateOrdering size) (s, o) →
      Inv (take (numVerticesRemoved s) order) s ∧
      numVerticesRemoved s ≤ size ∧
      ∀ v b, numVerticesRemoved s < size →
             verticesByDegree s !! currentDegree s = Some (v :: b) →
             order !! numVerticesRemoved s = Some v.
Proof.
  destruct (peeling_spec (iterations size))
    as (order & s0 & sF & oF & vmF & Hord & Hinit & Hls & Hlo & _ & HinvF & _);
    [done|].
  destruct (toArray_spec oF order Hord (sv_dead _ _ HinvF))
    as (arr & Harr & Hlen & Hlook).
  destruct initialise_spec as (s0' & Hinit' & Hinv0 & Hd0 & _).
  assert (s0' = s0) as -> by congruence.
  exists order, s0, arr. split_and!; try done.
  { unfold computeDegeneracyOrderArray. rewrite Hinit. osimpl.
    by rewrite Hlo. }
  intros s o Hr.
  assert (HP : ∃ ord vm fuel,
             SInv ord (s, o, vm) ∧
             loopSorted fuel graph size (s, o, vm) = Some (sF, oF, vmF)).
  { eapply (reaches_invariant _ _
              (λ st : OrderState, ∃ ord vm fuel,
                 SInv ord (st, vm) ∧
                 loopSorted fuel graph size (st, vm) = Some (sF, oF, vmF)));
      [| |exact Hr].
    - intros st1 st2 (ord & vm & fuel & Hs & Hl) Hc Hstep.
      pose proof Hc as Hc'. apply bool_decide_eq_true in Hc'.
      destruct (stepSorted_extends ord (st1, vm) Hs Hc')
        as ([st3 vm3] & b & _ & Hstep3 & Hs3 & _).
      unfold loopSorted in Hl.
      destruct fuel as [|fuel]; cbn [while fst] in Hl; rewrite Hc in Hl;
        [done|].
      rewrite Hstep3 in Hl. cbn [mbind option_bind] in Hl.
      apply stepSorted_stepOrder in Hstep3. cbn [fst] in Hstep3.
      assert (st3 = st2) as -> by congruence.
      by eexists _, vm3, fuel.
    - exists [], (replicate size 0), (iterations size).
      split; [by apply SInv_initial|done]. }
  destruct HP as (ord & vm & fuel & Hs & Hl).
  pose proof (loopSorted_prefix fuel _ _ _ _ Hs Hl HinvF) as Hpre.
  pose proof (inv_removed _ _ (sv_peel _ _ Hs)) as Hn. cbn [fst] in Hn.
  assert (Htake : take (numVerticesRemoved s) order = ord).
  { destruct Hpre as [k ->]. rewrite Hn. by rewrite take_app_length. }
  split_and!.
  - rewrite Htake. apply (sv_peel _ _ Hs).
  - rewrite Hn. apply prefix_length in Hpre.
    destruct Hord as (_ & <- & _). done.
  - intros v b Hlt Hb.
    destruct (stepSorted_extends ord (s, o, vm) Hs Hlt)
      as (st' & b0 & Hb0 & Hstep & Hs' & _).
    cbn [fst] in Hb0. rewrite Hb in Hb0. injection Hb0 as <-.
    assert (Hc : running size s = true) by (by apply bool_decide_eq_true_2).
    unfold loopSorted in Hl.
    destruct fuel as [|fuel]; cbn [while fst] in Hl; rewrite Hc in Hl;
      [done|].
    rewrite Hstep in Hl. cbn [mbind option_bind] in Hl.
    destruct (loopSorted_prefix fuel _ _ _ _ Hs' Hl HinvF) as [k Hk].
    rewrite Hk, Hn, <- app_assoc. by apply list_lookup_middle.
Qed.

End Graph.

(** ** The arrays in terms of ranks *)

Section Ranks.
Variables (graph : list LinkedList) (size : nat).
Hypothesis Hgraph : simple_symmetric graph size.
Variables (order : list nat) (arr : list NeighborListArray).
Hypothesis Horder : removal_order size order.
Hypothesis Harr :
  ∀ k v, order !! k = Some v → arr !! v = Some (array_of graph order k v).

Lemma rank_in_order k u : order !! k = Some u → rank_in arr u = k.
Proof. intros Hk. unfold rank_in. by rewrite (Harr k u Hk). Qed.

Lemma in_take_rank n k u :
  order !! k = Some u → u ∈ take n order ↔ k < n.
Proof.
  intros Hk. rewrite elem_of_take. split.
  - intros (i & Hi & Hlt).
    by rewrite (removal_order_inj size order k i u Horder Hk Hi).
  - eauto.
Qed.

Lemma later_by_rank k v :
  order !! k = Some v →
  later (array_of graph order k v) =
  filter (λ u, k < rank_in arr u) (neighbours graph v).
Proof.
  intros Hk. cbn. apply filter_ext_in. intros u Hu.
  destruct (removal_order_lookup size order u Horder) as (ku & _ & Hku).
  { eapply neighbours_lt; eauto. }
  rewrite (in_take_rank _ ku u Hku), (rank_in_order ku u Hku). lia.
Qed.

Lemma earlier_by_rank k v :
  order !! k = Some v →
  earlier (array_of graph order k v) =
  filter (λ u, rank_in arr u < k) (neighbours graph v).
Proof.
  intros Hk. cbn. apply filter_ext_in. intros u Hu.
  destruct (removal_order_lookup size order u Horder) as (ku & _ & Hku).
  { eapply neighbours_lt; eauto. }
  rewrite (in_take_rank _ ku u Hku), (rank_in_order ku u Hku).
  assert (ku ≠ k); [|lia]. intros ->.
  assert (u = v) as -> by congruence.
  by apply (neighbours_irrefl graph size Hgraph v).
Qed.

Lemma arr_lookup v a :
  arr !! v = Some a → length arr = size →
  ∃ k, k < size ∧ order !! k = Some v ∧ a = array_of graph order k v.
Proof.
  intros Ha Hlen.
  destruct (removal_order_lookup size order v Horder) as (k & Hk & Hkv).
  { rewrite <- Hlen. by eapply lookup_lt_Some. }
  exists k. split_and!; try done. rewrite (Harr k v Hkv) in Ha. congruence.
Qed.
End Ranks.

Lemma max_list_le (l : list nat) d : (∀ x, x ∈ l → x ≤ d) → max_list l ≤ d.
Proof.
  induction l as [|x l IH]; intros Hl; cbn; [lia|].
  pose proof (Hl x (list_elem_of_here x l)).
  assert (max_list l ≤ d); [|lia]. apply IH. intros y Hy. apply Hl. by right.
Qed.

(** * The routines on sample graphs *)

(** [addFirst] files the vertices of equal degree in decreasing order, so
    the bowtie loses vertex 4 first. *)
Example initialise_bowtie :
  initialise bowtie 5 =
  Some (mkPeel [[]; []; [4; 3; 1; 0]; []; [2]]
               [Some 2; Some 2; Some 4; Some 2; Some 2]
               [2; 2; 4; 2; 2]%Z 0 0 0).
Proof. reflexivity. Qed.

Example computeDegeneracy_bowtie : computeDegeneracy bowtie 5 = Some 2.
Proof. reflexivity. Qed.

Example computeDegeneracyOrderArray_K3 :
  computeDegeneracyOrderArray K3 3 =
  Some [ mkNeighborListArray 0 2 0 [] 2 [1; 2];
         mkNeighborListArray 1 1 1 [0] 1 [2];
         mkNeighborListArray 2 0 2 [0; 1] 0 [] ].
Proof. reflexivity. Qed.

Example computeDegeneracyOrderArrayVerticesSorted_K3 :
  computeDegeneracyOrderArrayVerticesSorted K3 3 =
  Some [ Some (mkNeighborListArray 0 0 2 [1; 2] 0 []);
         Some (mkNeighborListArray 1 1 1 [2] 1 [0]);
         Some (mkNeighborListArray 2 2 0 [] 2 [0; 1]) ].
Proof. reflexivity. Qed.

(** A self-loop or a duplicate makes [length(list[i])] reach [size], and
    the bucket of that degree lies outside [verticesByDegree]. *)
Example computeDegeneracy_self_loop : computeDegeneracy [[0]] 1 = None.
Proof. reflexivity. Qed.

Example computeDegeneracy_duplicate : computeDegeneracy [[1; 1]; [0]] 2 = None.
Proof. reflexivity. Qed.

Example gname_samples :
  gname "data/web-Stanford.txt" = "web-Stanford"%string ∧
  gname "a/b.tar.gz" = "b.tar"%string ∧
  gname "dir.d/noext" = "noext"%string ∧
  gname ".hidden" = ""%string.
Proof. repeat split. Qed.

Example main_accepts :
  main 11 [opt_arg "i" "g.txt"; opt_arg "t" "A"; opt_arg "k" "0";
           opt_arg "d" "1"; opt_arg "o" "0"] =
  Load ["New code."%string]
       (mkConfig "g.txt" (Some "A"%char) 0 (Some 1%Z) (Some 0%Z)).
Proof. reflexivity. Qed.

(** * The specified properties *)

(** C1: in the array returned by [computeDegeneracyOrderArray] on a simple
    symmetric graph, the largest [laterDegree] (the length of the [later]
    array) equals the value returned by [computeDegeneracy] on the same
    graph; in particular no [laterDegree] exceeds it. *)
Theorem max_laterDegree_is_degeneracy graph size :
  simple_symmetric graph size →
  ∃ arr d,
    computeDegeneracyOrderArray graph size = Some arr ∧
    computeDegeneracy graph size = Some d ∧
    max_list (laterDegree <$> arr) = d ∧
    ∀ a, a ∈ arr → laterDegree a = length (later a) ∧ laterDegree a ≤ d.
Proof.
  intros Hg.
  destruct (computeDegeneracyOrderArray_spec graph size Hg)
    as (order & arr & d & Hord & Hd & Harr & Hlen & Hlook & Hle & Hmax).
  exists arr, d. split_and!; try done.
  - apply Nat.le_antisymm.
    + apply max_list_le. intros x Hx.
      apply list_elem_of_fmap in Hx as (a & -> & Ha).
      apply list_elem_of_lookup in Ha as [v Hv].
      destruct (arr_lookup graph size order arr Hord Hlook v a Hv Hlen)
        as (k & _ & Hk & ->).
      apply (Hle k v Hk).
    + destruct Hmax as [->|(k & v & Hk & Hv)]; [lia|].
      apply max_list_elem_of_le, list_elem_of_fmap.
      exists (array_of graph order k v). split; [by rewrite <- Hv|].
      eapply list_elem_of_lookup_2, Hlook, Hk.
  - intros a Ha. apply list_elem_of_lookup in Ha as [v Hv].
    destruct (arr_lookup graph size order arr Hord Hlook v a Hv Hlen)
      as (k & _ & Hk & ->).
    split; [done|]. apply (Hle k v Hk).
Qed.

Lemma max_laterDegree_is_degeneracy_witness :
  simple_symmetric bowtie 5 ∧
  ∃ arr d,
    computeDegeneracyOrderArray bowtie 5 = Some arr ∧
    computeDegeneracy bowtie 5 = Some d ∧
    max_list (laterDegree <$> arr) = d ∧
    ∀ a, a ∈ arr → laterDegree a = length (later a) ∧ laterDegree a ≤ d.
Proof.
  assert (H : simple_symmetric bowtie 5)
    by (apply (bool_decide_unpack _); vm_compute; exact I).
  split; [exact H|]. apply (max_laterDegree_is_degeneracy bowtie 5 H).
Defined.

(** C2: at the head of every iteration of the peeling loop of
    [computeDegeneracyOrderArray] and of [computeDegeneracy], the counter
    is the number of vertices removed so far, the cursor has passed empty
    buckets only, and the bucket under the cursor exists; when it is empty
    the cursor moves up by one, and otherwise its first vertex is a live
    vertex of minimum current degree, which the iteration removes: it gets
    the counter as [orderNumber], the counter goes up by one and the cursor
    goes back to 0. *)
Theorem removal_has_minimum_degree graph size :
  simple_symmetric graph size →
  ∃ s0, initialise graph size = Some s0 ∧
    (∀ s o,
       reaches (λ st : OrderState, running size st.1) (stepOrder graph)
               (s0, allocateOrdering size) (s, o) →
       numVerticesRemoved s < size →
       minimum_removal graph size s ∧
       ∃ b, verticesByDegree s !! currentDegree s = Some b ∧
            match b with
            | [] => stepOrder graph (s, o) =
                    Some (set_cursor (currentDegree s + 1)
                                     (numVerticesRemoved s) s, o)
            | v :: _ => ∃ st', removal_step graph (s, o) st' v
            end) ∧
    (∀ s,
       reaches (running size) (step graph) s0 s →
       numVerticesRemoved s < size →
       minimum_removal graph size s ∧
       ∃ b, verticesByDegree s !! currentDegree s = Some b ∧
            match b with
            | [] => step graph s =
                    Some (set_cursor (currentDegree s + 1)
                                     (numVerticesRemoved s) s)
            | v :: _ => ∃ s', step graph s = Some s' ∧
                              numVerticesRemoved s' = S (numVerticesRemoved s) ∧
                              currentDegree s' = 0 ∧ ¬ is_live s' v
            end).
Proof.
  intros Hg.
  destruct (initialise_spec graph size Hg) as (s0 & Hinit & Hinv0 & Hd0 & _).
  exists s0. split; [done|]. split.
  - intros s o Hr Hlt.
    destruct (reaches_order_SInv graph size Hg s0 (s, o) Hinv0 Hd0 Hr)
      as (order & vm & Hs).
    pose proof (sv_peel _ _ _ _ Hs) as Hinv. cbn [fst] in Hinv.
    split; [by eapply Inv_minimum_removal|].
    eapply stepOrder_outcome; eauto. apply (sv_length _ _ _ _ Hs).
  - intros s Hr Hlt.
    destruct (reaches_Inv graph size Hg s0 s Hinv0 Hd0 Hr) as (order & Hinv).
    split; [by eapply Inv_minimum_removal|].
    destruct (stepOrder_outcome graph size Hg order s (allocateOrdering size)
                Hinv (length_replicate _ _) Hlt) as (b & Hb & Hout).
    exists b. split; [done|]. destruct b as [|v b'].
    + by apply stepOrder_step in Hout.
    + destruct Hout as ([s' o'] & Hstep & _ & ? & ? & ?).
      apply stepOrder_step in Hstep. eauto.
Qed.

Lemma removal_has_minimum_degree_witness :
  simple_symmetric K3 3 ∧
  ∃ s0, initialise K3 3 = Some s0 ∧
    (∀ s o,
       reaches (λ st : OrderState, running 3 st.1) (stepOrder K3)
               (s0, allocateOrdering 3) (s, o) →
       numVerticesRemoved s < 3 →
       minimum_removal K3 3 s ∧
       ∃ b, verticesByDegree s !! currentDegree s = Some b ∧
            match b with
            | [] => stepOrder K3 (s, o) =
                    Some (set_cursor (currentDegree s + 1)
                                     (numVerticesRemoved s) s, o)
            | v :: _ => ∃ st', removal_step K3 (s, o) st' v
            end) ∧
    (∀ s,
       reaches (running 3) (step K3) s0 s →
       numVerticesRemoved s < 3 →
       minimum_removal K3 3 s ∧
       ∃ b, verticesByDegree s !! currentDegree s = Some b ∧
            match b with
            | [] => step K3 s =
                    Some (set_cursor (currentDegree s + 1)
                                     (numVerticesRemoved s) s)
            | v :: _ => ∃ s', step K3 s = Some s' ∧
                              numVerticesRemoved s' = S (numVerticesRemoved s) ∧
                              currentDegree s' = 0 ∧ ¬ is_live s' v
            end).
Proof.
  assert (H : simple_symmetric K3 3)
    by (apply (bool_decide_unpack _); vm_compute; exact I).
  split; [exact H|]. apply (removal_has_minimum_degree K3 3 H).
Defined.

(** C3: for every edge [(u,v)] of a simple symmetric graph, the array
    returned by [computeDegeneracyOrderArray] has a slot for [u] and a slot
    for [v], exactly one of [u ∈ later(v)] and [v ∈ later(u)] holds, and
    the vertex that is not in the other's [later] array is in its
    [earlier] array.  Every vertex has its slot, where [later(v)] lists, in
    the order of [list[v]], the neighbours of higher rank and [earlier(v)]
    those of lower rank; and at the head of the iteration of the loop that
    removes [v], [later(v)] is the neighbours that are still live and
    [earlier(v)] the neighbours that have been removed. *)
Theorem edge_in_exactly_one_later graph size :
  simple_symmetric graph size →
  ∃ arr s0,
    computeDegeneracyOrderArray graph size = Some arr ∧
    length arr = size ∧
    initialise graph size = Some s0 ∧
    (∀ v, v < size →
       ∃ av, arr !! v = Some av ∧
             later av = filter (λ u, rank_in arr v < rank_in arr u)
                               (neighbours graph v) ∧
             earlier av = filter (λ u, rank_in arr u < rank_in arr v)
                                 (neighbours graph v)) ∧
    (∀ u v, v ∈ neighbours graph u →
       ∃ au av, arr !! u = Some au ∧ arr !! v = Some av ∧
                ((u ∈ later av ∧ (v ∉ later au) ∧ v ∈ earlier au) ∨
                 (v ∈ later au ∧ (u ∉ later av) ∧ u ∈ earlier av))) ∧
    (∀ s o v b,
       reaches (λ st : OrderState, running size st.1) (stepOrder graph)
               (s0, allocateOrdering size) (s, o) →
       numVerticesRemoved s < size →
       verticesByDegree s !! currentDegree s = Some (v :: b) →
       ∃ av, arr !! v = Some av ∧
             later av = filter (λ u, is_live s u) (neighbours graph v) ∧
             earlier av = filter (λ u, ¬ is_live s u) (neighbours graph v)).
Proof.
  intros Hg.
  destruct (trace_spec graph size Hg)
    as (order & s0 & arr & Hord & Hinit & Harr & Hlen & Hlook & Htrace).
  assert (Hslot : ∀ v, v < size →
    ∃ k, order !! k = Some v ∧ arr !! v = Some (array_of graph order k v) ∧
         rank_in arr v = k).
  { intros v Hv.
    destruct (removal_order_lookup size order v Hord Hv) as (k & _ & Hk).
    exists k. split_and!; [done|by apply Hlook|].
    by apply (rank_in_order graph order arr Hlook). }
  assert (Hfilters : ∀ v, v < size →
    ∃ av, arr !! v = Some av ∧
          later av = filter (λ u, rank_in arr v < rank_in arr u)
                            (neighbours graph v) ∧
          earlier av = filter (λ u, rank_in arr u < rank_in arr v)
                              (neighbours graph v)).
  { intros v Hv. destruct (Hslot v Hv) as (k & Hk & Hav & ->).
    exists (array_of graph order k v). split_and!; [done| |].
    - by apply (later_by_rank graph size Hg order arr Hord Hlook).
    - by apply (earlier_by_rank graph size Hg order arr Hord Hlook). }
  exists arr, s0. split_and!; try done.
  - intros u v Huv.
    pose proof (proj1 (neighbours_sym graph size Hg v u) Huv) as Hvu.
    pose proof (neighbours_lt graph size Hg v u Huv) as Hv.
    pose proof (neighbours_lt graph size Hg u v Hvu) as Hu.
    destruct (Hfilters u Hu) as (au & Hau & Hlu & Heu).
    destruct (Hfilters v Hv) as (av & Hav & Hlv & Hev).
    exists au, av. split_and!; [done..|].
    rewrite Hlu, Heu, Hlv, Hev, !list_elem_of_filter.
    destruct (Hslot u Hu) as (ku & Hku & _ & ->).
    destruct (Hslot v Hv) as (kv & Hkv & _ & ->).
    assert (ku ≠ kv).
    { intros ->. assert (u = v) as -> by congruence.
      by apply (neighbours_irrefl graph size Hg v). }
    destruct (decide (ku < kv)); [right|left]; split_and!; try done; lia.
  - intros s o v b Hr Hlt Hb.
    destruct (Htrace s o Hr) as (Hinv & _ & Hhead).
    specialize (Hhead v b Hlt Hb).
    exists (array_of graph order (numVerticesRemoved s) v).
    split; [by apply Hlook|].
    cbn [later earlier array_of record_of nl_later nl_earlier].
    rewrite (take_S_r _ _ _ Hhead).
    assert (Hlive : ∀ u, u ∈ neighbours graph v →
              is_live s u ↔ u ∉ take (numVerticesRemoved s) order ++ [v]).
    { intros u Hu. rewrite (is_live_iff graph size Hg _ s u Hinv).
      rewrite not_elem_of_app, list_elem_of_singleton. split.
      - intros [_ Hn]. split; [done|]. intros ->.
        by apply (neighbours_irrefl graph size Hg v).
      - intros [Hn _]. split; [|done].
        by apply (neighbours_lt graph size Hg u v). }
    split; apply filter_ext_in; intros u Hu; rewrite (Hlive u Hu).
    + done.
    + split; [tauto|]. intros Hn.
      by destruct (decide (u ∈ take (numVerticesRemoved s) order ++ [v])).
Qed.

Lemma edge_in_exactly_one_later_witness :
  simple_symmetric bowtie 5 ∧
  ∃ arr s0,
    computeDegeneracyOrderArray bowtie 5 = Some arr ∧
    length arr = 5 ∧
    initialise bowtie 5 = Some s0 ∧
    (∀ v, v < 5 →
       ∃ av, arr !! v = Some av ∧
             later av = filter (λ u, rank_in arr v < rank_in arr u)
                               (neighbours bowtie v) ∧
             earlier av = filter (λ u, rank_in arr u < rank_in arr v)
                                 (neighbours bowtie v)) ∧
    (∀ u v, v ∈ neighbours bowtie u →
       ∃ au av, arr !! u = Some au ∧ arr !! v = Some av ∧
                ((u ∈ later av ∧ (v ∉ later au) ∧ v ∈ earlier au) ∨
                 (v ∈ later au ∧ (u ∉ later av) ∧ u ∈ earlier av))) ∧
    (∀ s o v b,
       reaches (λ st : OrderState, running 5 st.1) (stepOrder bowtie)
               (s0, allocateOrdering 5) (s, o) →
       numVerticesRemoved s < 5 →
       verticesByDegree s !! currentDegree s = Some (v :: b) →
       ∃ av, arr !! v = Some av ∧
             later av = filter (λ u, is_live s u) (neighbours bowtie v) ∧
             earlier av = filter (λ u, ¬ is_live s u) (neighbours bowtie v)).
Proof.
  assert (H : simple_symmetric bowtie 5)
    by (apply (bool_decide_unpack _); vm_compute; exact I).
  split; [exact H|]. apply (edge_in_exactly_one_later bowtie 5 H).
Defined.

(** C6: on a simple symmetric graph the [laterDegree] fields of the array
    returned by [computeDegeneracyOrderArray] add up to the number of
    undirected edges, half the total length of the adjacency lists. *)
Theorem laterDegree_sum_is_edge_count graph size :
  simple_symmetric graph size →
  ∃ arr,
    computeDegeneracyOrderArray graph size = Some arr ∧
    2 * sum_list (laterDegree <$> arr) = total_adjacency graph.
Proof.
  intros Hg.
  destruct (computeDegeneracyOrderArray_spec graph size Hg)
    as (order & arr & d & Hord & _ & Harr & Hlen & Hlook & _).
  exists arr. split; [done|].
  by apply (laterDegree_sum graph size Hg order arr).
Qed.

Lemma laterDegree_sum_is_edge_count_witness :
  simple_symmetric bowtie 5 ∧
  ∃ arr,
    computeDegeneracyOrderArray bowtie 5 = Some arr ∧
    2 * sum_list (laterDegree <$> arr) = total_adjacency bowtie.
Proof.
  assert (H : simple_symmetric bowtie 5)
    by (apply (bool_decide_unpack _); vm_compute; exact I).
  split; [exact H|]. apply (laterDegree_sum_is_edge_count bowtie 5 H).
Defined.

(** C7: the [orderNumber] fields of the array returned by
    [computeDegeneracyOrderArray] are a permutation of [0 .. size-1], slot
    [v] of the array describes vertex [v], and the loop ends with
    [numVerticesRemoved = size].  The rank of a vertex is its removal
    index: at the head of every iteration of the loop the vertices marked
    as removed are those whose [orderNumber] is below the counter
    [numVerticesRemoved], and an iteration that removes a vertex takes one
    that is not marked, whose [orderNumber] in the array is the value of
    the counter; so every vertex is removed exactly once. *)
Theorem orderNumber_is_permutation graph size :
  simple_symmetric graph size →
  ∃ arr s0 s,
    computeDegeneracyOrderArray graph size = Some arr ∧
    length arr = size ∧
    vertex <$> arr = seq 0 size ∧
    orderNumber <$> arr ≡ₚ seq 0 size ∧
    initialise graph size = Some s0 ∧
    loopOrder (iterations size) graph size (s0, allocateOrdering size)
      = Some s ∧
    numVerticesRemoved s.1 = size ∧
    ∀ s' o',
      reaches (λ st : OrderState, running size st.1) (stepOrder graph)
              (s0, allocateOrdering size) (s', o') →
      numVerticesRemoved s' ≤ size ∧
      (∀ v, v < size →
            (¬ is_live s' v) ↔ rank_in arr v < numVerticesRemoved s') ∧
      (∀ v b, numVerticesRemoved s' < size →
              verticesByDegree s' !! currentDegree s' = Some (v :: b) →
              is_live s' v ∧
              ∃ av, arr !! v = Some av ∧
                    orderNumber av = numVerticesRemoved s').
Proof.
  intros Hg.
  destruct (trace_spec graph size Hg)
    as (order & s0 & arr & Hord & Hinit & Harr & Hlen & Hlook & Htrace).
  destruct (peeling_spec graph size Hg (iterations size))
    as (order' & s0' & s & o & vm & _ & Hinit' & _ & Hlo & _ & _ & Hrem);
    [done|].
  assert (s0' = s0) as -> by congruence.
  exists arr, s0, (s, o). split_and!; try done.
  - apply list_eq. intros v. rewrite list_lookup_fmap.
    destruct (decide (v < size)) as [Hv|Hv].
    + destruct (removal_order_lookup size order v Hord Hv) as (k & _ & Hk).
      rewrite (Hlook k v Hk). cbn. symmetry. by apply lookup_seq.
    + rewrite !lookup_ge_None_2; [done|rewrite length_seq; lia|lia].
  - apply NoDup_Permutation.
    + apply NoDup_alt. intros i j x Hi Hj.
      rewrite list_lookup_fmap in Hi, Hj.
      apply fmap_Some in Hi as (ai & Hi & ->).
      apply fmap_Some in Hj as (aj & Hj & Hx).
      destruct (arr_lookup graph size order arr Hord Hlook i ai Hi Hlen)
        as (ki & _ & Hki & ->).
      destruct (arr_lookup graph size order arr Hord Hlook j aj Hj Hlen)
        as (kj & _ & Hkj & ->).
      cbn in Hx. congruence.
    + apply NoDup_seq.
    + intros x. rewrite elem_of_seq, list_elem_of_fmap. split.
      * intros (a & -> & Ha). apply list_elem_of_lookup in Ha as [v Hv].
        destruct (arr_lookup graph size order arr Hord Hlook v a Hv Hlen)
          as (k & Hk & _ & ->).
        cbn. lia.
      * intros [_ Hx]. pose proof Hord as (_ & Hol & _).
        destruct (lookup_lt_is_Some_2 order x) as [v Hv]; [lia|].
        exists (array_of graph order x v). split; [done|].
        eapply list_elem_of_lookup_2, Hlook, Hv.
  - intros s' o' Hr. destruct (Htrace s' o' Hr) as (Hinv & Hle & Hhead).
    split_and!; [done| |].
    + intros v Hv.
      destruct (removal_order_lookup size order v Hord Hv) as (k & _ & Hk).
      rewrite (rank_in_order graph order arr Hlook k v Hk).
      rewrite (is_live_iff graph size Hg _ s' v Hinv).
      rewrite <- (in_take_rank size order Hord (numVerticesRemoved s') k v Hk).
      split.
      * intros Hn.
        destruct (decide (v ∈ take (numVerticesRemoved s') order));
          [done|]. by destruct Hn.
      * intros Hin [_ Hn]. done.
    + intros v b Hlt Hb. specialize (Hhead v b Hlt Hb).
      assert (Hv : v < size).
      { apply Hord. by eapply list_elem_of_lookup_2. }
      split.
      * apply (is_live_iff graph size Hg _ s' v Hinv). split; [done|].
        rewrite (in_take_rank size order Hord _ _ v Hhead). lia.
      * exists (array_of graph order (numVerticesRemoved s') v).
        split; [by apply Hlook|done].
Qed.

Lemma orderNumber_is_permutation_witness :
  simple_symmetric bowtie 5 ∧
  ∃ arr s0 s,
    computeDegeneracyOrderArray bowtie 5 = Some arr ∧
    length arr = 5 ∧
    vertex <$> arr = seq 0 5 ∧
    orderNumber <$> arr ≡ₚ seq 0 5 ∧
    initialise bowtie 5 = Some s0 ∧
    loopOrder (iterations 5) bowtie 5 (s0, allocateOrdering 5) = Some s ∧
    numVerticesRemoved s.1 = 5 ∧
    ∀ s' o',
      reaches (λ st : OrderState, running 5 st.1) (stepOrder bowtie)
              (s0, allocateOrdering 5) (s', o') →
      numVerticesRemoved s' ≤ 5 ∧
      (∀ v, v < 5 →
            (¬ is_live s' v) ↔ rank_in arr v < numVerticesRemoved s') ∧
      (∀ v b, numVerticesRemoved s' < 5 →
              verticesByDegree s' !! currentDegree s' = Some (v :: b) →
              is_live s' v ∧
              ∃ av, arr !! v = Some av ∧
                    orderNumber av = numVerticesRemoved s').
Proof.
  assert (H : simple_symmetric bowtie 5)
    by (apply (bool_decide_unpack _); vm_compute; exact I).
  split; [exact H|]. apply (orderNumber_is_permutation bowtie 5 H).
Defined.

(** C10: on a simple symmetric graph with [size >= 0] vertices the peeling
    loops of [computeDegeneracy] and [computeDegeneracyOrderArray] end,
    within [iterations size] iterations, with [numVerticesRemoved = size];
    and at the head of every iteration, while a vertex remains, the cursor
    is below [size], the bucket it indexes exists, and a bucket at or above
    the cursor and below [size] is not empty. *)
Theorem peeling_terminates_in_bounds graph size :
  simple_symmetric graph size →
  ∃ s0, initialise graph size = Some s0 ∧
    (∀ fuel, iterations size ≤ fuel →
       ∃ s o,
         loop fuel graph size s0 = Some s ∧
         loopOrder fuel graph size (s0, allocateOrdering size) = Some (s, o) ∧
         numVerticesRemoved s = size) ∧
    (∀ s, reaches (running size) (step graph) s0 s ∨
          (∃ o, reaches (λ st : OrderState, running size st.1)
                        (stepOrder graph) (s0, allocateOrdering size) (s, o)) →
          numVerticesRemoved s < size →
          currentDegree s < size ∧
          is_Some (verticesByDegree s !! currentDegree s) ∧
          ∃ d v b, currentDegree s ≤ d < size ∧
                   verticesByDegree s !! d = Some (v :: b)).
Proof.
  intros Hg.
  destruct (initialise_spec graph size Hg) as (s0 & Hinit & Hinv0 & Hd0 & _).
  exists s0. split; [done|]. split.
  - intros fuel Hfuel.
    destruct (peeling_spec graph size Hg fuel Hfuel)
      as (order & s0' & s & o & vm & _ & Hinit' & _ & Hlo & Hl & _ & Hrem).
    assert (s0' = s0) as -> by congruence. eauto.
  - intros s Hr Hlt.
    assert (∃ order, Inv graph size order s) as [order Hinv].
    { destruct Hr as [Hr|[o Hr]].
      - by eapply reaches_Inv.
      - destruct (reaches_order_SInv graph size Hg s0 (s, o) Hinv0 Hd0 Hr)
          as (order & vm & Hs).
        exists order. apply (sv_peel _ _ _ _ Hs). }
    pose proof (Inv_cursor_lt graph size Hg order s Hinv Hlt) as Hcur.
    split; [done|]. split.
    { apply lookup_lt_is_Some_2.
      by rewrite (si_buckets _ _ _ _ _ (inv_scan _ _ _ _ Hinv)). }
    destruct (exists_live size order) as (u & Hu & Hlive).
    { apply Hinv. } { by rewrite <- (inv_removed _ _ _ _ Hinv). }
    destruct (Inv_live graph size Hg order s u Hinv Hu Hlive) as [_ Hd].
    destruct (si_live _ _ _ _ _ (inv_scan _ _ _ _ Hinv) u Hu Hlive)
      as (b & _ & _ & Hb & Hin).
    rewrite decide_False, Nat.add_0_r in Hb by set_solver.
    destruct b as [|v b]; [set_solver|]. eauto.
Qed.

Lemma peeling_terminates_in_bounds_witness :
  simple_symmetric bowtie 5 ∧
  ∃ s0, initialise bowtie 5 = Some s0 ∧
    (∀ fuel, iterations 5 ≤ fuel →
       ∃ s o,
         loop fuel bowtie 5 s0 = Some s ∧
         loopOrder fuel bowtie 5 (s0, allocateOrdering 5) = Some (s, o) ∧
         numVerticesRemoved s = 5) ∧
    (∀ s, reaches (running 5) (step bowtie) s0 s ∨
          (∃ o, reaches (λ st : OrderState, running 5 st.1)
                        (stepOrder bowtie) (s0, allocateOrdering 5) (s, o)) →
          numVerticesRemoved s < 5 →
          currentDegree s < 5 ∧
          is_Some (verticesByDegree s !! currentDegree s) ∧
          ∃ d v b, currentDegree s ≤ d < 5 ∧
                   verticesByDegree s !! d = Some (v :: b)).
Proof.
  assert (H : simple_symmetric bowtie 5)
    by (apply (bool_decide_unpack _); vm_compute; exact I).
  split; [exact H|]. apply (peeling_terminates_in_bounds bowtie 5 H).
Defined.

(** C4: on a simple symmetric graph whose size fits an [int],
    [computeDegeneracyOrderArrayVerticesSorted] fills every slot [i] of its
    array; there [vertex] and [orderNumber] are [i], the [later] and
    [earlier] arrays hold the ranks of the entries that
    [computeDegeneracyOrderArray] lists for the vertex of rank [i], and
    both arrays are in ascending order. *)
Theorem sorted_array_is_renamed graph size :
  simple_symmetric graph size → (Z.of_nat size < 2 ^ 31)%Z →
  ∃ arr sorted,
    computeDegeneracyOrderArray graph size = Some arr ∧
    computeDegeneracyOrderArrayVerticesSorted graph size = Some sorted ∧
    length sorted = size ∧
    ∀ i, i < size →
      ∃ v av rec,
        arr !! v = Some av ∧ orderNumber av = i ∧
        sorted !! i = Some (Some rec) ∧
        vertex rec = i ∧ orderNumber rec = i ∧
        laterDegree rec = length (later rec) ∧
        earlierDegree rec = length (earlier rec) ∧
        later rec ≡ₚ rank_in arr <$> later av ∧
        earlier rec ≡ₚ rank_in arr <$> earlier av ∧
        Sorted le (later rec) ∧ Sorted le (earlier rec).
Proof.
  intros Hg Hint.
  destruct (computeDegeneracyOrderArrayVerticesSorted_spec graph size Hg)
    as (order & arr & sorted & vm & Hord & Harr & Hsorted & Hlen & Hslen &
        Hvl & Hall).
  exists arr, sorted. split_and!; try done. intros i Hi.
  pose proof Hord as (_ & Hol & Hin).
  destruct (lookup_lt_is_Some_2 order i) as [v Hv]; [lia|].
  destruct (Hall i v Hv) as (Hvm & Hav & Hrec).
  assert (Htr : ∀ l : list nat, (∀ u, u ∈ l → u < size) →
                translate vm <$> l = rank_in arr <$> l ∧
                Forall int_range (translate vm <$> l)).
  { intros l Hl. split.
    - apply list_fmap_ext. intros j u Hu.
      apply list_elem_of_lookup_2, Hl in Hu.
      destruct (removal_order_lookup size order u Hord Hu) as (k & _ & Hk).
      destruct (Hall k u Hk) as (Hvmu & Hau & _).
      unfold translate, rank_in. by rewrite Hvmu, Hau.
    - apply Forall_forall. intros x Hx.
      apply list_elem_of_fmap in Hx as (u & -> & Hu). apply Hl in Hu.
      destruct (removal_order_lookup size order u Hord Hu) as (k & Hk & Hku).
      destruct (Hall k u Hku) as (Hvmu & _). unfold translate, int_range.
      rewrite Hvmu. cbn. lia. }
  assert (Hlater : ∀ u, u ∈ later (array_of graph order i v) → u < size).
  { intros u Hu. apply list_elem_of_filter in Hu as [_ Hu].
    by eapply neighbours_lt. }
  assert (Hearlier : ∀ u, u ∈ earlier (array_of graph order i v) → u < size).
  { intros u Hu. apply list_elem_of_filter in Hu as [_ Hu].
    by eapply neighbours_lt. }
  destruct (Htr _ Hlater) as [El Fl]. destruct (Htr _ Hearlier) as [Ee Fe].
  exists v, (array_of graph order i v), (emitted graph order vm i v).
  split_and!; try done.
  - cbn [laterDegree later emitted].
    by rewrite (Permutation_length (qsort_perm _ _)), length_fmap.
  - cbn [earlierDegree earlier emitted].
    by rewrite (Permutation_length (qsort_perm _ _)), length_fmap.
  - rewrite <- El. apply qsort_perm.
  - rewrite <- Ee. apply qsort_perm.
  - by apply qsort_sorted.
  - by apply qsort_sorted.
Qed.

Lemma sorted_array_is_renamed_witness :
  (simple_symmetric bowtie 5 ∧ (Z.of_nat 5 < 2 ^ 31)%Z) ∧
  ∃ arr sorted,
    computeDegeneracyOrderArray bowtie 5 = Some arr ∧
    computeDegeneracyOrderArrayVerticesSorted bowtie 5 = Some sorted ∧
    length sorted = 5 ∧
    ∀ i, i < 5 →
      ∃ v av rec,
        arr !! v = Some av ∧ orderNumber av = i ∧
        sorted !! i = Some (Some rec) ∧
        vertex rec = i ∧ orderNumber rec = i ∧
        laterDegree rec = length (later rec) ∧
        earlierDegree rec = length (earlier rec) ∧
        later rec ≡ₚ rank_in arr <$> later av ∧
        earlier rec ≡ₚ rank_in arr <$> earlier av ∧
        Sorted le (later rec) ∧ Sorted le (earlier rec).
Proof.
  assert (H : simple_symmetric bowtie 5)
    by (apply (bool_decide_unpack _); vm_compute; exact I).
  assert (H' : (Z.of_nat 5 < 2 ^ 31)%Z) by (vm_compute; reflexivity).
  split; [exact (conj H H')|]. apply (sorted_array_is_renamed bowtie 5 H H').
Defined.

(** C5: in the array returned by
    [computeDegeneracyOrderArrayVerticesSorted] on a simple symmetric
    graph, every entry of [later] at slot [i] is above [i], every entry of
    [earlier] is below [i], and the two arrays together are the ranks of
    the neighbours of the vertex of rank [i]: [later] holds the neighbours
    of higher rank and [earlier] those of lower rank. *)
Theorem sorted_array_partitions_neighbours graph size :
  simple_symmetric graph size →
  ∃ arr sorted,
    computeDegeneracyOrderArray graph size = Some arr ∧
    computeDegeneracyOrderArrayVerticesSorted graph size = Some sorted ∧
    ∀ i, i < size →
      ∃ v rec,
        v < size ∧ rank_in arr v = i ∧
        sorted !! i = Some (Some rec) ∧
        (∀ x, x ∈ later rec → i < x < size) ∧
        (∀ x, x ∈ earlier rec → x < i) ∧
        later rec ++ earlier rec ≡ₚ rank_in arr <$> neighbours graph v ∧
        later rec ≡ₚ
          filter (λ x, i < x) (rank_in arr <$> neighbours graph v) ∧
        earlier rec ≡ₚ
          filter (λ x, x < i) (rank_in arr <$> neighbours graph v).
Proof.
  intros Hg.
  destruct (computeDegeneracyOrderArrayVerticesSorted_spec graph size Hg)
    as (order & arr & sorted & vm & Hord & Harr & Hsorted & Hlen & Hslen &
        Hvl & Hall).
  exists arr, sorted. split_and!; try done. intros i Hi.
  pose proof Hord as (_ & Hol & Hin).
  destruct (lookup_lt_is_Some_2 order i) as [v Hv]; [lia|].
  destruct (Hall i v Hv) as (Hvm & Hav & Hrec).
  assert (Hlook : ∀ k u, order !! k = Some u →
                         arr !! u = Some (array_of graph order k u)).
  { intros k u Hk. by destruct (Hall k u Hk) as (_ & ? & _). }
  assert (Htr : ∀ l : list nat, (∀ u, u ∈ l → u < size) →
                translate vm <$> l = rank_in arr <$> l).
  { intros l Hl. apply list_fmap_ext. intros j u Hu.
    apply list_elem_of_lookup_2, Hl in Hu.
    destruct (removal_order_lookup size order u Hord Hu) as (k & _ & Hk).
    destruct (Hall k u Hk) as (Hvmu & Hau & _).
    unfold translate, rank_in. by rewrite Hvmu, Hau. }
  assert (Hrank : ∀ u, u < size → rank_in arr u < size).
  { intros u Hu.
    destruct (removal_order_lookup size order u Hord Hu) as (k & Hk & Hku).
    by rewrite (rank_in_order graph order arr Hlook k u Hku). }
  pose proof (later_by_rank graph size Hg order arr Hord Hlook i v Hv) as HL.
  pose proof (earlier_by_rank graph size Hg order arr Hord Hlook i v Hv) as HE.
  cbn [later earlier array_of] in HL, HE.
  assert (Hl : later (emitted graph order vm i v) ≡ₚ
               filter (λ x, i < x) (rank_in arr <$> neighbours graph v)).
  { cbn [later emitted]. rewrite qsort_perm, Htr, HL.
    - clear. induction (neighbours graph v) as [|u l IH]; [done|].
      rewrite fmap_cons, !filter_cons.
      case_decide; rewrite ?fmap_cons, IH; done.
    - intros u Hu. apply list_elem_of_filter in Hu as [_ Hu].
      by eapply neighbours_lt. }
  assert (He : earlier (emitted graph order vm i v) ≡ₚ
               filter (λ x, x < i) (rank_in arr <$> neighbours graph v)).
  { cbn [earlier emitted]. rewrite qsort_perm, Htr, HE.
    - clear. induction (neighbours graph v) as [|u l IH]; [done|].
      rewrite fmap_cons, !filter_cons.
      case_decide; rewrite ?fmap_cons, IH; done.
    - intros u Hu. apply list_elem_of_filter in Hu as [_ Hu].
      by eapply neighbours_lt. }
  assert (Hne : ∀ x, x ∈ rank_in arr <$> neighbours graph v → x ≠ i ∧ x < size).
  { intros x Hx. apply list_elem_of_fmap in Hx as (u & -> & Hu).
    pose proof (neighbours_lt graph size Hg u v Hu) as Hus.
    split; [|by apply Hrank].
    destruct (removal_order_lookup size order u Hord Hus) as (k & _ & Hk).
    rewrite (rank_in_order graph order arr Hlook k u Hk). intros ->.
    assert (u = v) as -> by congruence.
    by apply (neighbours_irrefl graph size Hg v). }
  exists v, (emitted graph order vm i v). split_and!; try done.
  - apply Hin. by eapply list_elem_of_lookup_2.
  - by apply (rank_in_order graph order arr Hlook).
  - intros x Hx. rewrite Hl in Hx. apply list_elem_of_filter in Hx as [? Hx].
    apply Hne in Hx. lia.
  - intros x Hx. rewrite He in Hx. by apply list_elem_of_filter in Hx as [? _].
  - rewrite Hl, He.
    rewrite <- (filter_app_complement (λ x, i < x)
                  (rank_in arr <$> neighbours graph v)) at 3.
    f_equiv. erewrite filter_ext_in; [done|].
    intros x Hx. apply Hne in Hx. cbn. lia.
Qed.

Lemma sorted_array_partitions_neighbours_witness :
  simple_symmetric bowtie 5 ∧
  ∃ arr sorted,
    computeDegeneracyOrderArray bowtie 5 = Some arr ∧
    computeDegeneracyOrderArrayVerticesSorted bowtie 5 = Some sorted ∧
    ∀ i, i < 5 →
      ∃ v rec,
        v < 5 ∧ rank_in arr v = i ∧
        sorted !! i = Some (Some rec) ∧
        (∀ x, x ∈ later rec → i < x < 5) ∧
        (∀ x, x ∈ earlier rec → x < i) ∧
        later rec ++ earlier rec ≡ₚ rank_in arr <$> neighbours bowtie v ∧
        later rec ≡ₚ
          filter (λ x, i < x) (rank_in arr <$> neighbours bowtie v) ∧
        earlier rec ≡ₚ
          filter (λ x, x < i) (rank_in arr <$> neighbours bowtie v).
Proof.
  assert (H : simple_symmetric bowtie 5)
    by (apply (bool_decide_unpack _); vm_compute; exact I).
  split; [exact H|]. apply (sorted_array_partitions_neighbours bowtie 5 H).
Defined.

(** ** [main] *)

Lemma option_case_goes_on o c c' :
  option_case o c = inl c' → bad_option o = false ∧ rejected o = false.
Proof.
  destruct o as [opt optarg| |]; cbn; [|done..].
  destruct (Ascii.eqb_spec opt "i") as [->|_]; [done|].
  destruct (Ascii.eqb_spec opt "t") as [->|_].
  { cbn. by destruct (wrong_type (first_char optarg)). }
  destruct (Ascii.eqb_spec opt "k") as [->|_]; [done|].
  destruct (Ascii.eqb_spec opt "d") as [->|_].
  { cbn. by destruct (out_of_range 2 (atoi optarg)). }
  destruct (Ascii.eqb_spec opt "o") as [->|_]; [|done].
  cbn. by destruct (out_of_range 1 (atoi optarg)).
Qed.

Lemma option_case_ends o c r :
  option_case o c = inr r →
  (∃ line, r = Return 0 [line]) ∨
  (rejected o = true ∧ r = Abort ["In default case."%string]).
Proof.
  destruct o as [opt optarg| |]; cbn; [|intros [= <-]; by right..].
  destruct (Ascii.eqb_spec opt "i") as [->|_]; [done|].
  destruct (Ascii.eqb_spec opt "t") as [->|_].
  { destruct (wrong_type (first_char optarg)); [|done]. intros [= <-]. eauto. }
  destruct (Ascii.eqb_spec opt "k") as [->|_]; [done|].
  destruct (Ascii.eqb_spec opt "d") as [->|_].
  { destruct (out_of_range 2 (atoi optarg)); [|done]. intros [= <-]. eauto. }
  destruct (Ascii.eqb_spec opt "o") as [->|_].
  { destruct (out_of_range 1 (atoi optarg)); [|done]. intros [= <-]. eauto. }
  intros [= <-]. by right.
Qed.





Lemma strrchr_None s c : strrchr s c = None → ¬ occurs c s.
Proof.
  induction s as [|a r IH]; cbn; [tauto|].
  destruct (strrchr r c); [done|].
  destruct (Ascii.eqb_spec a c); [done|]. intros _ [?|?]; [done|by apply IH].
Qed.

Lemma strrchr_Some s c : ∀ i,
  strrchr s c = Some i →
  ∃ ext, s = String.append (terminate_at i s) (String c ext) ∧ ¬ occurs c ext.
Proof.
  induction s as [|a r IH]; intros i; cbn; [done|].
  destruct (strrchr r c) as [j|] eqn:Hr.
  - intros [= <-]. destruct (IH j eq_refl) as (ext & Heq & Hno).
    exists ext. split; [|done].
    change (String a r =
            String a (String.append (terminate_at j r) (String c ext))).
    by f_equal.
  - destruct (Ascii.eqb_spec a c) as [->|]; [|done]. intros [= <-].
    exists r. split; [done|]. by apply strrchr_None.
Qed.

(** C9: the name [main] passes on is [basename(fpath)] cut at its last
    ['.']: unchanged when the basename has no dot, and otherwise the part
    before the last dot, the part after it having no dot. *)
Theorem gname_strips_last_extension path :
  (¬ occurs "." (basename path) ∧ gname path = basename path) ∨
  (∃ ext, basename path = String.append (gname path) (String "." ext) ∧
          ¬ occurs "." ext).
Proof.
  unfold gname. destruct (strrchr (basename path) ".") as [i|] eqn:Hdot.
  - right. by apply strrchr_Some.
  - left. split; [by apply strrchr_None|done].
Qed.

(** * Further properties *)

(** ** The value of [computeDegeneracy] *)

(** X1: on a simple symmetric graph [computeDegeneracy] returns the
    degeneracy of the graph: every non-empty set of vertices has a vertex
    with at most that many neighbours inside the set, and, unless the value
    is 0, some non-empty set has no vertex with fewer; no other number has
    these two properties. *)
Theorem computeDegeneracy_is_degeneracy graph size :
  simple_symmetric graph size →
  ∃ d, computeDegeneracy graph size = Some d ∧
       is_degeneracy graph size d ∧
       ∀ d', is_degeneracy graph size d' → d' = d.
Proof.
  intros Hg. destruct (computeDegeneracy_spec graph size Hg) as (d & Hd & His).
  exists d. split_and!; [done..|]. intros d' His'.
  apply Nat.le_antisymm; by apply (is_degeneracy_le graph size).
Qed.

Lemma computeDegeneracy_is_degeneracy_witness :
  simple_symmetric bowtie 5 ∧
  ∃ d, computeDegeneracy bowtie 5 = Some d ∧
       is_degeneracy bowtie 5 d ∧
       ∀ d', is_degeneracy bowtie 5 d' → d' = d.
Proof.
  assert (H : simple_symmetric bowtie 5)
    by (apply (bool_decide_unpack _); vm_compute; exact I).
  split; [exact H|]. apply (computeDegeneracy_is_degeneracy bowtie 5 H).
Defined.

(** X2: no ordering of the vertices does better than the value of
    [computeDegeneracy]: in every sequence that lists all the vertices,
    some vertex has at least that many neighbours after it, so a bound [m]
    on the number of later neighbours in any ordering is at least the
    returned value. *)
Theorem no_ordering_beats_degeneracy graph size :
  simple_symmetric graph size →
  ∃ d, computeDegeneracy graph size = Some d ∧
       ∀ (order' : list nat) m,
         (∀ v, v < size → v ∈ order') →
         (∀ k v, order' !! k = Some v →
                 live_count graph (take (S k) order') v ≤ m) →
         d ≤ m.
Proof.
  intros Hg. destruct (computeDegeneracy_spec graph size Hg) as (d & Hd & His).
  exists d. split; [done|]. intros order' m.
  by apply (ordering_lower_bound graph size Hg).
Qed.

Lemma no_ordering_beats_degeneracy_witness :
  simple_symmetric bowtie 5 ∧
  ∃ d, computeDegeneracy bowtie 5 = Some d ∧
       ∀ (order' : list nat) m,
         (∀ v, v < 5 → v ∈ order') →
         (∀ k v, order' !! k = Some v →
                 live_count bowtie (take (S k) order') v ≤ m) →
         d ≤ m.
Proof.
  assert (H : simple_symmetric bowtie 5)
    by (apply (bool_decide_unpack _); vm_compute; exact I).
  split; [exact H|]. apply (no_ordering_beats_degeneracy bowtie 5 H).
Defined.

(** X3: the value of [computeDegeneracy] on a simple symmetric graph is 0
    exactly when the graph has no edge, it is below [size] when there is a
    vertex, and it is at most the largest length of an adjacency list. *)
Theorem degeneracy_bounds graph size :
  simple_symmetric graph size →
  ∃ d, computeDegeneracy graph size = Some d ∧
       (d = 0 ↔ total_adjacency graph = 0) ∧
       (size ≠ 0 → d < size) ∧
       d ≤ max_list (length <$> graph).
Proof. apply degeneracy_bounds_spec. Qed.

Lemma degeneracy_bounds_witness :
  simple_symmetric bowtie 5 ∧
  ∃ d, computeDegeneracy bowtie 5 = Some d ∧
       (d = 0 ↔ total_adjacency bowtie = 0) ∧
       (5 ≠ 0 → d < 5) ∧
       d ≤ max_list (length <$> bowtie).
Proof.
  assert (H : simple_symmetric bowtie 5)
    by (apply (bool_decide_unpack _); vm_compute; exact I).
  split; [exact H|]. apply (degeneracy_bounds bowtie 5 H).
Defined.

(** ** Termination and initialisation on any input *)

Lemma while_within {State : Type} (cond : State → bool)
      (body : State → option State) (μ : State → nat) :
  (∀ s s', cond s = true → body s = Some s' → μ s' < μ s) →
  ∀ s, ends_within cond body (μ s) s.
Proof.
  intros Hstep.
  assert (H : ∀ k s, μ s ≤ k → ends_within cond body (μ s) s).
  { induction k as [|k IH]; intros s Hk;
      (destruct (cond s) eqn:Hc; [destruct (body s) as [s1|] eqn:Hb|]).
    - pose proof (Hstep s s1 Hc Hb). lia.
    - exists 0, s. split; [lia|]. split; [constructor|]. right.
      split_and!; [done..|]. intros [|fuel]; cbn [while]; rewrite Hc;
        [done|by rewrite Hb].
    - exists 0, s. split; [lia|]. split; [constructor|]. left.
      split; [done|]. intros [|fuel] _; cbn [while]; by rewrite Hc.
    - pose proof (Hstep s s1 Hc Hb) as Hlt.
      destruct (IH s1) as (n & s' & Hn & Hr & Hend); [lia|].
      exists (S n), s'. split; [lia|]. split; [by econstructor|].
      destruct Hend as [(Hc' & Hw)|(Hc' & Hb' & Hw)]; [left|right].
      + split; [done|]. intros [|fuel] Hf; [lia|]. cbn [while].
        rewrite Hc, Hb. cbn [mbind option_bind]. apply Hw. lia.
      + split_and!; [done..|]. intros [|fuel]; cbn [while]; rewrite Hc;
          [done|]. rewrite Hb. cbn [mbind option_bind]. apply Hw.
    - exists 0, s. split; [lia|]. split; [constructor|]. right.
      split_and!; [done..|]. intros [|fuel]; cbn [while]; rewrite Hc;
        [done|by rewrite Hb].
    - exists 0, s. split; [lia|]. split; [constructor|]. left.
      split; [done|]. intros [|fuel] _; cbn [while]; by rewrite Hc. }
  intros s. by apply (H (μ s)).
Qed.

(** X4: whatever the adjacency lists hold, once the initialisation has
    succeeded the peeling loop of each routine ends within
    [size * (size + 2)] iterations: after at most that many iterations it
    either leaves through its condition [numVerticesRemoved < size], in
    the state that the routine goes on with, or stops at an access out of
    range, where the routine does not return. *)
Theorem peeling_never_exceeds_iterations graph size s0 :
  initialise graph size = Some s0 →
  ends_within (running size) (step graph) (iterations size) s0 ∧
  (∀ o, ends_within (λ st : OrderState, running size st.1)
                    (stepOrder graph) (iterations size) (s0, o)) ∧
  (∀ o vm, ends_within (λ st : SortedState, running size st.1.1)
                       (stepSorted graph) (iterations size) (s0, o, vm)).
Proof.
  intros Hinit. apply initialise_shape in Hinit as [= Hl Hr Hc].
  assert (Hb : budget size s0 = iterations size).
  { unfold budget, iterations. rewrite Hl, Hr, Hc. lia. }
  rewrite <- Hb. split_and!.
  - apply (while_within _ _ (budget size)). intros s s'. apply step_budget.
  - intros o.
    assert (Hdec : ∀ st st' : OrderState,
              running size st.1 = true → stepOrder graph st = Some st' →
              budget size st'.1 < budget size st.1).
    { intros [s o1] [s' o'] Hcond Hstep. cbn [fst] in *.
      apply stepOrder_step in Hstep. by apply (step_budget graph). }
    apply (while_within _ _ (λ st : OrderState, budget size st.1) Hdec
             (s0, o)).
  - intros o vm.
    assert (Hdec : ∀ st st' : SortedState,
              running size st.1.1 = true → stepSorted graph st = Some st' →
              budget size st'.1.1 < budget size st.1.1).
    { intros [[s o1] vm1] [[s' o'] vm'] Hcond Hstep. cbn [fst] in *.
      apply stepSorted_stepOrder, stepOrder_step in Hstep.
      by apply (step_budget graph). }
    apply (while_within _ _ (λ st : SortedState, budget size st.1.1) Hdec
             (s0, o, vm)).
Qed.

Lemma peeling_never_exceeds_iterations_witness :
  initialise [[1]; []] 2 =
    Some (mkPeel [[1]; [0]] [Some 1; Some 0] [1; 0]%Z 0 0 0) ∧
  ends_within (running 2) (step [[1]; []]) (iterations 2)
    (mkPeel [[1]; [0]] [Some 1; Some 0] [1; 0]%Z 0 0 0) ∧
  (∀ o, ends_within (λ st : OrderState, running 2 st.1)
          (stepOrder [[1]; []]) (iterations 2)
          (mkPeel [[1]; [0]] [Some 1; Some 0] [1; 0]%Z 0 0 0, o)) ∧
  (∀ o vm, ends_within (λ st : SortedState, running 2 st.1.1)
             (stepSorted [[1]; []]) (iterations 2)
             (mkPeel [[1]; [0]] [Some 1; Some 0] [1; 0]%Z 0 0 0, o, vm)).
Proof.
  assert (H1 : initialise [[1]; []] 2 =
               Some (mkPeel [[1]; [0]] [Some 1; Some 0] [1; 0]%Z 0 0 0))
    by reflexivity.
  split; [exact H1|].
  apply (peeling_never_exceeds_iterations [[1]; []] 2 _ H1).
Defined.

(** The arrays [verticesByDegree], [vertexLocator] and [degree] have
    [size] cells: filling them succeeds exactly when every index used is in
    range. *)
Lemma fill_is_Some graph n ids : ∀ s,
  length (verticesByDegree s) = n → length (vertexLocator s) = n →
  length (degree s) = n →
  is_Some (fill graph ids s) ↔
  ∀ i, i ∈ ids → i < n ∧ ∃ l, graph !! i = Some l ∧ length l < n.
Proof.
  induction ids as [|i ids IH]; intros s Hb Hl Hd; cbn [fill].
  - split; [intros _ i Hi; by apply elem_of_nil in Hi|by eexists].
  - destruct (graph !! i) as [li|] eqn:Hli; osimpl.
    2:{ split; [by intros [? ?]|]. intros H.
        destruct (H i) as (_ & l & ? & _); [by left|congruence]. }
    destruct (decide (i < n)) as [Hi|Hi].
    2:{ unfold write_degree, store. rewrite decide_False by lia. osimpl.
        split; [by intros [? ?]|]. intros H. destruct (H i); [by left|lia]. }
    rewrite write_degree_spec by lia. osimpl.
    destruct (decide (length li < n)) as [Hlen|Hlen].
    2:{ unfold relink. rewrite index_of_nat. osimpl. cbn [verticesByDegree].
        rewrite lookup_ge_None_2 by lia. osimpl.
        split; [by intros [? ?]|]. intros H.
        destruct (H i) as (_ & l & Hl' & ?); [by left|].
        assert (l = li) as -> by congruence. lia. }
    destruct (lookup_lt_is_Some_2 (verticesByDegree s) (length li))
      as [b Hbk]; [lia|].
    rewrite (relink_spec _ _ _ b) by (cbn; done || lia). osimpl.
    rewrite IH by (cbn; rewrite ?length_insert; done).
    split.
    + intros H j [->|Hj]%elem_of_cons; [|by apply H].
      split; [done|]. by exists li.
    + intros H j Hj. apply H. by right.
Qed.

(** X5: the initialisation shared by the four routines succeeds exactly
    when [list] has an adjacency list for each of the [size] vertices and
    each of these lists has fewer than [size] entries (its length indexes
    [verticesByDegree]); otherwise an array is accessed out of range, and
    none of the four routines returns. *)
Theorem initialise_succeeds_iff graph size :
  (is_Some (initialise graph size) ↔
   ∀ i, i < size → ∃ l, graph !! i = Some l ∧ length l < size) ∧
  (initialise graph size = None →
   computeDegeneracy graph size = None ∧
   computeDegeneracyOrderList graph size = None ∧
   computeDegeneracyOrderArray graph size = None ∧
   computeDegeneracyOrderArrayVerticesSorted graph size = None).
Proof.
  split.
  - unfold initialise.
    rewrite (fill_is_Some graph size)
      by (cbn; by rewrite length_replicate).
    split.
    + intros H i Hi. apply H. apply elem_of_seq. lia.
    + intros H i Hi. apply elem_of_seq in Hi. split; [lia|]. apply H. lia.
  - intros Hnone.
    unfold computeDegeneracy, computeDegeneracyOrderList,
      computeDegeneracyOrderArray, computeDegeneracyOrderArrayVerticesSorted.
    by rewrite Hnone.
Qed.

(** ** The ordering array and the ordering list *)

Lemma fmap_by_index {A} (f : A → nat) (l : list A) :
  f <$> l = (λ i, from_option f 0 (l !! i)) <$> seq 0 (length l).
Proof.
  apply list_eq. intros i. rewrite !list_lookup_fmap.
  destruct (l !! i) as [x|] eqn:Hi.
  - rewrite (proj2 (lookup_seq 0 (length l) i i)).
    + cbn. by rewrite Hi.
    + split; [done|]. by eapply lookup_lt_Some.
  - rewrite lookup_ge_None_2; [done|].
    rewrite length_seq. by apply lookup_ge_None.
Qed.

Lemma record_of_partition graph order k v :
  nl_later (record_of graph order k v) ++
  nl_earlier (record_of graph order k v) ≡ₚ neighbours graph v.
Proof.
  cbn [record_of nl_later nl_earlier]. rewrite (comm (++)).
  apply filter_app_complement.
Qed.

Lemma degree_sum graph size (order : list nat)
      (arr : list NeighborListArray) :
  simple_symmetric graph size → removal_order size order →
  length arr = size →
  (∀ k v, order !! k = Some v → arr !! v = Some (array_of graph order k v)) →
  sum_list (laterDegree <$> arr) + sum_list (earlierDegree <$> arr) =
  total_adjacency graph.
Proof.
  intros Hg Hord Hlen Harr. unfold total_adjacency.
  rewrite (graph_as_neighbours graph size Hg) at 1.
  rewrite <- list_fmap_compose, <- sum_list_fmap_plus.
  rewrite (fmap_by_index _ arr), Hlen. apply sum_list_fmap_ext.
  intros v Hv. apply elem_of_seq in Hv.
  destruct (removal_order_lookup size order v Hord) as (k & _ & Hk); [lia|].
  rewrite (Harr k v Hk). cbn.
  rewrite <- length_app. apply Permutation_length, record_of_partition.
Qed.

(** X6: in the array of [computeDegeneracyOrderArray] every adjacency list
    is split between the two arrays of its vertex: [later] and [earlier]
    are sub-sequences of [list[v]] that together hold each neighbour once,
    [earlierDegree] is the length of [earlier], the two degrees add up to
    the length of [list[v]], and the [earlierDegree] fields, like the
    [laterDegree] fields, add up to the number of edges. *)
Theorem ordering_array_splits_adjacency graph size :
  simple_symmetric graph size →
  ∃ arr,
    computeDegeneracyOrderArray graph size = Some arr ∧
    (∀ v av, arr !! v = Some av →
       later av ++ earlier av ≡ₚ neighbours graph v ∧
       sublist (later av) (neighbours graph v) ∧
       sublist (earlier av) (neighbours graph v) ∧
       earlierDegree av = length (earlier av) ∧
       laterDegree av + earlierDegree av = length (neighbours graph v)) ∧
    2 * sum_list (earlierDegree <$> arr) = total_adjacency graph.
Proof.
  intros Hg.
  destruct (routines_spec graph size Hg)
    as (order & d & ordering & arr & sorted & vm & Hord & _ & _ & Harr & _ &
        _ & Hlen & _ & _ & Hall & _).
  assert (Hlook : ∀ k v, order !! k = Some v →
                         arr !! v = Some (array_of graph order k v)).
  { intros k v Hk. by destruct (Hall k v Hk) as (_ & _ & ? & _). }
  exists arr. split_and!; [done| |].
  - intros v av Hv.
    destruct (arr_lookup graph size order arr Hord Hlook v av Hv Hlen)
      as (k & _ & Hk & ->).
    pose proof (record_of_partition graph order k v) as Hp.
    split_and!; [done|apply sublist_filter..|done|].
    cbn [laterDegree earlierDegree array_of].
    rewrite <- length_app. by apply Permutation_length.
  - pose proof (degree_sum graph size order arr Hg Hord Hlen Hlook).
    pose proof (laterDegree_sum graph size Hg order arr Hord Hlen Hlook).
    lia.
Qed.

Lemma ordering_array_splits_adjacency_witness :
  simple_symmetric bowtie 5 ∧
  ∃ arr,
    computeDegeneracyOrderArray bowtie 5 = Some arr ∧
    (∀ v av, arr !! v = Some av →
       later av ++ earlier av ≡ₚ neighbours bowtie v ∧
       sublist (later av) (neighbours bowtie v) ∧
       sublist (earlier av) (neighbours bowtie v) ∧
       earlierDegree av = length (earlier av) ∧
       laterDegree av + earlierDegree av = length (neighbours bowtie v)) ∧
    2 * sum_list (earlierDegree <$> arr) = total_adjacency bowtie.
Proof.
  assert (H : simple_symmetric bowtie 5)
    by (apply (bool_decide_unpack _); vm_compute; exact I).
  split; [exact H|]. apply (ordering_array_splits_adjacency bowtie 5 H).
Defined.

(** X7: [computeDegeneracyOrderList] returns on a simple symmetric graph,
    with one record per vertex, and the record of vertex [v] has both its
    [vertex] and [orderNumber] written and holds the same [orderNumber],
    [later] and [earlier] as slot [v] of the array of
    [computeDegeneracyOrderArray]. *)
Theorem ordering_list_matches_array graph size :
  simple_symmetric graph size →
  ∃ ordering arr,
    computeDegeneracyOrderList graph size = Some ordering ∧
    computeDegeneracyOrderArray graph size = Some arr ∧
    length ordering = size ∧ length arr = size ∧
    ∀ v, v < size →
      ∃ r a, ordering !! v = Some r ∧ arr !! v = Some a ∧
             nl_vertex r = Some v ∧ vertex a = v ∧
             nl_orderNumber r = Some (orderNumber a) ∧
             nl_later r = later a ∧ nl_earlier r = earlier a.
Proof.
  intros Hg.
  destruct (routines_spec graph size Hg)
    as (order & d & ordering & arr & sorted & vm & Hord & _ & Hlist & Harr &
        _ & Hlo & Hla & _ & _ & Hall & _).
  exists ordering, arr. split_and!; [done..|]. intros v Hv.
  destruct (removal_order_lookup size order v Hord Hv) as (k & _ & Hk).
  destruct (Hall k v Hk) as (_ & Hr & Ha & _).
  by exists (record_of graph order k v), (array_of graph order k v).
Qed.

Lemma ordering_list_matches_array_witness :
  simple_symmetric bowtie 5 ∧
  ∃ ordering arr,
    computeDegeneracyOrderList bowtie 5 = Some ordering ∧
    computeDegeneracyOrderArray bowtie 5 = Some arr ∧
    length ordering = 5 ∧ length arr = 5 ∧
    ∀ v, v < 5 →
      ∃ r a, ordering !! v = Some r ∧ arr !! v = Some a ∧
             nl_vertex r = Some v ∧ vertex a = v ∧
             nl_orderNumber r = Some (orderNumber a) ∧
             nl_later r = later a ∧ nl_earlier r = earlier a.
Proof.
  assert (H : simple_symmetric bowtie 5)
    by (apply (bool_decide_unpack _); vm_compute; exact I).
  split; [exact H|]. apply (ordering_list_matches_array bowtie 5 H).
Defined.

(** ** The renamed graph of [computeDegeneracyOrderArrayVerticesSorted] *)

Lemma Sorted_le_NoDup_lt (l : list nat) :
  Sorted le l → NoDup l → Sorted lt l.
Proof.
  induction 1 as [|x l Hs IH Hhd]; intros Hnd; [constructor|].
  apply NoDup_cons in Hnd as [Hx Hnd]. constructor; [by apply IH|].
  destruct Hhd as [|y l Hxy]; constructor.
  assert (x ≠ y) by (intros ->; apply Hx; by left). lia.
Qed.

Lemma Sorted_lt_app (l1 l2 : list nat) :
  Sorted lt l1 → Sorted lt l2 →
  (∀ x y, x ∈ l1 → y ∈ l2 → x < y) → Sorted lt (l1 ++ l2).
Proof.
  induction 1 as [|x l1 Hs IH Hhd]; intros H2 Hlt; [done|].
  cbn [app]. constructor.
  - apply IH; [done|]. intros a b Ha Hb. apply Hlt; [by right|done].
  - destruct Hhd as [|y l1 Hxy]; cbn [app]; [|by constructor].
    destruct l2 as [|y l2]; constructor. apply Hlt; by left.
Qed.

Lemma order_as_seq size (order : list nat) :
  removal_order size order → order ≡ₚ seq 0 size.
Proof.
  intros (Hnd & Hlen & Hall). apply NoDup_Permutation; [done|apply NoDup_seq|].
  intros v. rewrite <- Hall, elem_of_seq. lia.
Qed.

Section Renamed.

Variables (graph : list LinkedList) (size : nat).
Variables (order vm : list nat) (sorted : list (option NeighborListArray)).
Hypothesis Hgraph : simple_symmetric graph size.
Hypothesis Horder : removal_order size order.
Hypothesis Hvm : ∀ k u, order !! k = Some u → vm !! u = Some k.
Hypothesis Hlen : length sorted = size.
Hypothesis Hsorted : ∀ k v, order !! k = Some v →
  sorted !! k = Some (Some (emitted graph order vm k v)).

Lemma slot_lookup i :
  i < size →
  ∃ v, order !! i = Some v ∧
       sorted !! i = Some (Some (emitted graph order vm i v)) ∧
       neighbours (adjacency sorted) i =
       earlier (emitted graph order vm i v) ++
       later (emitted graph order vm i v).
Proof.
  intros Hi. pose proof Horder as (_ & Hol & _).
  destruct (lookup_lt_is_Some_2 order i) as [v Hv]; [lia|].
  exists v. split_and!; [done|by apply Hsorted|].
  unfold neighbours, adjacency.
  by rewrite list_lookup_fmap, (Hsorted i v Hv).
Qed.

Lemma slot_outside i : size ≤ i → neighbours (adjacency sorted) i = [].
Proof.
  intros Hi. unfold neighbours, adjacency.
  rewrite list_lookup_fmap, lookup_ge_None_2; [done|lia].
Qed.

Lemma slot_later_range i v x :
  x ∈ later (emitted graph order vm i v) → i < x < size.
Proof.
  intros Hx.
  apply (emitted_later_elem graph size Hgraph) in Hx
    as (u & _ & Hu & Hlt); [|done..].
  apply lookup_lt_Some in Hu. destruct Horder as (_ & <- & _). lia.
Qed.

Lemma slot_earlier_range i v x :
  order !! i = Some v → x ∈ earlier (emitted graph order vm i v) → x < i.
Proof.
  intros Hi Hx.
  by apply (emitted_earlier_elem graph size Hgraph) in Hx
    as (u & _ & Hu & Hlt).
Qed.

Lemma slot_sorted i v :
  int_range size → order !! i = Some v →
  Sorted lt (earlier (emitted graph order vm i v) ++
             later (emitted graph order vm i v)).
Proof.
  intros Hsize Hi.
  destruct (emitted_NoDup graph size Hgraph order vm i v Horder Hvm)
    as [Hndl Hnde].
  assert (Hi' : i < size).
  { apply lookup_lt_Some in Hi. by destruct Horder as (_ & <- & _). }
  apply Sorted_lt_app.
  - apply Sorted_le_NoDup_lt; [|done].
    cbn [earlier emitted]. apply qsort_sorted, Forall_forall. intros x Hx.
    rewrite <- (qsort_perm qsortComparator) in Hx.
    apply (slot_earlier_range i v x Hi) in Hx.
    unfold int_range in *. lia.
  - apply Sorted_le_NoDup_lt; [|done].
    cbn [later emitted]. apply qsort_sorted, Forall_forall. intros x Hx.
    rewrite <- (qsort_perm qsortComparator) in Hx.
    apply (slot_later_range i v x) in Hx.
    unfold int_range in *. lia.
  - intros x y Hx Hy. apply (slot_earlier_range i v x Hi) in Hx.
    apply (slot_later_range i v y) in Hy. lia.
Qed.

Lemma adjacency_simple_symmetric : simple_symmetric (adjacency sorted) size.
Proof.
  split; [unfold adjacency; by rewrite length_fmap|].
  apply Forall_forall. intros i Hi. apply elem_of_seq in Hi.
  destruct (slot_lookup i) as (v & Hv & _ & ->); [lia|].
  destruct (emitted_NoDup graph size Hgraph order vm i v Horder Hvm)
    as [Hndl Hnde].
  split_and!.
  - apply NoDup_app. split_and!; [done| |done]. intros x Hx Hx'.
    apply (slot_earlier_range i v x Hv) in Hx.
    apply (slot_later_range i v x) in Hx'. lia.
  - intros [Hx|Hx]%elem_of_app.
    + apply (slot_earlier_range i v i Hv) in Hx. lia.
    + apply (slot_later_range i v i) in Hx. lia.
  - apply Forall_forall. intros x [Hx|Hx]%elem_of_app.
    + apply (emitted_earlier_elem graph size Hgraph) in Hx
        as (u & Hu & Hxu & Hlt); [|done..].
      assert (Hx' : x < size) by lia. split; [done|].
      destruct (slot_lookup x Hx') as (u' & Hu' & _ & ->).
      assert (u' = u) as -> by congruence.
      apply elem_of_app. right.
      apply (emitted_later_elem graph size Hgraph); [done..|].
      exists v. split_and!; [|done..].
      by apply (neighbours_sym graph size Hgraph).
    + pose proof (slot_later_range i v x Hx) as Hr.
      apply (emitted_later_elem graph size Hgraph) in Hx
        as (u & Hu & Hxu & Hlt); [|done..].
      split; [lia|].
      destruct (slot_lookup x) as (u' & Hu' & _ & ->); [lia|].
      assert (u' = u) as -> by congruence.
      apply elem_of_app. left.
      apply (emitted_earlier_elem graph size Hgraph); [done..|].
      exists v. split_and!; [|done..].
      by apply (neighbours_sym graph size Hgraph).
Qed.

Lemma adjacency_total :
  total_adjacency (adjacency sorted) = total_adjacency graph.
Proof.
  unfold total_adjacency at 1. unfold adjacency.
  rewrite <- list_fmap_compose, (fmap_by_index _ sorted), Hlen.
  rewrite (sum_list_fmap_ext _
             (λ i, length (neighbours graph (default 0 (order !! i))))).
  - pose proof Horder as (_ & Hol & _).
    replace ((λ i, length (neighbours graph (default 0 (order !! i))))
               <$> seq 0 size)
      with ((λ v, length (neighbours graph v)) <$> order).
    + rewrite (sum_list_perm _ _
                 (fmap_Permutation _ _ _ (order_as_seq size order Horder))).
      unfold total_adjacency.
      rewrite (list_fmap_compose (neighbours graph) length).
      by rewrite <- (graph_as_neighbours graph size Hgraph).
    + apply list_eq. intros i. rewrite !list_lookup_fmap.
      destruct (decide (i < size)) as [Hi|Hi].
      * rewrite (proj2 (lookup_seq 0 size i i)) by done.
        destruct (lookup_lt_is_Some_2 order i) as [v Hv]; [lia|].
        cbn. by rewrite Hv.
      * rewrite !lookup_ge_None_2; [done|rewrite length_seq; lia|lia].
  - intros i Hi. apply elem_of_seq in Hi.
    destruct (slot_lookup i) as (v & Hv & Hs & _); [lia|].
    rewrite Hs, Hv. unfold compose.
    cbn [from_option default emitted earlier later]. unfold id.
    rewrite (comm (++)), !length_app.
    rewrite !(Permutation_length (qsort_perm _ _)), !length_fmap.
    rewrite <- length_app.
    apply Permutation_length, record_of_partition.
Qed.

End Renamed.

(** X8: the array of [computeDegeneracyOrderArrayVerticesSorted] on a
    simple symmetric graph whose size fits an [int] describes a simple
    symmetric graph again: reading [earlier] followed by [later] at every
    slot gives adjacency lists with ids below [size], without duplicate or
    self-loop, symmetric, with as many entries as the input has, and each
    of these lists is strictly ascending. *)
Theorem renamed_graph_is_simple_symmetric graph size :
  simple_symmetric graph size → (Z.of_nat size < 2 ^ 31)%Z →
  ∃ sorted,
    computeDegeneracyOrderArrayVerticesSorted graph size = Some sorted ∧
    simple_symmetric (adjacency sorted) size ∧
    total_adjacency (adjacency sorted) = total_adjacency graph ∧
    ∀ i, Sorted lt (neighbours (adjacency sorted) i).
Proof.
  intros Hg Hsize.
  destruct (routines_spec graph size Hg)
    as (order & d & ordering & arr & sorted & vm & Hord & _ & _ & _ & Hs &
        _ & _ & Hlen & _ & Hall & _).
  assert (Hvm : ∀ k u, order !! k = Some u → vm !! u = Some k).
  { intros k u Hk. by destruct (Hall k u Hk) as (? & _). }
  assert (Hsl : ∀ k v, order !! k = Some v →
                sorted !! k = Some (Some (emitted graph order vm k v))).
  { intros k u Hk. by destruct (Hall k u Hk) as (_ & _ & _ & ? & _). }
  exists sorted. split_and!; [done| | |].
  - by apply (adjacency_simple_symmetric graph size order vm).
  - by apply (adjacency_total graph size order vm).
  - intros i. destruct (decide (i < size)) as [Hi|Hi].
    + destruct (slot_lookup graph size order vm sorted Hord Hlen Hsl i Hi)
        as (v & Hv & _ & ->).
      by apply (slot_sorted graph size order vm sorted Hg Hord Hvm Hlen).
    + rewrite (slot_outside size sorted Hlen) by lia. constructor.
Qed.

Lemma renamed_graph_is_simple_symmetric_witness :
  simple_symmetric bowtie 5 ∧ (Z.of_nat 5 < 2 ^ 31)%Z ∧
  ∃ sorted,
    computeDegeneracyOrderArrayVerticesSorted bowtie 5 = Some sorted ∧
    simple_symmetric (adjacency sorted) 5 ∧
    total_adjacency (adjacency sorted) = total_adjacency bowtie ∧
    ∀ i, Sorted lt (neighbours (adjacency sorted) i).
Proof.
  assert (H : simple_symmetric bowtie 5)
    by (apply (bool_decide_unpack _); vm_compute; exact I).
  assert (H' : (Z.of_nat 5 < 2 ^ 31)%Z) by (vm_compute; reflexivity).
  split; [exact H|]. split; [exact H'|].
  apply (renamed_graph_is_simple_symmetric bowtie 5 H H').
Defined.

(** X9: the renamed array keeps the degrees: on a simple symmetric graph
    the largest [laterDegree] in the array of
    [computeDegeneracyOrderArrayVerticesSorted] is the value of
    [computeDegeneracy], and its [laterDegree] fields add up to the number
    of edges. *)
Theorem sorted_array_keeps_degrees graph size :
  simple_symmetric graph size →
  ∃ sorted d,
    computeDegeneracyOrderArrayVerticesSorted graph size = Some sorted ∧
    computeDegeneracy graph size = Some d ∧
    max_list (from_option laterDegree 0 <$> sorted) = d ∧
    2 * sum_list (from_option laterDegree 0 <$> sorted) =
    total_adjacency graph.
Proof.
  intros Hg.
  destruct (routines_spec graph size Hg)
    as (order & d & ordering & arr & sorted & vm & Hord & Hd & _ & _ & Hs &
        _ & _ & Hlen & _ & Hall & Hmax).
  assert (Hsl : ∀ k v, order !! k = Some v →
                sorted !! k = Some (Some (emitted graph order vm k v))).
  { intros k u Hk. by destruct (Hall k u Hk) as (_ & _ & _ & ? & _). }
  exists sorted, d. split_and!; [done..| |].
  - apply Nat.le_antisymm.
    + apply max_list_le. intros x Hx.
      apply list_elem_of_fmap in Hx as (a & -> & Ha).
      apply list_elem_of_lookup in Ha as [i Hi].
      assert (Hi' : i < size) by (rewrite <- Hlen; by eapply lookup_lt_Some).
      destruct (slot_lookup graph size order vm sorted Hord Hlen Hsl i Hi')
        as (v & Hv & Hsv & _).
      assert (a = Some (emitted graph order vm i v)) as -> by congruence.
      by destruct (Hall i v Hv) as (_ & _ & _ & _ & ?).
    + destruct Hmax as [->|(k & v & Hk & Hv)]; [lia|].
      apply max_list_elem_of_le, list_elem_of_fmap.
      exists (Some (emitted graph order vm k v)). split; [by rewrite <- Hv|].
      eapply list_elem_of_lookup_2, Hsl, Hk.
  - by apply (emitted_laterDegree_sum graph size Hg order vm).
Qed.

Lemma sorted_array_keeps_degrees_witness :
  simple_symmetric bowtie 5 ∧
  ∃ sorted d,
    computeDegeneracyOrderArrayVerticesSorted bowtie 5 = Some sorted ∧
    computeDegeneracy bowtie 5 = Some d ∧
    max_list (from_option laterDegree 0 <$> sorted) = d ∧
    2 * sum_list (from_option laterDegree 0 <$> sorted) =
    total_adjacency bowtie.
Proof.
  assert (H : simple_symmetric bowtie 5)
    by (apply (bool_decide_unpack _); vm_compute; exact I).
  split; [exact H|]. apply (sorted_array_keeps_degrees bowtie 5 H).
Defined.

(** ** [qsortComparator] *)

(** X10: on two non-negative [int] values, as vertex ids are, the
    difference that [qsortComparator] returns does not wrap around: it is
    negative, zero or positive exactly when the first value is below, equal
    to or above the second. *)
Theorem qsortComparator_orders_ids a b :
  (0 ≤ a < 2 ^ 31)%Z → (0 ≤ b < 2 ^ 31)%Z →
  qsortComparator a b = (a - b)%Z ∧
  ((qsortComparator a b < 0)%Z ↔ (a < b)%Z) ∧
  (qsortComparator a b = 0%Z ↔ a = b) ∧
  ((0 < qsortComparator a b)%Z ↔ (b < a)%Z).
Proof.
  intros Ha Hb.
  assert (H : qsortComparator a b = (a - b)%Z).
  { unfold qsortComparator, wrap32. rewrite Z.mod_small; lia. }
  rewrite H. split_and!; [done|lia..].
Qed.

Lemma qsortComparator_orders_ids_witness :
  (0 ≤ 3 < 2 ^ 31)%Z ∧ (0 ≤ 2147483647 < 2 ^ 31)%Z ∧
  qsortComparator 3 2147483647 = (3 - 2147483647)%Z ∧
  ((qsortComparator 3 2147483647 < 0)%Z ↔ (3 < 2147483647)%Z) ∧
  (qsortComparator 3 2147483647 = 0%Z ↔ 3%Z = 2147483647%Z) ∧
  ((0 < qsortComparator 3 2147483647)%Z ↔ (2147483647 < 3)%Z).
Proof.
  assert (Ha : (0 ≤ 3 < 2 ^ 31)%Z) by lia.
  assert (Hb : (0 ≤ 2147483647 < 2 ^ 31)%Z) by lia.
  split; [exact Ha|]. split; [exact Hb|].
  apply (qsortComparator_orders_ids 3 2147483647 Ha Hb).
Defined.

(** ** The argument handling of [main] *)

Lemma option_case_stops o c r :
  option_case o c = inr r → bad_option o = true ∨ rejected o = true.
Proof.
  destruct o as [opt optarg| |]; cbn; [|by right..].
  destruct (Ascii.eqb_spec opt "i") as [->|_]; [done|].
  destruct (Ascii.eqb_spec opt "t") as [->|_].
  { cbn. destruct (wrong_type (first_char optarg)); [by left|done]. }
  destruct (Ascii.eqb_spec opt "k") as [->|_]; [done|].
  destruct (Ascii.eqb_spec opt "d") as [->|_].
  { cbn. destruct (out_of_range 2 (atoi optarg)); [by left|done]. }
  destruct (Ascii.eqb_spec opt "o") as [->|_]; [|by right].
  cbn. destruct (out_of_range 1 (atoi optarg)); [by left|done].
Qed.

Lemma options_load opts : ∀ c,
  (∃ p c', options opts c = Load p c') ↔
  existsb bad_option opts = false ∧ existsb rejected opts = false.
Proof.
  induction opts as [|o opts IH]; intros c; cbn [options existsb].
  - split; [done|]. intros _. by eexists _, _.
  - destruct (option_case o c) as [c'|r] eqn:Hc.
    + destruct (option_case_goes_on _ _ _ Hc) as [-> ->]. cbn [orb].
      apply IH.
    + split.
      * intros (p & c' & ->).
        destruct (option_case_ends _ _ _ Hc) as [[? ?]|[_ ?]]; done.
      * intros [Hb Hr]. apply orb_false_iff in Hb as [Hb _].
        apply orb_false_iff in Hr as [Hr _].
        destruct (option_case_stops _ _ _ Hc); congruence.
Qed.

(** X11: [main] goes on to load the graph exactly when it is given eleven
    arguments and [getopt] yields only the options [-i], [-t], [-k], [-d]
    and [-o], each [-t] with A, V or E, each [-d] with a value from 0 to 2
    and each [-o] with 0 or 1; the line [New code.] is then all it has
    printed. *)
Theorem main_reaches_loader_iff argc opts :
  ((∃ p c, main argc opts = Load p c) ↔
   argc = 11%Z ∧ existsb bad_option opts = false ∧
   existsb rejected opts = false) ∧
  ∀ p c, main argc opts = Load p c → p = ["New code."%string].
Proof.
  unfold main. split.
  - case_decide as Hargc.
    + split; [by intros (? & ? & ?)|]. intros [? _]. done.
    + rewrite options_load. assert (argc = 11%Z) by lia. tauto.
  - case_decide as Hargc; [done|]. generalize declared.
    induction opts as [|o opts IH]; intros c0 p c; cbn [options].
    + by intros [= <- _].
    + destruct (option_case o c0) as [c'|r] eqn:Hc; [by apply IH|].
      intros ->. destruct (option_case_ends _ _ _ Hc) as [[? ?]|[_ ?]]; done.
Qed.

Lemma option_case_config o c0 c' :
  option_case o c0 = inl c' →
  fpath c' = default (fpath c0) (last_arg "i" [o]) ∧
  t c' = from_option (λ a, Some (first_char a)) (t c0) (last_arg "t" [o]) ∧
  max_k c' = from_option atoi (max_k c0) (last_arg "k" [o]) ∧
  flag_d c' = from_option (λ a, Some (atoi a)) (flag_d c0) (last_arg "d" [o]) ∧
  flag_o c' = from_option (λ a, Some (atoi a)) (flag_o c0) (last_arg "o" [o]) ∧
  (validated c0 → validated c').
Proof.
  destruct o as [opt optarg| |]; cbn [option_case last_arg]; [|done..].
  destruct (Ascii.eqb_spec opt "i") as [->|Hi].
  { intros [= <-]. by split_and!. }
  destruct (Ascii.eqb_spec opt "t") as [->|Ht].
  { destruct (wrong_type (first_char optarg)) eqn:Hw; [done|].
    intros [= <-]. split_and!; try done.
    intros (_ & Hd & Ho). split_and!; [|done..]. cbn. intros x [= <-].
    unfold wrong_type in Hw.
    destruct (Ascii.eqb_spec (first_char optarg) "A"); [by left|].
    destruct (Ascii.eqb_spec (first_char optarg) "V"); [by right; left|].
    destruct (Ascii.eqb_spec (first_char optarg) "E"); [by right; right|].
    done. }
  destruct (Ascii.eqb_spec opt "k") as [->|Hk].
  { intros [= <-]. by split_and!. }
  destruct (Ascii.eqb_spec opt "d") as [->|Hd].
  { destruct (out_of_range 2 (atoi optarg)) eqn:Hw; [done|].
    intros [= <-]. split_and!; try done.
    intros (Ht' & _ & Ho). split_and!; [done| |done]. cbn. intros z [= <-].
    unfold out_of_range in Hw. lia. }
  destruct (Ascii.eqb_spec opt "o") as [->|Ho]; [|done].
  destruct (out_of_range 1 (atoi optarg)) eqn:Hw; [done|].
  intros [= <-]. split_and!; try done.
  intros (Ht' & Hd' & _). split_and!; [done..|]. cbn. intros z [= <-].
  unfold out_of_range in Hw. lia.
Qed.

Lemma last_arg_cons opt o rest :
  last_arg opt (o :: rest) =
  match last_arg opt rest with
  | Some a => Some a
  | None => last_arg opt [o]
  end.
Proof. done. Qed.

Lemma options_config opts : ∀ c0 p c,
  options opts c0 = Load p c →
  fpath c = default (fpath c0) (last_arg "i" opts) ∧
  t c = from_option (λ a, Some (first_char a)) (t c0) (last_arg "t" opts) ∧
  max_k c = from_option atoi (max_k c0) (last_arg "k" opts) ∧
  flag_d c = from_option (λ a, Some (atoi a)) (flag_d c0)
                         (last_arg "d" opts) ∧
  flag_o c = from_option (λ a, Some (atoi a)) (flag_o c0)
                         (last_arg "o" opts) ∧
  (validated c0 → validated c).
Proof.
  induction opts as [|o opts IH]; intros c0 p c.
  - cbn. intros [= _ <-]. by split_and!.
  - cbn [options]. destruct (option_case o c0) as [c'|r] eqn:Hc.
    + intros H. apply IH in H as (Hf & Ht & Hk & Hd & Ho & Hv).
      apply option_case_config in Hc as (Hf' & Ht' & Hk' & Hd' & Ho' & Hv').
      rewrite !(last_arg_cons _ o opts).
      rewrite Hf, Ht, Hk, Hd, Ho, Hf', Ht', Hk', Hd', Ho'.
      split_and!;
        try match goal with
            | |- context [last_arg ?x opts] => by destruct (last_arg x opts)
            end.
      auto.
    + intros ->. destruct (option_case_ends _ _ _ Hc) as [[? ?]|[_ ?]]; done.
Qed.

(** X12: when [main] goes on to load the graph, each variable holds what
    the last occurrence of its option gave: [fpath] the argument of the
    last [-i], [t] the first character of the last [-t], [max_k], [flag_d]
    and [flag_o] the [atoi] of the last [-k], [-d] and [-o]; a variable
    whose option does not occur is as declared, so [fpath] is empty,
    [max_k] is 0, and [t], [flag_d] and [flag_o] have not been given a
    value. *)
Theorem loaded_configuration argc opts p c :
  main argc opts = Load p c →
  fpath c = default EmptyString (last_arg "i" opts) ∧
  t c = first_char <$> last_arg "t" opts ∧
  max_k c = from_option atoi 0%Z (last_arg "k" opts) ∧
  flag_d c = atoi <$> last_arg "d" opts ∧
  flag_o c = atoi <$> last_arg "o" opts.
Proof.
  unfold main. case_decide; [done|]. intros Hload.
  apply options_config in Hload as (Hf & Ht & Hk & Hd & Ho & _).
  rewrite Hf, Ht, Hk, Hd, Ho. cbn [declared fpath t max_k flag_d flag_o].
  split_and!; [done| |done| |];
    match goal with
    | |- context [last_arg ?x opts] => by destruct (last_arg x opts)
    end.
Qed.

Lemma loaded_configuration_witness :
  main 11 [opt_arg "i" "a.txt"; opt_arg "d" "2"; opt_arg "i" "g.txt";
           opt_arg "k" "4"; opt_arg "d" "1"] =
  Load ["New code."%string]
       (mkConfig "g.txt" None 4 (Some 1%Z) None) ∧
  fpath (mkConfig "g.txt" None 4 (Some 1%Z) None) =
  default EmptyString
    (last_arg "i" [opt_arg "i" "a.txt"; opt_arg "d" "2"; opt_arg "i" "g.txt";
                   opt_arg "k" "4"; opt_arg "d" "1"]) ∧
  t (mkConfig "g.txt" None 4 (Some 1%Z) None) =
  first_char <$>
    last_arg "t" [opt_arg "i" "a.txt"; opt_arg "d" "2"; opt_arg "i" "g.txt";
                  opt_arg "k" "4"; opt_arg "d" "1"] ∧
  max_k (mkConfig "g.txt" None 4 (Some 1%Z) None) =
  from_option atoi 0%Z
    (last_arg "k" [opt_arg "i" "a.txt"; opt_arg "d" "2"; opt_arg "i" "g.txt";
                   opt_arg "k" "4"; opt_arg "d" "1"]) ∧
  flag_d (mkConfig "g.txt" None 4 (Some 1%Z) None) =
  atoi <$>
    last_arg "d" [opt_arg "i" "a.txt"; opt_arg "d" "2"; opt_arg "i" "g.txt";
                  opt_arg "k" "4"; opt_arg "d" "1"] ∧
  flag_o (mkConfig "g.txt" None 4 (Some 1%Z) None) =
  atoi <$>
    last_arg "o" [opt_arg "i" "a.txt"; opt_arg "d" "2"; opt_arg "i" "g.txt";
                  opt_arg "k" "4"; opt_arg "d" "1"].
Proof.
  assert (H : main 11 [opt_arg "i" "a.txt"; opt_arg "d" "2";
                       opt_arg "i" "g.txt"; opt_arg "k" "4";
                       opt_arg "d" "1"] =
              Load ["New code."%string]
                   (mkConfig "g.txt" None 4 (Some 1%Z) None))
    by reflexivity.
  split; [exact H|]. apply (loaded_configuration _ _ _ _ H).
Defined.

(** X13: when [main] goes on to load the graph, a [t] that was given is
    A, V or E, a [flag_d] that was given is 0, 1 or 2, and a [flag_o] that
    was given is 0 or 1. *)
Theorem loaded_configuration_is_validated argc opts p c :
  main argc opts = Load p c → validated c.
Proof.
  unfold main. case_decide; [done|]. intros Hload.
  apply options_config in Hload as (_ & _ & _ & _ & _ & Hv). apply Hv.
  by split_and!.
Qed.

Lemma loaded_configuration_is_validated_witness :
  main 11 [opt_arg "i" "g.txt"; opt_arg "t" "Vertex"; opt_arg "k" "0";
           opt_arg "d" " 2"; opt_arg "o" "1x"] =
  Load ["New code."%string]
       (mkConfig "g.txt" (Some "V"%char) 0 (Some 2%Z) (Some 1%Z)) ∧
  validated (mkConfig "g.txt" (Some "V"%char) 0 (Some 2%Z) (Some 1%Z)).
Proof.
  assert (H : main 11 [opt_arg "i" "g.txt"; opt_arg "t" "Vertex";
                       opt_arg "k" "0"; opt_arg "d" " 2";
                       opt_arg "o" "1x"] =
              Load ["New code."%string]
                   (mkConfig "g.txt" (Some "V"%char) 0 (Some 2%Z) (Some 1%Z)))
    by reflexivity.
  split; [exact H|]. apply (loaded_configuration_is_validated _ _ _ _ H).
Defined.

Lemma option_case_accepts o c :
  bad_option o = false → rejected o = false → ∃ c', option_case o c = inl c'.
Proof.
  intros Hb Hr. destruct (option_case o c) as [c'|r] eqn:Hc; [by eexists|].
  destruct (option_case_stops _ _ _ Hc); congruence.
Qed.

Lemma options_app pre rest : ∀ c,
  existsb bad_option pre = false → existsb rejected pre = false →
  ∃ c', options (pre ++ rest) c = options rest c'.
Proof.
  induction pre as [|o pre IH]; intros c Hb Hr; [by eexists|].
  cbn [existsb] in *. apply orb_false_iff in Hb as [Hb Hb'].
  apply orb_false_iff in Hr as [Hr Hr'].
  destruct (option_case_accepts o c Hb Hr) as [c' Hc].
  cbn [app options]. rewrite Hc. by apply IH.
Qed.

Lemma option_case_refuses o c :
  (bad_option o = true → option_case o c = inr (Return 0 [diagnostic o])) ∧
  (rejected o = true →
   option_case o c = inr (Abort ["In default case."%string])).
Proof.
  destruct o as [opt optarg| |]; cbn; [|done..].
  destruct (Ascii.eqb_spec opt "i") as [->|Hi]; [done|].
  destruct (Ascii.eqb_spec opt "t") as [->|Ht].
  { cbn. by destruct (wrong_type (first_char optarg)). }
  destruct (Ascii.eqb_spec opt "k") as [->|Hk]; [done|].
  destruct (Ascii.eqb_spec opt "d") as [->|Hd].
  { cbn. by destruct (out_of_range 2 (atoi optarg)). }
  destruct (Ascii.eqb_spec opt "o") as [->|Ho]; [|done].
  cbn. by destruct (out_of_range 1 (atoi optarg)).
Qed.

(** X14: with eleven arguments, the first result of [getopt] that [main]
    does not let through decides how it ends, whatever follows: a refused
    value of [-t], [-d] or [-o] prints the line of that option and returns
    0, and a result that falls to the [default] case prints
    [In default case.] and aborts. *)
Theorem first_refused_option_decides pre o rest :
  existsb bad_option pre = false → existsb rejected pre = false →
  (bad_option o = true →
   main 11 (pre ++ o :: rest) = Return 0 [diagnostic o]) ∧
  (rejected o = true →
   main 11 (pre ++ o :: rest) = Abort ["In default case."%string]).
Proof.
  intros Hb Hr. unfold main. rewrite decide_False by lia.
  destruct (options_app pre (o :: rest) declared Hb Hr) as [c' ->].
  cbn [options]. destruct (option_case_refuses o c') as [H1 H2].
  split; intros H; [rewrite (H1 H)|rewrite (H2 H)]; done.
Qed.

Lemma first_refused_option_decides_witness :
  existsb bad_option [opt_arg "i" "g.txt"; opt_arg "t" "E"] = false ∧
  existsb rejected [opt_arg "i" "g.txt"; opt_arg "t" "E"] = false ∧
  (bad_option (opt_arg "d" "7") = true →
   main 11 ([opt_arg "i" "g.txt"; opt_arg "t" "E"] ++
            opt_arg "d" "7" :: [opt_unknown; opt_arg "o" "5"]) =
   Return 0 [diagnostic (opt_arg "d" "7")]) ∧
  (rejected (opt_arg "d" "7") = true →
   main 11 ([opt_arg "i" "g.txt"; opt_arg "t" "E"] ++
            opt_arg "d" "7" :: [opt_unknown; opt_arg "o" "5"]) =
   Abort ["In default case."%string]).
Proof.
  assert (H1 : existsb bad_option [opt_arg "i" "g.txt"; opt_arg "t" "E"]
               = false) by reflexivity.
  assert (H2 : existsb rejected [opt_arg "i" "g.txt"; opt_arg "t" "E"]
               = false) by reflexivity.
  split; [exact H1|]. split; [exact H2|].
  apply (first_refused_option_decides
           [opt_arg "i" "g.txt"; opt_arg "t" "E"] (opt_arg "d" "7")
           [opt_unknown; opt_arg "o" "5"] H1 H2).
Defined.

(** ** The graph name *)

Lemma last_component_nonempty s : ∀ cur found r,
  (∀ f, found = Some f → f ≠ EmptyString) →
  last_component s cur found = Some r → r ≠ EmptyString.
Proof.
  induction s as [|a s IH]; intros cur found r Hfound; cbn [last_component].
  - destruct cur; [apply Hfound|]. by intros [= <-].
  - destruct (Ascii.eqb a "/").
    + apply IH. destruct cur; [done|]. by intros f [= <-].
    + by apply IH.
Qed.

Lemma basename_nonempty path : basename path ≠ EmptyString.
Proof.
  unfold basename. destruct path as [|a s]; [done|].
  destruct (last_component (String a s) EmptyString None) as [r|] eqn:Hr;
    [|done].
  cbn [default]. by eapply last_component_nonempty, Hr.
Qed.

Lemma strrchr_absent s c : ¬ occurs c s → strrchr s c = None.
Proof.
  induction s as [|a r IH]; cbn; [done|]. intros Hno.
  rewrite IH by tauto. destruct (Ascii.eqb_spec a c); [|done]. tauto.
Qed.

(** X15: the name that [main] passes on is empty exactly when the last
    component of the path starts with its only dot, as that of a hidden
    file does; in every other case it is not empty. *)
Theorem gname_empty_iff path :
  gname path = EmptyString ↔
  ∃ ext, basename path = String "." ext ∧ ¬ occurs "." ext.
Proof.
  unfold gname. pose proof (basename_nonempty path) as Hne.
  destruct (strrchr (basename path) ".") as [i|] eqn:Hdot.
  - destruct (strrchr_Some _ _ _ Hdot) as (ext & Heq & Hno). split.
    + intros Hempty. rewrite Hempty in Heq. by exists ext.
    + intros (ext' & Heq' & Hno'). rewrite Heq' in Hdot |- *.
      cbn [strrchr] in Hdot. rewrite (strrchr_absent _ _ Hno') in Hdot.
      cbn in Hdot. by injection Hdot as <-.
  - split; [done|]. intros (ext & Heq & _).
    apply strrchr_None in Hdot. rewrite Heq in Hdot. exfalso. apply Hdot.
    cbn. by left.
Qed.

(** ** The value of [computeDegeneracy] and the shape of the graph *)

Lemma sum_list_submseteq (l k : list nat) : l ⊆+ k → sum_list l ≤ sum_list k.
Proof. induction 1; cbn in *; lia. Qed.

Lemma sum_list_at_least {A} (f : A → nat) (l : list A) d :
  (∀ x, x ∈ l → d ≤ f x) → length l * d ≤ sum_list (f <$> l).
Proof.
  induction l as [|x l IH]; intros Hl; cbn; [lia|].
  assert (d ≤ f x) by (apply Hl; by left).
  assert (length l * d ≤ sum_list (f <$> l)); [|lia].
  apply IH. intros y Hy. apply Hl. by right.
Qed.

Lemma induced_degree_mono g1 g2 n H v :
  simple_symmetric g1 n →
  (∀ u, u ∈ neighbours g1 v → u ∈ neighbours g2 v) →
  induced_degree g1 H v ≤ induced_degree g2 H v.
Proof.
  intros Hg Hsub. unfold induced_degree.
  apply submseteq_length, NoDup_submseteq.
  - apply NoDup_filter, (neighbours_NoDup g1 n Hg).
  - intros u [Hu Hin]%list_elem_of_filter. apply list_elem_of_filter.
    split; [done|by apply Hsub].
Qed.

(** X16: adding edges never lowers the value of [computeDegeneracy]: when
    every adjacency list of one simple symmetric graph is contained in the
    list of the same vertex in another, the value on the first is at most
    the value on the second.  In particular the value does not depend on
    the order in which the neighbours are listed. *)
Theorem degeneracy_grows_with_edges g1 g2 size :
  simple_symmetric g1 size → simple_symmetric g2 size →
  Forall (λ v, Forall (λ u, u ∈ neighbours g2 v) (neighbours g1 v))
         (seq 0 size) →
  ∃ d1 d2,
    computeDegeneracy g1 size = Some d1 ∧
    computeDegeneracy g2 size = Some d2 ∧ d1 ≤ d2.
Proof.
  intros H1 H2 Hsub.
  destruct (computeDegeneracy_spec g1 size H1) as (d1 & Hd1 & _ & Hcore).
  destruct (computeDegeneracy_spec g2 size H2) as (d2 & Hd2 & Hlow & _).
  exists d1, d2. split_and!; [done..|].
  destruct Hcore as [->|(H & Hne & Hlt & Hmin)]; [lia|].
  destruct (Hlow H Hne Hlt) as (v & Hv & Hle).
  etrans; [apply (Hmin v Hv)|]. etrans; [|exact Hle].
  apply (induced_degree_mono g1 g2 size); [done|]. intros u Hu.
  assert (Hvs : v ∈ seq 0 size) by (apply elem_of_seq; specialize (Hlt v Hv); lia).
  pose proof (proj1 (Forall_forall _ _) Hsub v Hvs) as Hsubv.
  by apply (proj1 (Forall_forall _ _) Hsubv).
Qed.

Lemma degeneracy_grows_with_edges_witness :
  simple_symmetric [[2; 1]; [0]; [0]; []] 4 ∧
  simple_symmetric [[1; 2; 3]; [2; 0]; [1; 0]; [0]] 4 ∧
  Forall (λ v, Forall (λ u, u ∈ neighbours [[1; 2; 3]; [2; 0]; [1; 0]; [0]] v)
                      (neighbours [[2; 1]; [0]; [0]; []] v))
         (seq 0 4) ∧
  ∃ d1 d2,
    computeDegeneracy [[2; 1]; [0]; [0]; []] 4 = Some d1 ∧
    computeDegeneracy [[1; 2; 3]; [2; 0]; [1; 0]; [0]] 4 = Some d2 ∧
    d1 ≤ d2.
Proof.
  assert (H1 : simple_symmetric [[2; 1]; [0]; [0]; []] 4)
    by (apply (bool_decide_unpack _); vm_compute; exact I).
  assert (H2 : simple_symmetric [[1; 2; 3]; [2; 0]; [1; 0]; [0]] 4)
    by (apply (bool_decide_unpack _); vm_compute; exact I).
  assert (H3 : Forall (λ v, Forall (λ u, u ∈ neighbours
                                       [[1; 2; 3]; [2; 0]; [1; 0]; [0]] v)
                                   (neighbours [[2; 1]; [0]; [0]; []] v))
                      (seq 0 4))
    by (apply (bool_decide_unpack _); vm_compute; exact I).
  split; [exact H1|]. split; [exact H2|]. split; [exact H3|].
  apply (degeneracy_grows_with_edges _ _ 4 H1 H2 H3).
Defined.

(** X17: a clique of a simple symmetric graph has at most one vertex more
    than the value of [computeDegeneracy]: vertices that are pairwise
    adjacent number at most [d + 1]. *)
Theorem clique_size_at_most_degeneracy_plus_one graph size :
  simple_symmetric graph size →
  ∃ d, computeDegeneracy graph size = Some d ∧
       ∀ C : list nat,
         NoDup C → (∀ v, v ∈ C → v < size) →
         (∀ u v, u ∈ C → v ∈ C → u ≠ v → u ∈ neighbours graph v) →
         length C ≤ d + 1.
Proof.
  intros Hg.
  destruct (computeDegeneracy_spec graph size Hg) as (d & Hd & Hlow & _).
  exists d. split; [done|]. intros C Hnd Hlt Hadj.
  destruct (decide (C = [])) as [->|Hne]; [cbn; lia|].
  destruct (Hlow C Hne Hlt) as (v & Hv & Hle).
  assert (length C ≤ S (induced_degree graph C v)); [|lia].
  unfold induced_degree.
  change (length C ≤
          length (v :: filter (λ u, u ∈ C) (neighbours graph v))).
  apply submseteq_length, NoDup_submseteq; [done|]. intros u Hu.
  destruct (decide (u = v)) as [->|Huv]; [by left|]. right.
  apply list_elem_of_filter. split; [done|]. by apply Hadj.
Qed.

Lemma clique_size_at_most_degeneracy_plus_one_witness :
  simple_symmetric bowtie 5 ∧
  ∃ d, computeDegeneracy bowtie 5 = Some d ∧
       ∀ C : list nat,
         NoDup C → (∀ v, v ∈ C → v < 5) →
         (∀ u v, u ∈ C → v ∈ C → u ≠ v → u ∈ neighbours bowtie v) →
         length C ≤ d + 1.
Proof.
  assert (H : simple_symmetric bowtie 5)
    by (apply (bool_decide_unpack _); vm_compute; exact I).
  split; [exact H|].
  apply (clique_size_at_most_degeneracy_plus_one bowtie 5 H).
Defined.

(** X18: a simple symmetric graph on which [computeDegeneracy] returns [d]
    has at least [d * (d + 1) / 2] edges: the total length of its
    adjacency lists is at least [d * (d + 1)]. *)
Theorem degeneracy_needs_edges graph size :
  simple_symmetric graph size →
  ∃ d, computeDegeneracy graph size = Some d ∧
       d * (d + 1) ≤ total_adjacency graph.
Proof.
  intros Hg.
  destruct (computeDegeneracy_spec graph size Hg) as (d & Hd & _ & Hcore).
  exists d. split; [done|].
  destruct Hcore as [->|(H & Hne & Hlt & Hmin)]; [lia|].
  destruct H as [|v H']; [done|]. set (H := v :: H') in *.
  assert (Hv : v ∈ H) by (by left).
  set (L := v :: filter (λ u, u ∈ H) (neighbours graph v)).
  assert (HL : ∀ u, u ∈ L → u ∈ H).
  { intros u [->|Hu]%elem_of_cons; [done|].
    by apply list_elem_of_filter in Hu as [? _]. }
  assert (Hnd : NoDup L).
  { apply NoDup_cons. split.
    - intros [_ Hin]%list_elem_of_filter.
      by apply (neighbours_irrefl graph size Hg v).
    - apply NoDup_filter, (neighbours_NoDup graph size Hg). }
  assert (Hlen : d + 1 ≤ length L).
  { unfold L. cbn [length]. specialize (Hmin v Hv).
    unfold induced_degree in Hmin. lia. }
  assert (Hsub : L ⊆+ seq 0 size).
  { apply NoDup_submseteq; [done|]. intros u Hu. apply elem_of_seq.
    specialize (Hlt u (HL u Hu)). lia. }
  unfold total_adjacency.
  rewrite (graph_as_neighbours graph size Hg), <- list_fmap_compose.
  etrans; [|apply sum_list_submseteq, fmap_submseteq, Hsub].
  etrans; [|apply (sum_list_at_least _ L d)].
  - nia.
  - intros u Hu. etrans; [apply (Hmin u (HL u Hu))|].
    unfold induced_degree, compose. apply length_filter.
Qed.

Lemma degeneracy_needs_edges_witness :
  simple_symmetric bowtie 5 ∧
  ∃ d, computeDegeneracy bowtie 5 = Some d ∧
       d * (d + 1) ≤ total_adjacency bowtie.
Proof.
  assert (H : simple_symmetric bowtie 5)
    by (apply (bool_decide_unpack _); vm_compute; exact I).
  split; [exact H|]. apply (degeneracy_needs_edges bowtie 5 H).
Defined.

(** ** The routines on any input *)

(** X19: whatever the adjacency lists hold, the routines that record more
    return only where the routines that record less do: when
    [computeDegeneracyOrderArrayVerticesSorted] or
    [computeDegeneracyOrderArray] returns, so does
    [computeDegeneracyOrderList], and when that one returns, so does
    [computeDegeneracy]; an array that [computeDegeneracyOrderArray]
    returns has [size] slots. *)
Theorem routines_return_together graph size :
  (is_Some (computeDegeneracyOrderArrayVerticesSorted graph size) →
   is_Some (computeDegeneracyOrderList graph size)) ∧
  (∀ arr, computeDegeneracyOrderArray graph size = Some arr →
          length arr = size ∧
          is_Some (computeDegeneracyOrderList graph size)) ∧
  (is_Some (computeDegeneracyOrderList graph size) →
   is_Some (computeDegeneracy graph size)).
Proof.
  unfold computeDegeneracyOrderArrayVerticesSorted,
    computeDegeneracyOrderArray, computeDegeneracyOrderList,
    computeDegeneracy.
  destruct (initialise graph size) as [s0|]; osimpl;
    [|split_and!; [by intros [? ?]|done|by intros [? ?]]].
  split_and!.
  - destruct (loopSorted _ _ _ _) as [[[s o] vm]|] eqn:Hl;
      [|by intros [? ?]].
    apply loopSorted_loopOrder in Hl. cbn [fst] in Hl. rewrite Hl. osimpl.
    by eexists.
  - intros arr. destruct (loopOrder _ _ _ _) as [[s o]|]; osimpl; [|done].
    intros Harr. split; [|by eexists]. apply length_mapM in Harr.
    by rewrite length_seq in Harr.
  - destruct (loopOrder _ _ _ _) as [[s o]|] eqn:Hl; [|by intros [? ?]].
    apply loopOrder_loop in Hl. cbn [fst] in Hl. rewrite Hl. osimpl.
    by eexists.
Qed.

(** ** Cliques in the ordering *)

(** X20: in the array of [computeDegeneracyOrderArray] every clique lies
    in the [later] array of its first vertex: among vertices that are
    pairwise adjacent there is one whose [later] array holds all the
    others, and its [orderNumber] is below theirs. *)
Theorem clique_lies_in_later_of_its_first_vertex graph size :
  simple_symmetric graph size →
  ∃ arr,
    computeDegeneracyOrderArray graph size = Some arr ∧
    ∀ C : list nat,
      C ≠ [] → (∀ v, v ∈ C → v < size) →
      (∀ u v, u ∈ C → v ∈ C → u ≠ v → u ∈ neighbours graph v) →
      ∃ v av, v ∈ C ∧ arr !! v = Some av ∧
              ∀ u, u ∈ C → u ≠ v →
                   u ∈ later av ∧ orderNumber av < rank_in arr u.
Proof.
  intros Hg.
  destruct (routines_spec graph size Hg)
    as (order & d & ordering & arr & sorted & vm & Hord & _ & _ & Harr & _ &
        _ & Hlen & _ & _ & Hall & _).
  exists arr. split; [done|]. intros C Hne Hlt Hadj.
  destruct (list_find (λ x, x ∈ C) order) as [[k v]|] eqn:Hf.
  - apply list_find_Some in Hf as (Hk & HvC & Hfirst).
    destruct (Hall k v Hk) as (_ & _ & Hav & _).
    exists v, (array_of graph order k v). split_and!; [done..|].
    intros u Hu Huv.
    destruct (removal_order_lookup size order u Hord (Hlt u Hu))
      as (j & _ & Hj).
    assert (Hkj : k < j).
    { destruct (decide (j < k)) as [Hjk|Hjk];
        [by destruct (Hfirst j u Hj Hjk)|].
      assert (j ≠ k); [|lia]. intros ->. congruence. }
    split.
    + cbn [later array_of record_of nl_later]. apply list_elem_of_filter.
      split; [|by apply Hadj]. intros Hin.
      apply elem_of_take in Hin as (i & Hi & Hik).
      pose proof (removal_order_inj size order i j u Hord Hi Hj). lia.
    + destruct (Hall j u Hj) as (_ & _ & Hau & _).
      unfold rank_in. rewrite Hau. cbn. lia.
  - apply list_find_None in Hf. destruct C as [|c C]; [done|]. exfalso.
    apply (proj1 (Forall_forall _ _) Hf c).
    + apply Hord, Hlt. by left.
    + by left.
Qed.

Lemma clique_lies_in_later_of_its_first_vertex_witness :
  simple_symmetric bowtie 5 ∧
  ∃ arr,
    computeDegeneracyOrderArray bowtie 5 = Some arr ∧
    ∀ C : list nat,
      C ≠ [] → (∀ v, v ∈ C → v < 5) →
      (∀ u v, u ∈ C → v ∈ C → u ≠ v → u ∈ neighbours bowtie v) →
      ∃ v av, v ∈ C ∧ arr !! v = Some av ∧
              ∀ u, u ∈ C → u ≠ v →
                   u ∈ later av ∧ orderNumber av < rank_in arr u.
Proof.
  assert (H : simple_symmetric bowtie 5)
    by (apply (bool_decide_unpack _); vm_compute; exact I).
  split; [exact H|].
  apply (clique_lies_in_later_of_its_first_vertex bowtie 5 H).
Defined.
